(** * pyclustering ccore: oscillatory networks

    A shallow embedding of [ccore/network.cpp] (the connectivity graph and
    its topology builders) and of [ccore/syncnet.cpp] (the radius-based
    builder [syncnet::create_connections] and the Kuramoto phase law
    [syncnet::phase_kuramoto]), with the properties of the written
    specification proved or refuted against it.

    Conventions.
    - [unsigned int] is 32 bits wide and [int] is its two's complement
      reading; values are kept in [Z] and every conversion is written out
      ([to_unsigned], [to_int]).
    - [throw std::runtime_error(...)] is a value of the [result] monad.
    - The arithmetic of [double] is an interface ([DoubleOps]) with two
      interpretations: IEEE binary64 (the kernel's floats, which compute)
      and the real numbers (the reading in which the specification writes
      its formulas). *)

From Stdlib Require Import ZArith Lia Floats Reals Lra Sorted.
From stdpp Require Import gmap list.

#[local] Open Scope Z_scope.

(** ** Machine integers *)

Definition UINT_MODULUS : Z := 2 ^ 32.
Definition INT_MAX : Z := 2 ^ 31 - 1.

(** Conversion to [unsigned int]: reduction modulo [2^32]. *)
Definition to_unsigned (x : Z) : Z := x mod UINT_MODULUS.

(** Conversion to [int]: the two's complement reading of the low 32 bits. *)
Definition to_int (x : Z) : Z :=
  let u := x mod UINT_MODULUS in
  if u <=? INT_MAX then u else u - UINT_MODULUS.

(** [sizeof(unsigned int)], in bytes, for the 32-bit [unsigned int] above. *)
Definition sizeof_unsigned_int : Z := 4.

(** ** Exceptions *)

Inductive error : Set :=
  | InvalidTopology   (* "Unknown type of connection" *)
  | InvalidGridSize   (* "Invalid number of oscillators in the network for the grid structure" *)
  | IndexOutOfRange.

Inductive result (A : Type) : Type :=
  | Ok (a : A)
  | Err (e : error).
Arguments Ok {A} a.
Arguments Err {A} e.

Definition bind {A B : Type} (m : result A) (k : A -> result B) : result B :=
  match m with
  | Ok a => k a
  | Err e => Err e
  end.

Notation "'do' x <- m ; k" := (bind m (fun x => k))
  (at level 10, x pattern, m at level 100, k at level 200).

(** [for (unsigned int i = first; i < bound; i++) body], the loop state
    threaded through the iterations; an exception leaves the loop. *)
Fixpoint for_each {S : Type} (l : list Z) (body : Z -> S -> result S) (s : S) : result S :=
  match l with
  | [] => Ok s
  | i :: l' => do s' <- body i s; for_each l' body s'
  end.

Definition for_loop {S : Type} (first bound : Z) (body : Z -> S -> result S) (s : S) : result S :=
  for_each (seqZ first (bound - first)) body s.

(** ** The connectivity graph (network.cpp) *)

Inductive conn_type : Set :=
  | NONE
  | ALL_TO_ALL
  | GRID_FOUR
  | GRID_EIGHT
  | LIST_BIDIR
  | conn_other (v : Z).   (* any enumerator value outside the five cases of the switch *)

Inductive conn_repr_type : Set :=
  | MATRIX_CONN_REPRESENTATION
  | BITMAP_CONN_REPRESENTATION.

(** The members of [class network].  [osc_conn] is a vector of [num_osc]
    rows, each of [row_elements] words; what the rows encode is read and
    written only through [get_connection] and [set_connection], so the
    model keeps the length of a row and the relation the rows encode. *)
Record network : Type := mk_network {
  num_osc : Z;
  conn_representation : conn_repr_type;
  row_elements : Z;
  osc_conn : gset (Z * Z);
}.

Definition add_edges (net : network) (E : gset (Z * Z)) : network :=
  {| num_osc := num_osc net;
     conn_representation := conn_representation net;
     row_elements := row_elements net;
     osc_conn := E ∪ osc_conn net |}.

(** Modelled from the spec: [network::set_connection], declared in network.h
    (not among the sources).  "Marks a directed edge i -> j ... failing with
    IndexOutOfRange if either index >= oscillatorCount."  The arguments are
    unsigned ints. *)
Definition set_connection (net : network) (index1 index2 : Z) : result network :=
  if (0 <=? index1) && (index1 <? num_osc net) && (0 <=? index2) && (index2 <? num_osc net)
  then Ok (add_edges net {[ (index1, index2) ]})
  else Err IndexOutOfRange.

(** Modelled from the spec: [network::get_connection], declared in network.h
    (not among the sources).  "Returns whether edge exists; must be
    representation-agnostic."  The callers test the returned word with [> 0]. *)
Definition get_connection (net : network) (index1 index2 : Z) : Z :=
  if bool_decide ((index1, index2) ∈ osc_conn net) then 1 else 0.

(** [std::ceil] and [std::floor] applied to the quotient of an integer
    division: the quotient is converted to [double] exactly and is its own
    ceiling and floor. *)
Definition std_ceil (quotient : Z) : Z := quotient.
Definition std_floor (quotient : Z) : Z := quotient.

(** [std::sqrt((double) num_osc)] for a 32-bit [num_osc], through the two
    uses the grid builders make of it: the test
    [conv_side_size - std::floor(conv_side_size) > 0] and the truncation
    [(unsigned int) conv_side_size].  The conversion to [double] is exact
    and the binary64 root is correctly rounded; a root that is not an
    integer is at least [2^-17] away from one, far above the rounding
    error, so both uses give what they give on the exact root, which
    [sqrt_has_fraction_exact] and [sqrt_truncated_exact] below relate to
    these integer definitions. *)
Definition sqrt_has_fraction (n : Z) : bool := negb (Z.sqrt n * Z.sqrt n =? n).
Definition sqrt_truncated (n : Z) : Z := Z.sqrt n.

Definition get_neighbors (net : network) (index : Z) : list Z :=
  filter (fun index_neighbour => 0 < get_connection net index index_neighbour)
         (seqZ 0 (num_osc net)).

Definition create_none_connections (net : network) : result network := Ok net.

Definition create_all_to_all_connections (net : network) : result network :=
  for_loop 0 (num_osc net) (fun row net =>
    for_loop (to_unsigned (row + 1)) (num_osc net) (fun col net =>
      do net <- set_connection net row col;
      set_connection net col row) net) net.

Definition create_list_bidir_connections (net : network) : result network :=
  for_loop 1 (num_osc net) (fun index net =>
    do net <- (if 0 <? index
               then set_connection net index (to_unsigned (index - 1))
               else Ok net);
    if index <? to_unsigned (num_osc net - 1)
    then set_connection net index (to_unsigned (index + 1))
    else Ok net) net.

Definition create_grid_four_connections (net : network) : result network :=
  if sqrt_has_fraction (num_osc net) then Err InvalidGridSize else
  let side_size := sqrt_truncated (num_osc net) in
  for_loop 0 (num_osc net) (fun index net =>
    let upper_index := to_int (index - side_size) in
    let lower_index := to_int (index + side_size) in
    let left_index := to_int (index - 1) in
    let right_index := to_int (index + 1) in
    let node_row_index := std_ceil (index / side_size) in
    do net <- (if 0 <=? upper_index
               then set_connection net index (to_unsigned upper_index)
               else Ok net);
    do net <- (if to_unsigned lower_index <? num_osc net
               then set_connection net index (to_unsigned lower_index)
               else Ok net);
    do net <- (if (0 <=? left_index)
                  && (std_ceil (to_unsigned left_index / side_size) =? node_row_index)
               then set_connection net index (to_unsigned left_index)
               else Ok net);
    if (to_unsigned right_index <? num_osc net)
       && (std_ceil (to_unsigned right_index / side_size) =? node_row_index)
    then set_connection net index (to_unsigned right_index)
    else Ok net) net.

Definition create_grid_eight_connections (net : network) : result network :=
  do net <- create_grid_four_connections net;
  let side_size := sqrt_truncated (num_osc net) in
  for_loop 0 (num_osc net) (fun index net =>
    let upper_left_index := to_unsigned (index - side_size - 1) in
    let upper_right_index := to_unsigned (index - side_size + 1) in
    let lower_left_index := to_unsigned (index + side_size - 1) in
    let lower_right_index := to_unsigned (index + side_size + 1) in
    let node_row_index := std_floor (index / side_size) in
    let upper_row_index := to_unsigned (node_row_index - 1) in
    let lower_row_index := to_unsigned (node_row_index + 1) in
    do net <- (if (0 <=? upper_left_index)
                  && (std_floor (upper_left_index / side_size) =? upper_row_index)
               then set_connection net index upper_left_index
               else Ok net);
    do net <- (if (0 <=? upper_right_index)
                  && (std_floor (upper_right_index / side_size) =? upper_row_index)
               then set_connection net index upper_right_index
               else Ok net);
    do net <- (if (lower_left_index <? num_osc net)
                  && (std_floor (lower_left_index / side_size) =? lower_row_index)
               then set_connection net index lower_left_index
               else Ok net);
    if (lower_right_index <? num_osc net)
       && (std_floor (lower_right_index / side_size) =? lower_row_index)
    then set_connection net index lower_right_index
    else Ok net) net.

Definition create_structure (net : network) (connection_structure : conn_type)
  : result network :=
  match connection_structure with
  | NONE => create_none_connections net
  | ALL_TO_ALL => create_all_to_all_connections net
  | GRID_FOUR => create_grid_four_connections net
  | GRID_EIGHT => create_grid_eight_connections net
  | LIST_BIDIR => create_list_bidir_connections net
  | conn_other _ => Err InvalidTopology
  end.

Section Constructor.

(** The macro [MAXIMUM_OSCILLATORS_MATRIX_REPRESENTATION] of network.h
    (not among the sources): the largest oscillator count kept as a
    dense matrix. *)
Variable MAXIMUM_OSCILLATORS_MATRIX_REPRESENTATION : Z.

(** The first half of [network::network]: the representation and the
    number of elements of every row of [osc_conn]. *)
Definition select_representation (number_oscillators : Z) : conn_repr_type * Z :=
  if MAXIMUM_OSCILLATORS_MATRIX_REPRESENTATION <? number_oscillators
  then (BITMAP_CONN_REPRESENTATION, std_ceil (number_oscillators / sizeof_unsigned_int))
  else (MATRIX_CONN_REPRESENTATION, number_oscillators).

Definition network_new (number_oscillators : Z) (connection_type : conn_type)
  : result network :=
  let '(representation, number_elements) := select_representation number_oscillators in
  create_structure
    {| num_osc := number_oscillators;
       conn_representation := representation;
       row_elements := number_elements;
       osc_conn := ∅ |}
    connection_type.

End Constructor.

(** ** The arithmetic of [double] *)

Class DoubleOps (D : Type) : Type := {
  d_zero : D;
  d_one : D;
  d_max : D;                    (* std::numeric_limits<double>::max() *)
  d_add : D -> D -> D;
  d_sub : D -> D -> D;
  d_mul : D -> D -> D;
  d_div : D -> D -> D;
  d_leb : D -> D -> bool;       (* <= *)
  d_ltb : D -> D -> bool;       (* <  *)
  d_eqb : D -> D -> bool;       (* == *)
  d_of_uint : Z -> D;           (* conversion of an unsigned int *)
}.

(** IEEE 754 binary64. *)
#[export] Instance binary64_ops : DoubleOps float := {|
  d_zero := 0%float;
  d_one := 1%float;
  d_max := 0x1.fffffffffffffp+1023%float;
  d_add := PrimFloat.add;
  d_sub := PrimFloat.sub;
  d_mul := PrimFloat.mul;
  d_div := PrimFloat.div;
  d_leb := PrimFloat.leb;
  d_ltb := PrimFloat.ltb;
  d_eqb := PrimFloat.eqb;
  d_of_uint := fun z => PrimFloat.of_uint63 (Uint63.of_Z z);
|}.

Definition Rleb (a b : R) : bool := if Rle_dec a b then true else false.
Definition Rltb (a b : R) : bool := if Rlt_dec a b then true else false.
Definition Reqb (a b : R) : bool := if Req_dec_T a b then true else false.

(** The real numbers: what the operations compute when nothing is rounded. *)
#[export] Instance real_ops : DoubleOps R := {|
  d_zero := 0%R;
  d_one := 1%R;
  d_max := IZR (2 ^ 1024 - 2 ^ 971);
  d_add := Rplus;
  d_sub := Rminus;
  d_mul := Rmult;
  d_div := Rdiv;
  d_leb := Rleb;
  d_ltb := Rltb;
  d_eqb := Reqb;
  d_of_uint := IZR;
|}.

(** ** The state monad of a member function *)

Definition state (S A : Type) : Type := S -> A * S.

Definition st_ret {S A : Type} (a : A) : state S A := fun s => (a, s).

Definition st_bind {S A B : Type} (m : state S A) (k : A -> state S B) : state S B :=
  fun s => let '(a, s') := m s in k a s'.

(** Reading a member or calling a [const] accessor. *)
Definition st_gets {S A : Type} (f : S -> A) : state S A := fun s => (f s, s).

Notation "'run' x <- m ; k" := (st_bind m (fun x => k))
  (at level 10, x pattern, m at level 100, k at level 200).

Fixpoint st_for_each {S A : Type} (l : list Z) (body : Z -> A -> state S A) (acc : A)
  : state S A :=
  match l with
  | [] => st_ret acc
  | i :: l' => run acc' <- body i acc; st_for_each l' body acc'
  end.

Definition st_for_loop {S A : Type} (first bound : Z) (body : Z -> A -> state S A) (acc : A)
  : state S A :=
  st_for_each (seqZ first (bound - first)) body acc.

(** ** The Sync network (syncnet.cpp) *)

Section Syncnet.

Context {D : Type} `{DoubleOps D}.

(** [std::vector<std::vector<double> >] read and written by index.
    Every index the code uses is below the dimension; outside it the
    model reads zero and writes nothing. *)
Definition matrix_get (w : list (list D)) (i j : Z) : D :=
  default d_zero (w !! Z.to_nat i ≫= fun row => row !! Z.to_nat j).

Definition matrix_set (w : list (list D)) (i j : Z) (v : D) : list (list D) :=
  alter (fun row => <[Z.to_nat j := v]> row) (Z.to_nat i) w.

(** Modelled from the spec: [euclidean_distance_sqrt] of support.h (not
    among the sources), the "squared Euclidean distance" of two points,
    summed over the coordinates. *)
Definition euclidean_distance_sqrt (point1 point2 : list D) : D :=
  foldl (fun distance '(a, b) =>
           let difference := d_sub a b in
           d_add distance (d_mul difference difference))
        d_zero (zip point1 point2).

Record sync_oscillator : Type := mk_oscillator { phase : D }.

(** The members of [class syncnet] and of its bases that the two
    functions use. *)
Record syncnet : Type := mk_syncnet {
  base : network;
  oscillators : list sync_oscillator;
  weight : D;
  oscillator_locations : list (list D);
  distance_conn_weights : option (list (list D));   (* [None] is the NULL pointer *)
}.

Definition set_base (s : syncnet) (net : network) : syncnet :=
  {| base := net;
     oscillators := oscillators s;
     weight := weight s;
     oscillator_locations := oscillator_locations s;
     distance_conn_weights := distance_conn_weights s |}.

Definition set_weights (s : syncnet) (w : option (list (list D))) : syncnet :=
  {| base := base s;
     oscillators := oscillators s;
     weight := weight s;
     oscillator_locations := oscillator_locations s;
     distance_conn_weights := w |}.

(** The [i]-th element of [oscillator_locations]. *)
Definition location (s : syncnet) (i : Z) : list D :=
  default [] (oscillator_locations s !! Z.to_nat i).

(** Entry [[i][j]] of [distance_conn_weights] read, and the pair of
    writes [[i][j] = v; [j][i] = v]. *)
Definition weight_at (s : syncnet) (i j : Z) : D :=
  match distance_conn_weights s with
  | Some w => matrix_get w i j
  | None => d_zero
  end.

Definition store_weight (s : syncnet) (i j : Z) (v : D) : syncnet :=
  set_weights s ((fun w => matrix_set (matrix_set w i j v) j i v) <$> distance_conn_weights s).

(** The [phase] of the [k]-th element of [oscillators]. *)
Definition phase_at (s : syncnet) (k : Z) : D :=
  match oscillators s !! Z.to_nat k with
  | Some o => phase o
  | None => d_zero
  end.

(** The body of the first pair of loops of [create_connections]: one
    unordered pair [i < j], with the running [maximum_distance]. *)
Definition visit_pair (sqrt_connectivity_radius : D) (enable_conn_weight : bool)
    (i j : Z) (st : syncnet * D) : result (syncnet * D) :=
  let '(s, maximum_distance) := st in
  let distance := euclidean_distance_sqrt (location s i) (location s j) in
  do net <- (if d_leb distance sqrt_connectivity_radius
             then do net <- set_connection (base s) j i;
                  set_connection net i j
             else Ok (base s));
  let s := set_base s net in
  if enable_conn_weight then
    let s := store_weight s i j distance in
    let maximum_distance :=
      if d_ltb maximum_distance distance then distance else maximum_distance in
    let maximum_distance :=
      if d_ltb distance maximum_distance then distance else maximum_distance in
    Ok (s, maximum_distance)
  else Ok (s, maximum_distance).

(** The body of the second pair of loops: one weight normalized. *)
Definition normalize_pair (multiplier subtractor : D) (i j : Z) (s : syncnet)
  : result syncnet :=
  let value_weight := d_div (d_sub (weight_at s i j) subtractor) multiplier in
  Ok (store_weight s i j value_weight).

Definition create_connections (s : syncnet) (connectivity_radius : D)
    (enable_conn_weight : bool) : result syncnet :=
  let sqrt_connectivity_radius := d_mul connectivity_radius connectivity_radius in
  let n := num_osc (base s) in
  let s := set_weights s
             (if enable_conn_weight
              then Some (replicate (Z.to_nat n) (replicate (Z.to_nat n) d_zero))
              else None) in
  let minimum_distance := d_max in
  do (s, maximum_distance) <-
    for_loop 0 n (fun i st =>
      for_loop (to_unsigned (i + 1)) n (fun j st =>
        visit_pair sqrt_connectivity_radius enable_conn_weight i j st) st) (s, d_zero);
  if enable_conn_weight then
    let '(multiplier, subtractor) :=
      if negb (d_eqb maximum_distance minimum_distance)
      then (d_sub maximum_distance minimum_distance, minimum_distance)
      else (d_one, d_zero) in
    for_loop 0 n (fun i s =>
      for_loop (to_unsigned (i + 1)) n (fun j s =>
        normalize_pair multiplier subtractor i j s) s) s
  else Ok s.

(** [syncnet::syncnet].  The base constructor
    [sync_network(size, 1, 0, NONE, RANDOM_GAUSSIAN)] (not among the
    sources) builds the edgeless network of [input_data->size()]
    oscillators with coupling weight 1 and draws the phases, which are
    an argument here. *)
Definition syncnet_new (MAXIMUM_OSCILLATORS_MATRIX_REPRESENTATION : Z)
    (input_data : list (list D)) (connectivity_radius : D)
    (enable_conn_weight : bool) (drawn_phases : list D) : result syncnet :=
  do net <- network_new MAXIMUM_OSCILLATORS_MATRIX_REPRESENTATION
              (to_unsigned (Z.of_nat (length input_data))) NONE;
  create_connections
    {| base := net;
       oscillators := mk_oscillator <$> drawn_phases;
       weight := d_one;
       oscillator_locations := input_data;
       distance_conn_weights := None |}
    connectivity_radius enable_conn_weight.

(** [std::sin]. *)
Variable d_sin : D -> D.

(** [syncnet::phase_kuramoto(t, teta, argv)] with [index = argv[1]].
    The object is threaded through every statement. *)
Definition phase_kuramoto (t teta : D) (index : Z) : state syncnet D :=
  run weights <- st_gets distance_conn_weights;
  run n <- st_gets (fun s => num_osc (base s));
  run (phase, num_neighbors) <-
    match weights with
    | Some _ =>
        st_for_loop 0 n (fun k '(phase, num_neighbors) =>
          run connection <- st_gets (fun s => get_connection (base s) index k);
          if 0 <? connection then
            run w <- st_gets (fun s => weight_at s index k);
            run phase_k <- st_gets (fun s => phase_at s k);
            st_ret (d_add phase (d_mul w (d_sin (d_sub phase_k teta))),
                    to_unsigned (num_neighbors + 1))
          else st_ret (phase, num_neighbors)) (d_zero, 0)
    | None =>
        st_for_loop 0 n (fun k '(phase, num_neighbors) =>
          run connection <- st_gets (fun s => get_connection (base s) index k);
          if 0 <? connection then
            run phase_k <- st_gets (fun s => phase_at s k);
            st_ret (d_add phase (d_sin (d_sub phase_k teta)),
                    to_unsigned (num_neighbors + 1))
          else st_ret (phase, num_neighbors)) (d_zero, 0)
    end;
  let num_neighbors := if num_neighbors =? 0 then 1 else num_neighbors in
  run w <- st_gets weight;
  st_ret (d_div (d_mul phase w) (d_of_uint num_neighbors)).

End Syncnet.

Arguments sync_oscillator D : clear implicits.
Arguments syncnet D : clear implicits.

(** * Vocabulary of the properties *)

(** ** Connections *)

Definition is_edge (net : network) (a b : Z) : Prop := (a, b) ∈ osc_conn net.

(** The object [network::network] hands to [create_structure]. *)
Definition allocated (maximum_matrix n : Z) : network :=
  {| num_osc := n;
     conn_representation := fst (select_representation maximum_matrix n);
     row_elements := snd (select_representation maximum_matrix n);
     osc_conn := ∅ |}.

(** The spec's words for the bitmap row: "ceil(oscillatorCount / wordBits)",
    [wordBits] the number of bits of a machine word. *)
Definition word_bits : Z := 8 * sizeof_unsigned_int.
Definition spec_bitmap_row_elements (n : Z) : Z := (n + word_bits - 1) / word_bits.

(** ** Grids *)

(** [conv_side_size = std::sqrt((double) num_osc)] without rounding. *)
Definition conv_side_size (num_osc : Z) : R := sqrt (IZR num_osc).

(** The four neighbours [create_grid_four_connections] joins to node [a]
    of a grid of side [k], and the four [create_grid_eight_connections]
    adds, as the tests of the code decide them. *)
Definition grid_four_step (k a b : Z) : Prop :=
  (b = a - k /\ k <= a /\ a - k <= INT_MAX)
  \/ (b = a + k /\ a + k < k * k)
  \/ (b = a - 1 /\ 1 <= a /\ a - 1 <= INT_MAX /\ (a - 1) / k = a / k)
  \/ (b = a + 1 /\ a + 1 < k * k /\ (a + 1) / k = a / k).

Definition grid_diagonal_step (k a b : Z) : Prop :=
  (b = a - k - 1 /\ k + 1 <= a /\ (a - k - 1) / k = a / k - 1)
  \/ (b = a - k + 1 /\ k <= a /\ (a - k + 1) / k = a / k - 1)
  \/ (b = a + k - 1 /\ a + k - 1 < k * k /\ (a + k - 1) / k = a / k + 1)
  \/ (b = a + k + 1 /\ a + k + 1 < k * k /\ (a + k + 1) / k = a / k + 1).

Definition row_of (side index : Z) : Z := index / side.
Definition col_of (side index : Z) : Z := index mod side.

(** Horizontal or vertical neighbours, and diagonal neighbours, of a grid
    of side [k] stored row by row. *)
Definition orthogonal (k a b : Z) : Prop :=
  (row_of k a = row_of k b /\ Z.abs (col_of k a - col_of k b) = 1)
  \/ (col_of k a = col_of k b /\ Z.abs (row_of k a - row_of k b) = 1).

Definition diagonal (k a b : Z) : Prop :=
  Z.abs (row_of k a - row_of k b) = 1 /\ Z.abs (col_of k a - col_of k b) = 1.

(** The neighbours of node [i] in the four-neighbour grid of side [k],
    in ascending order. *)
Definition grid_four_neighbours (k i : Z) : list Z :=
  (if 0 <? row_of k i then [i - k] else [])
  ++ (if 0 <? col_of k i then [i - 1] else [])
  ++ (if col_of k i <? k - 1 then [i + 1] else [])
  ++ (if row_of k i <? k - 1 then [i + k] else []).

Definition first_or_last_row (k i : Z) : Prop := row_of k i = 0 \/ row_of k i = k - 1.
Definition first_or_last_col (k i : Z) : Prop := col_of k i = 0 \/ col_of k i = k - 1.

Definition interior_node (k i : Z) : Prop := ~ first_or_last_row k i /\ ~ first_or_last_col k i.
Definition corner_node (k i : Z) : Prop := first_or_last_row k i /\ first_or_last_col k i.
Definition edge_node (k i : Z) : Prop :=
  (first_or_last_row k i /\ ~ first_or_last_col k i)
  \/ (~ first_or_last_row k i /\ first_or_last_col k i).

(** ** The radius-based builder *)

Section BuilderVocabulary.

Context {D : Type} `{DoubleOps D}.

Definition square_matrix (n : nat) (w : list (list D)) : Prop :=
  length w = n /\ Forall (fun row => length row = n) w.

(** The squared distance the builder computes for the oscillators [i]
    and [j] of a network. *)
Definition location_distance (s : syncnet D) (i j : Z) : D :=
  euclidean_distance_sqrt (location s i) (location s j).

(** The spec's words for the normalization: "(d - dmin) / (dmax - dmin)". *)
Definition spec_normalized (dmin dmax d : D) : D :=
  d_div (d_sub d dmin) (d_sub dmax dmin).

(** The multiplier and the subtractor [create_connections] derives from
    its two running bounds. *)
Definition normalization (maximum_distance minimum_distance : D) : D * D :=
  if negb (d_eqb maximum_distance minimum_distance)
  then (d_sub maximum_distance minimum_distance, minimum_distance)
  else (d_one, d_zero).

Definition normalized (maximum_distance minimum_distance : D) (distance : D) : D :=
  d_div (d_sub distance (snd (normalization maximum_distance minimum_distance)))
        (fst (normalization maximum_distance minimum_distance)).

(** The object on which [create_connections] is called, and its radius. *)
Variable s0 : syncnet D.
Variable connectivity_radius : D.

Definition pair_distance (i j : Z) : D :=
  euclidean_distance_sqrt (location s0 i) (location s0 j).

Definition same_members (s : syncnet D) : Prop :=
  oscillators s = oscillators s0 /\ weight s = weight s0
  /\ oscillator_locations s = oscillator_locations s0.

Definition all_pairs (i j : Z) : Prop := 0 <= i < j /\ j < num_osc (base s0).

(** The connections owed to the visited pairs [P]. *)
Definition radius_edges (P : Z -> Z -> Prop) (E : gset (Z * Z)) : Prop :=
  forall a b, (a, b) ∈ E <->
    exists i j, P i j
                /\ d_leb (pair_distance i j)
                         (d_mul connectivity_radius connectivity_radius) = true
                /\ ((a = i /\ b = j) \/ (a = j /\ b = i)).

(** A weight matrix whose entries of the pairs in [P] hold [visited] of
    the pair's distance and the others [pending] of it. *)
Definition weights_of_pairs (P : Z -> Z -> Prop) (visited pending : D -> D)
    (w : list (list D)) : Prop :=
  square_matrix (Z.to_nat (num_osc (base s0))) w
  /\ (forall i j, 0 <= i < j /\ j < num_osc (base s0) ->
        (P i j -> matrix_get w i j = visited (pair_distance i j)
                  /\ matrix_get w j i = visited (pair_distance i j))
        /\ (~ P i j -> matrix_get w i j = pending (pair_distance i j)
                       /\ matrix_get w j i = pending (pair_distance i j)))
  /\ (forall i, 0 <= i -> matrix_get w i i = d_zero).

(** The invariant of the first pair of loops. *)
Definition visited_pairs (enable_conn_weight : bool) (P : Z -> Z -> Prop)
    (st : syncnet D * D) : Prop :=
  same_members (fst st)
  /\ (exists E, base (fst st) = add_edges (base s0) E /\ radius_edges P E)
  /\ (if enable_conn_weight
      then exists w, distance_conn_weights (fst st) = Some w
                     /\ weights_of_pairs P (fun d => d) (fun _ => d_zero) w
      else distance_conn_weights (fst st) = None).

(** The invariant of the normalizing loops. *)
Definition normalized_pairs (norm : D -> D) (E : gset (Z * Z)) (P : Z -> Z -> Prop)
    (s : syncnet D) : Prop :=
  same_members s /\ base s = add_edges (base s0) E
  /\ exists w, distance_conn_weights s = Some w
               /\ weights_of_pairs P norm (fun d => d) w.

(** ** The Kuramoto phase law *)

Variable d_sin : D -> D.

(** The term oscillator [k] adds to the sum of oscillator [index]. *)
Definition kuramoto_term (s : syncnet D) (teta : D) (index k : Z) : D :=
  match distance_conn_weights s with
  | Some _ => d_mul (weight_at s index k) (d_sin (d_sub (phase_at s k) teta))
  | None => d_sin (d_sub (phase_at s k) teta)
  end.

(** The divisor: the number of neighbours, or 1 when there is none. *)
Definition neighbour_divisor (s : syncnet D) (index : Z) : Z :=
  let num_neighbors := Z.of_nat (length (get_neighbors (base s) index)) in
  if num_neighbors =? 0 then 1 else num_neighbors.

End BuilderVocabulary.

Definition Rsum (l : list R) : R := foldr Rplus 0%R l.

(** The weight of the connection [i] - [k]: the stored weight when the
    matrix is present, 1 when it is absent. *)
Definition edge_weight (s : syncnet R) (i k : Z) : R :=
  match distance_conn_weights s with
  | Some w => matrix_get w i k
  | None => 1%R
  end.

(** ** Topologies, neighbour lists and the weights *)

(** The enumerators the switch of [create_structure] has a case for. *)
Definition known_topology (ct : conn_type) : Prop :=
  ct = NONE \/ ct = ALL_TO_ALL \/ ct = GRID_FOUR \/ ct = GRID_EIGHT \/ ct = LIST_BIDIR.

(** Strictly ascending lists of indices. *)
Definition ascending (l : list Z) : Prop := StronglySorted Z.lt l.

(** The neighbours of node [i] in the eight-neighbour grid of side [k], in
    ascending order. *)
Definition grid_eight_neighbours (k i : Z) : list Z :=
  let up := 0 <? row_of k i in
  let down := row_of k i <? k - 1 in
  let left := 0 <? col_of k i in
  let right := col_of k i <? k - 1 in
  (if up && left then [i - k - 1] else [])
  ++ (if up then [i - k] else [])
  ++ (if up && right then [i - k + 1] else [])
  ++ (if left then [i - 1] else [])
  ++ (if right then [i + 1] else [])
  ++ (if down && left then [i + k - 1] else [])
  ++ (if down then [i + k] else [])
  ++ (if down && right then [i + k + 1] else []).

(** The object [syncnet::syncnet] hands to [create_connections]. *)
Definition initial_syncnet {D : Type} `{DoubleOps D} (maximum_matrix : Z)
    (input_data : list (list D)) (drawn_phases : list D) : syncnet D :=
  {| base := allocated maximum_matrix (to_unsigned (Z.of_nat (length input_data)));
     oscillators := mk_oscillator <$> drawn_phases;
     weight := d_one;
     oscillator_locations := input_data;
     distance_conn_weights := None |}.

Section RunningBound.

Context {D : Type} `{DoubleOps D}.
Variable s0 : syncnet D.

(** The values the running bound [maximum_distance] is compared with: the
    distances of the pairs the loops visit. *)
Definition visited_distance (d : D) : Prop :=
  exists i j, (0 <= i < j /\ j < num_osc (base s0)) /\ d = pair_distance s0 i j.

(** [<] orders the distances, and zero with them: no distance is below
    itself, and of two values one is below the other unless they are the
    same.  (In binary64 a NaN is below nothing and nothing is below it.) *)
Definition distances_ordered : Prop :=
  forall x y, x = d_zero \/ visited_distance x -> visited_distance y ->
    d_ltb y y = false /\ (d_ltb x y = true \/ d_ltb y x = true \/ x = y).

(** What [maximum_distance] holds once the pairs [P] are visited: zero
    before the first pair, then the distance of the pair visited last. *)
Definition bound_after_pairs (P : Z -> Z -> Prop) (maximum_distance : D) : Prop :=
  (maximum_distance = d_zero \/ visited_distance maximum_distance)
  /\ ((forall i j, ~ P i j) -> maximum_distance = d_zero)
  /\ (forall i j, P i j -> (forall a b, P a b -> a < i \/ (a = i /\ b <= j)) ->
        maximum_distance = pair_distance s0 i j).

(** The distance of the pair the loops visit last. *)
Definition last_pair_distance : D :=
  let n := num_osc (base s0) in
  if 2 <=? n then pair_distance s0 (n - 2) (n - 1) else d_zero.

End RunningBound.

(** [<=] on the reals is decided (classically), as the filters need it. *)
#[local] Instance Rle_decision (x y : R) : Decision (x <= y)%R := Rle_dec x y.

(** Three oscillators, the first connected to the two others. *)
Definition three_oscillators (phases : list R) (weights : option (list (list R)))
  : syncnet R :=
  {| base := {| num_osc := 3;
                conn_representation := MATRIX_CONN_REPRESENTATION;
                row_elements := 3;
                osc_conn := {[ (0, 1) ]} ∪ {[ (0, 2) ]} |};
     oscillators := mk_oscillator <$> phases;
     weight := 1%R;
     oscillator_locations := [[0%R]; [1%R]; [3%R]];
     distance_conn_weights := weights |}.

(** ** Values of binary64 *)

(** A binary64 that is a number: a zero or a finite value, no infinity and
    no NaN. *)
Definition binary64_finite (x : float) : Prop :=
  match Prim2SF x with
  | S754_zero _ | S754_finite _ _ _ => True
  | S754_infinity _ | S754_nan => False
  end.

(** The real number a finite binary64 stands for: sign, mantissa and
    exponent of two. *)
Definition binary64_value (x : float) : R :=
  match Prim2SF x with
  | S754_finite sign mantissa exponent =>
      (IZR (cond_Zopp sign (Z.pos mantissa)) * powerRZ 2 exponent)%R
  | _ => 0%R
  end.

(** * Properties *)

(** ** Machine integers *)

Ltac machine_ints :=
  unfold to_unsigned, to_int, UINT_MODULUS, INT_MAX in *;
  change (2 ^ 32) with 4294967296 in *;
  change (2 ^ 31) with 2147483648 in *;
  change (2 ^ 16) with 65536 in *.

Ltac pow_numerals :=
  unfold INT_MAX in *;
  change (2 ^ 32) with 4294967296 in *;
  change (2 ^ 31) with 2147483648 in *;
  change (2 ^ 16) with 65536 in *.

Ltac int_lia := machine_ints; Z.div_mod_to_equations; lia.

Lemma to_unsigned_small (x : Z) : 0 <= x < 2 ^ 32 -> to_unsigned x = x.
Proof. intros Hx. int_lia. Qed.

Lemma to_unsigned_range (x : Z) : 0 <= to_unsigned x < 2 ^ 32.
Proof. int_lia. Qed.

Lemma to_unsigned_negative (x : Z) : - 2 ^ 32 <= x < 0 -> to_unsigned x = x + 2 ^ 32.
Proof. intros Hx. int_lia. Qed.

Lemma to_unsigned_to_int (x : Z) : to_unsigned (to_int x) = to_unsigned x.
Proof.
  machine_ints.
  destruct (Z.leb_spec (x mod 4294967296) (2147483648 - 1)); Z.div_mod_to_equations; lia.
Qed.

Lemma to_int_nonneg_iff (x : Z) :
  0 <= x < 2 ^ 32 -> (0 <= to_int x <-> x <= INT_MAX).
Proof.
  intros Hx. machine_ints.
  destruct (Z.leb_spec (x mod 4294967296) (2147483648 - 1)); Z.div_mod_to_equations; lia.
Qed.

Lemma to_int_of_negative (x : Z) : - 2 ^ 31 <= x < 0 -> to_int x < 0.
Proof.
  intros Hx. machine_ints.
  destruct (Z.leb_spec (x mod 4294967296) (2147483648 - 1)); Z.div_mod_to_equations; lia.
Qed.

(** The row test of the grid builders, as a pair of bounds. *)
Lemma div_eq_iff (x k q : Z) : 0 < k -> (x / k = q <-> q * k <= x < (q + 1) * k).
Proof.
  intros Hk. split.
  - intros <-. pose proof (Z.mul_div_le x k Hk). pose proof (Z.mul_succ_div_gt x k Hk). lia.
  - intros Hq. symmetry. apply (Z.div_unique x k q (x - q * k)); lia.
Qed.

Lemma sqrt_side (k : Z) : 0 <= k -> Z.sqrt (k * k) = k.
Proof. intros Hk. apply Z.sqrt_square. exact Hk. Qed.

Lemma perfect_square_iff (n : Z) :
  0 <= n -> (sqrt_has_fraction n = false <-> exists k, n = k * k).
Proof.
  intros Hn. unfold sqrt_has_fraction. rewrite negb_false_iff, Z.eqb_eq. split.
  - intros Hs. exists (Z.sqrt n). lia.
  - intros [k ->]. replace (k * k) with (Z.abs k * Z.abs k) by lia.
    rewrite sqrt_side by lia. reflexivity.
Qed.

(** ** The square root of the grid builders *)

Lemma conv_side_size_bounds (n : Z) :
  0 <= n -> (IZR (Z.sqrt n) <= conv_side_size n < IZR (Z.sqrt n + 1))%R.
Proof.
  intros Hn. unfold conv_side_size.
  pose proof (Z.sqrt_spec n Hn) as Hs. cbv zeta in Hs.
  pose proof (Z.sqrt_nonneg n) as Hs0.
  set (r := Z.sqrt n) in *.
  assert (sqrt (IZR (r * r)) = IZR r) as Hlow.
  { rewrite mult_IZR. apply sqrt_square. apply IZR_le. lia. }
  assert (sqrt (IZR ((r + 1) * (r + 1))) = IZR (r + 1)) as Hhigh.
  { rewrite mult_IZR. apply sqrt_square. apply IZR_le. lia. }
  split.
  - rewrite <- Hlow. apply sqrt_le_1_alt. apply IZR_le. lia.
  - rewrite <- Hhigh. apply sqrt_lt_1_alt. split; [apply IZR_le; lia | apply IZR_lt; lia].
Qed.

(** [(unsigned int) conv_side_size], the floor of a root that is not
    negative, is the integer square root. *)
Lemma sqrt_truncated_exact (n : Z) :
  0 <= n -> Int_part (conv_side_size n) = sqrt_truncated n.
Proof.
  intros Hn. symmetry. apply Int_part_spec.
  pose proof (conv_side_size_bounds n Hn) as [Hlo Hhi]. rewrite plus_IZR in Hhi.
  unfold sqrt_truncated. lra.
Qed.

(** [conv_side_size - std::floor(conv_side_size) > 0] holds exactly when
    [sqrt_has_fraction] says so. *)
Lemma sqrt_has_fraction_exact (n : Z) :
  0 <= n ->
  (conv_side_size n - IZR (Int_part (conv_side_size n)) > 0)%R
  <-> sqrt_has_fraction n = true.
Proof.
  intros Hn. rewrite sqrt_truncated_exact by exact Hn. unfold sqrt_truncated.
  pose proof (conv_side_size_bounds n Hn) as [Hlo Hhi].
  pose proof (Z.sqrt_spec n Hn) as Hs. cbv zeta in Hs.
  unfold sqrt_has_fraction. rewrite negb_true_iff, Z.eqb_neq.
  unfold conv_side_size in *. split.
  - intros Hfrac Heq. rewrite <- Heq in Hfrac at 1.
    rewrite mult_IZR, sqrt_square in Hfrac by (apply IZR_le, Z.sqrt_nonneg). lra.
  - intros Hne. assert (Z.sqrt n * Z.sqrt n < n) as Hlt by lia.
    assert (sqrt (IZR (Z.sqrt n * Z.sqrt n)) < sqrt (IZR n))%R as Hsq.
    { apply sqrt_lt_1_alt. split; [apply IZR_le, Z.square_nonneg | apply IZR_lt; exact Hlt]. }
    rewrite mult_IZR, sqrt_square in Hsq by (apply IZR_le, Z.sqrt_nonneg). lra.
Qed.

(** ** Loops that add edges *)

Lemma add_edges_empty (net : network) : add_edges net ∅ = net.
Proof. destruct net as [n r e c]. unfold add_edges; simpl. f_equal. apply (left_id_L ∅ (∪)). Qed.

Lemma add_edges_add_edges (net : network) (A B : gset (Z * Z)) :
  add_edges (add_edges net A) B = add_edges net (A ∪ B).
Proof.
  unfold add_edges; simpl. f_equal.
  rewrite (comm_L (∪) A B). apply (assoc_L (∪)).
Qed.

Lemma set_connection_ok (net : network) (i j : Z) :
  0 <= i < num_osc net -> 0 <= j < num_osc net ->
  set_connection net i j = Ok (add_edges net {[ (i, j) ]}).
Proof.
  intros Hi Hj. unfold set_connection.
  destruct (Z.leb_spec 0 i); [|lia]. destruct (Z.ltb_spec i (num_osc net)); [|lia].
  destruct (Z.leb_spec 0 j); [|lia]. destruct (Z.ltb_spec j (num_osc net)); [|lia].
  reflexivity.
Qed.

Lemma guarded_set_connection (net : network) (c : bool) (i j : Z) :
  0 <= i < num_osc net -> (c = true -> 0 <= j < num_osc net) ->
  (if c then set_connection net i j else Ok net)
  = Ok (add_edges net (if c then {[ (i, j) ]} else ∅)).
Proof.
  intros Hi Hj. destruct c.
  - apply set_connection_ok; auto.
  - now rewrite add_edges_empty.
Qed.

Lemma for_each_app {S : Type} (l1 l2 : list Z) (body : Z -> S -> result S) (s : S) :
  for_each (l1 ++ l2) body s = do s' <- for_each l1 body s; for_each l2 body s'.
Proof.
  revert s. induction l1 as [|i l1 IH]; intros s; simpl; [reflexivity|].
  destruct (body i s); simpl; [apply IH | reflexivity].
Qed.

Lemma for_each_add_edges (E : Z -> gset (Z * Z)) (body : Z -> network -> result network)
    (l : list Z) (net : network) :
  (forall i net', i ∈ l -> num_osc net' = num_osc net ->
     body i net' = Ok (add_edges net' (E i))) ->
  for_each l body net = Ok (add_edges net (⋃ (E <$> l))).
Proof.
  revert net. induction l as [|i l IH]; intros net Hbody; simpl.
  - now rewrite add_edges_empty.
  - rewrite (Hbody i net) by (try left; reflexivity). simpl.
    rewrite IH.
    + now rewrite add_edges_add_edges.
    + intros j net' Hj Hn. apply Hbody; [now right | exact Hn].
Qed.

Lemma elem_of_edge_union (E : Z -> gset (Z * Z)) (l : list Z) (e : Z * Z) :
  e ∈ ⋃ (E <$> l) <-> exists i, i ∈ l /\ e ∈ E i.
Proof.
  rewrite elem_of_union_list. split.
  - intros (X & HX & He). apply list_elem_of_fmap in HX as (i & -> & Hi). eauto.
  - intros (i & Hi & He). exists (E i). split; [|exact He].
    apply list_elem_of_fmap. eauto.
Qed.

Lemma elem_of_loop_range (first bound i : Z) :
  i ∈ seqZ first (bound - first) <-> first <= i < bound.
Proof. rewrite elem_of_seqZ. lia. Qed.

(** ** What each builder adds *)

Lemma get_connection_edge (net : network) (a b : Z) :
  get_connection net a b = 1 <-> is_edge net a b.
Proof.
  unfold get_connection, is_edge. destruct (bool_decide_reflect ((a, b) ∈ osc_conn net)).
  - tauto.
  - split; [discriminate | contradiction].
Qed.

Lemma get_connection_no_edge (net : network) (a b : Z) :
  get_connection net a b = 0 <-> ~ is_edge net a b.
Proof.
  unfold get_connection, is_edge. destruct (bool_decide_reflect ((a, b) ∈ osc_conn net)).
  - split; [discriminate | contradiction].
  - tauto.
Qed.

Lemma is_edge_add_edges (net : network) (E : gset (Z * Z)) (a b : Z) :
  is_edge (add_edges net E) a b <-> (a, b) ∈ E \/ is_edge net a b.
Proof. unfold is_edge, add_edges; simpl. apply elem_of_union. Qed.

Lemma elem_of_guarded_edge (c : bool) (i j a b : Z) :
  (a, b) ∈ (if c then {[ (i, j) ]} else ∅ : gset (Z * Z)) <-> c = true /\ a = i /\ b = j.
Proof.
  destruct c.
  - rewrite elem_of_singleton. split; [intros [= -> ->]; auto | intros (_ & -> & ->); reflexivity].
  - split; [intros H; exfalso; revert H; apply not_elem_of_empty | intros ([=] & _)].
Qed.

Lemma list_bidir_edges (net : network) :
  0 <= num_osc net < 2 ^ 32 ->
  exists E, create_list_bidir_connections net = Ok (add_edges net E)
    /\ forall a b, (a, b) ∈ E <->
         1 <= a < num_osc net /\ (b = a - 1 \/ (b = a + 1 /\ a + 1 < num_osc net)).
Proof.
  intros Hn. set (n := num_osc net) in *.
  pose (E := fun index : Z =>
    (if 0 <? index then {[ (index, to_unsigned (index - 1)) ]} else ∅)
    ∪ (if index <? to_unsigned (n - 1) then {[ (index, to_unsigned (index + 1)) ]} else ∅)
    : gset (Z * Z)).
  exists (⋃ (E <$> seqZ 1 (n - 1))). split.
  - unfold create_list_bidir_connections, for_loop. fold n.
    apply for_each_add_edges. intros i net' Hi Hn'. fold n in Hn'.
    apply elem_of_loop_range in Hi.
    rewrite guarded_set_connection; cycle 1.
    { rewrite Hn'. lia. }
    { intros _. rewrite Hn'. rewrite to_unsigned_small; lia. }
    simpl. rewrite Hn'. rewrite guarded_set_connection; cycle 1.
    { simpl. lia. }
    { simpl. rewrite Hn'. rewrite Z.ltb_lt.
      rewrite !to_unsigned_small by (pow_numerals; lia). lia. }
    rewrite add_edges_add_edges. reflexivity.
  - intros a b. rewrite elem_of_edge_union. setoid_rewrite elem_of_loop_range.
    unfold E. setoid_rewrite elem_of_union. setoid_rewrite elem_of_guarded_edge.
    setoid_rewrite Z.ltb_lt. split.
    + intros (i & Hi & [(H0 & -> & ->) | (H1 & -> & ->)]).
      * rewrite to_unsigned_small by (pow_numerals; lia). lia.
      * rewrite to_unsigned_small in H1 by (pow_numerals; lia).
        rewrite to_unsigned_small by (pow_numerals; lia). lia.
    + intros (Ha & [-> | (-> & Hlt)]); exists a; (split; [lia|]).
      * left. rewrite to_unsigned_small by (pow_numerals; lia). lia.
      * right. rewrite !to_unsigned_small by (pow_numerals; lia). lia.
Qed.

Lemma all_to_all_edges (net : network) :
  0 <= num_osc net < 2 ^ 32 ->
  exists E, create_all_to_all_connections net = Ok (add_edges net E)
    /\ forall a b, (a, b) ∈ E <-> 0 <= a < num_osc net /\ 0 <= b < num_osc net /\ a <> b.
Proof.
  intros Hn. set (n := num_osc net) in *.
  pose (Ecol := fun row col : Z => {[ (row, col) ]} ∪ {[ (col, row) ]} : gset (Z * Z)).
  pose (Erow := fun row : Z => ⋃ (Ecol row <$> seqZ (to_unsigned (row + 1)) (n - to_unsigned (row + 1)))).
  exists (⋃ (Erow <$> seqZ 0 (n - 0))). split.
  - unfold create_all_to_all_connections, for_loop at 1. fold n.
    apply for_each_add_edges. intros row net' Hrow Hn'. fold n in Hn'.
    apply elem_of_loop_range in Hrow.
    unfold for_loop. rewrite Hn'. apply for_each_add_edges.
    intros col net'' Hcol Hn''. rewrite Hn' in Hn''.
    apply elem_of_loop_range in Hcol.
    rewrite to_unsigned_small in Hcol by (pow_numerals; lia).
    rewrite set_connection_ok by lia. simpl.
    rewrite set_connection_ok by (simpl; lia).
    rewrite add_edges_add_edges. reflexivity.
  - intros a b. rewrite elem_of_edge_union. setoid_rewrite elem_of_loop_range.
    unfold Erow. setoid_rewrite elem_of_edge_union. setoid_rewrite elem_of_loop_range.
    unfold Ecol. setoid_rewrite elem_of_union. setoid_rewrite elem_of_singleton. split.
    + intros (row & Hrow & col & Hcol & Hab).
      rewrite to_unsigned_small in Hcol by (pow_numerals; lia).
      destruct Hab as [[= -> ->] | [= -> ->]]; lia.
    + intros (Ha & Hb & Hab). destruct (Z.lt_total a b) as [Hlt | [Heq | Hgt]]; [|lia|].
      * exists a. split; [lia|]. exists b.
        rewrite to_unsigned_small by (pow_numerals; lia). split; [lia|]. now left.
      * exists b. split; [lia|]. exists a.
        rewrite to_unsigned_small by (pow_numerals; lia). split; [lia|]. now right.
Qed.

(** The [int]-typed neighbour indices of [create_grid_four_connections]. *)
Lemma backward_index_test (index d : Z) :
  0 <= index < 2 ^ 32 -> 0 < d < 2 ^ 16 ->
  (0 <=? to_int (index - d)) = true <-> d <= index /\ index - d <= INT_MAX.
Proof.
  intros Hi Hd. rewrite Z.leb_le. destruct (Z.le_gt_cases d index) as [Hle | Hgt].
  - rewrite to_int_nonneg_iff by (pow_numerals; lia). tauto.
  - split; [|lia]. intros Hnonneg.
    assert (- 2 ^ 31 <= index - d < 0) as Hrange by (pow_numerals; lia).
    pose proof (to_int_of_negative (index - d) Hrange) as Hneg. lia.
Qed.

Lemma backward_index_value (index d : Z) :
  0 <= index < 2 ^ 32 -> d <= index -> 0 < d ->
  to_unsigned (to_int (index - d)) = index - d.
Proof.
  intros Hi Hd Hpos. rewrite to_unsigned_to_int. apply to_unsigned_small. lia.
Qed.

Lemma forward_index_value (index d : Z) :
  0 <= index -> 0 <= d -> index + d < 2 ^ 32 ->
  to_unsigned (to_int (index + d)) = index + d.
Proof.
  intros Hi Hd Hsum. rewrite to_unsigned_to_int. apply to_unsigned_small. lia.
Qed.

Lemma square_bound (k : Z) : 0 <= k < 2 ^ 16 -> k * k + k < 2 ^ 32.
Proof.
  intros Hk. pow_numerals.
  assert (k * k <= 65535 * 65535) by (apply Z.mul_le_mono_nonneg; lia). lia.
Qed.

Lemma side_positive (k index : Z) : 0 <= k -> 0 <= index < k * k -> 0 < k.
Proof. intros Hk Hi. destruct (Z.eq_dec k 0) as [-> | Hne]; lia. Qed.

Lemma grid_four_edges (net : network) (k : Z) :
  0 <= k < 2 ^ 16 -> num_osc net = k * k ->
  exists E, create_grid_four_connections net = Ok (add_edges net E)
    /\ forall a b, (a, b) ∈ E <-> 0 <= a < k * k /\ grid_four_step k a b.
Proof.
  unfold grid_four_step. intros Hk Hn. pose proof (square_bound k Hk) as Hsq.
  pose (E := fun index : Z =>
    (if 0 <=? to_int (index - k)
     then {[ (index, to_unsigned (to_int (index - k))) ]} else ∅)
    ∪ ((if to_unsigned (to_int (index + k)) <? k * k
        then {[ (index, to_unsigned (to_int (index + k))) ]} else ∅)
       ∪ ((if (0 <=? to_int (index - 1))
              && (std_ceil (to_unsigned (to_int (index - 1)) / k) =? std_ceil (index / k))
           then {[ (index, to_unsigned (to_int (index - 1))) ]} else ∅)
          ∪ (if (to_unsigned (to_int (index + 1)) <? k * k)
                && (std_ceil (to_unsigned (to_int (index + 1)) / k) =? std_ceil (index / k))
             then {[ (index, to_unsigned (to_int (index + 1))) ]} else ∅)))
    : gset (Z * Z)).
  assert (sqrt_has_fraction (k * k) = false) as Hfrac.
  { apply perfect_square_iff; [apply Z.square_nonneg | now exists k]. }
  exists (⋃ (E <$> seqZ 0 (k * k - 0))). split.
  - unfold create_grid_four_connections. rewrite Hn, Hfrac.
    unfold sqrt_truncated. rewrite sqrt_side by lia.
    unfold for_loop. apply for_each_add_edges.
    intros i net' Hi Hn'. rewrite Hn in Hn'. apply elem_of_loop_range in Hi.
    assert (0 < k) as Hkpos by (apply (side_positive k i); lia).
    rewrite guarded_set_connection; cycle 1.
    { lia. }
    { intros Hc. apply backward_index_test in Hc as [Hc _]; [| pow_numerals; lia ..].
      rewrite backward_index_value by (pow_numerals; lia). lia. }
    simpl. rewrite Hn'. rewrite guarded_set_connection; cycle 1.
    { simpl. lia. }
    { simpl. rewrite Z.ltb_lt. pose proof (to_unsigned_range (to_int (i + k))). lia. }
    simpl. rewrite guarded_set_connection; cycle 1.
    { simpl. lia. }
    { simpl. rewrite andb_true_iff. intros [Hc _].
      apply (backward_index_test i 1) in Hc as [Hc _]; [| pow_numerals; lia ..].
      rewrite backward_index_value by (pow_numerals; lia). lia. }
    simpl. rewrite guarded_set_connection; cycle 1.
    { simpl. lia. }
    { simpl. rewrite andb_true_iff, Z.ltb_lt. intros [Hc _].
      pose proof (to_unsigned_range (to_int (i + 1))). lia. }
    rewrite !add_edges_add_edges, Hn'. reflexivity.
  - intros a b. rewrite elem_of_edge_union. setoid_rewrite elem_of_loop_range.
    unfold E. setoid_rewrite elem_of_union. setoid_rewrite elem_of_union.
    setoid_rewrite elem_of_union. setoid_rewrite elem_of_guarded_edge.
    unfold std_ceil. split.
    + intros (i & Hi & Hcases). assert (0 < k) as Hkpos by (apply (side_positive k i); lia).
      destruct Hcases as [(Hc & -> & ->) | [(Hc & -> & ->) | [(Hc & -> & ->) | (Hc & -> & ->)]]].
      * apply backward_index_test in Hc; [| pow_numerals; lia ..].
        rewrite backward_index_value by (pow_numerals; lia). split; [lia|]. left. lia.
      * rewrite forward_index_value in * by (pow_numerals; lia).
        rewrite Z.ltb_lt in Hc. split; [lia|]. right; left. lia.
      * apply andb_true_iff in Hc as [Hc Hrow].
        apply (backward_index_test i 1) in Hc; [| pow_numerals; lia ..].
        rewrite backward_index_value in * by (pow_numerals; lia).
        rewrite Z.eqb_eq in Hrow. split; [lia|]. right; right; left. lia.
      * apply andb_true_iff in Hc as [Hc Hrow].
        rewrite forward_index_value in * by (pow_numerals; lia).
        rewrite Z.ltb_lt in Hc. rewrite Z.eqb_eq in Hrow.
        split; [lia|]. right; right; right. lia.
    + intros (Ha & Hcases). assert (0 < k) as Hkpos by (apply (side_positive k a); lia).
      exists a. split; [lia|].
      destruct Hcases as [(-> & H1 & H2) | [(-> & H1) | [(-> & H1 & H2 & H3) | (-> & H1 & H2)]]].
      * left. rewrite backward_index_value by (pow_numerals; lia).
        split; [|auto]. apply backward_index_test; [pow_numerals; lia ..|]. lia.
      * right; left. rewrite forward_index_value by (pow_numerals; lia).
        split; [|auto]. apply Z.ltb_lt. lia.
      * right; right; left. rewrite backward_index_value by (pow_numerals; lia).
        split; [|auto]. apply andb_true_iff. split.
        -- apply (backward_index_test a 1); [pow_numerals; lia ..|]. lia.
        -- apply Z.eqb_eq. exact H3.
      * right; right; right. rewrite forward_index_value by (pow_numerals; lia).
        split; [|auto]. apply andb_true_iff. split.
        -- apply Z.ltb_lt. lia.
        -- apply Z.eqb_eq. exact H2.
Qed.

(** The diagonal tests of [create_grid_eight_connections], all in
    [unsigned int] arithmetic: a wrapped index never passes the row test. *)
Section DiagonalTests.

Variables k a : Z.
Hypothesis Hk : 0 < k < 2 ^ 16.
Hypothesis Ha : 0 <= a < k * k.

Lemma row_bounds : 0 <= a / k < k /\ (a / k) * k <= a < (a / k + 1) * k.
Proof.
  split.
  - split; [apply Z.div_pos; lia | apply Z.div_lt_upper_bound; lia].
  - apply div_eq_iff; [lia | reflexivity].
Qed.

Lemma index_below_modulus : k * k + k < 2 ^ 32.
Proof. apply square_bound. lia. Qed.

Lemma upper_left_test :
  ((0 <=? to_unsigned (a - k - 1))
   && (std_floor (to_unsigned (a - k - 1) / k) =? to_unsigned (std_floor (a / k) - 1)) = true
   <-> k + 1 <= a /\ (a - k - 1) / k = a / k - 1)
  /\ (k + 1 <= a -> to_unsigned (a - k - 1) = a - k - 1).
Proof.
  pose proof row_bounds as [Hr Hrk]. pose proof index_below_modulus as Hsq.
  unfold std_floor. split.
  - rewrite andb_true_iff, Z.leb_le, Z.eqb_eq, !div_eq_iff by lia.
    remember (a / k) as r eqn:Er. clear Er.
    destruct (Z.lt_ge_cases (a - k - 1) 0) as [Hneg | Hpos].
    + rewrite (to_unsigned_negative (a - k - 1)) by (pow_numerals; lia).
      destruct (Z.eq_dec r 0) as [-> | Hr0].
      * rewrite (to_unsigned_negative (0 - 1)) by (pow_numerals; lia). pow_numerals. lia.
      * pose proof (Z.mul_le_mono_nonneg_r 1 r k ltac:(lia) ltac:(lia)) as Hrow.
        rewrite (to_unsigned_small (r - 1)) by (pow_numerals; lia). pow_numerals. lia.
    + rewrite (to_unsigned_small (a - k - 1)) by (pow_numerals; lia).
      destruct (Z.eq_dec r 0) as [-> | Hr0].
      * pow_numerals. lia.
      * pose proof (Z.mul_le_mono_nonneg_r 1 r k ltac:(lia) ltac:(lia)) as Hrow.
        rewrite (to_unsigned_small (r - 1)) by (pow_numerals; lia). pow_numerals. lia.
  - intros Hge. apply to_unsigned_small. pow_numerals. lia.
Qed.

Lemma upper_right_test :
  ((0 <=? to_unsigned (a - k + 1))
   && (std_floor (to_unsigned (a - k + 1) / k) =? to_unsigned (std_floor (a / k) - 1)) = true
   <-> k <= a /\ (a - k + 1) / k = a / k - 1)
  /\ (k <= a -> to_unsigned (a - k + 1) = a - k + 1).
Proof.
  pose proof row_bounds as [Hr Hrk]. pose proof index_below_modulus as Hsq.
  unfold std_floor. split.
  - rewrite andb_true_iff, Z.leb_le, Z.eqb_eq, !div_eq_iff by lia.
    remember (a / k) as r eqn:Er. clear Er.
    destruct (Z.lt_ge_cases (a - k + 1) 0) as [Hneg | Hpos].
    + rewrite (to_unsigned_negative (a - k + 1)) by (pow_numerals; lia).
      destruct (Z.eq_dec r 0) as [-> | Hr0].
      * rewrite (to_unsigned_negative (0 - 1)) by (pow_numerals; lia). pow_numerals. lia.
      * pose proof (Z.mul_le_mono_nonneg_r 1 r k ltac:(lia) ltac:(lia)) as Hrow.
        rewrite (to_unsigned_small (r - 1)) by (pow_numerals; lia). pow_numerals. lia.
    + rewrite (to_unsigned_small (a - k + 1)) by (pow_numerals; lia).
      destruct (Z.eq_dec r 0) as [-> | Hr0].
      * rewrite (to_unsigned_negative (0 - 1)) by (pow_numerals; lia). pow_numerals. lia.
      * pose proof (Z.mul_le_mono_nonneg_r 1 r k ltac:(lia) ltac:(lia)) as Hrow.
        rewrite (to_unsigned_small (r - 1)) by (pow_numerals; lia). pow_numerals. lia.
  - intros Hge. apply to_unsigned_small. pow_numerals. lia.
Qed.

Lemma lower_left_test :
  ((to_unsigned (a + k - 1) <? k * k)
   && (std_floor (to_unsigned (a + k - 1) / k) =? to_unsigned (std_floor (a / k) + 1)) = true
   <-> a + k - 1 < k * k /\ (a + k - 1) / k = a / k + 1)
  /\ to_unsigned (a + k - 1) = a + k - 1.
Proof.
  pose proof row_bounds as [Hr Hrk]. pose proof index_below_modulus as Hsq.
  unfold std_floor.
  rewrite (to_unsigned_small (a + k - 1)) by (pow_numerals; lia).
  rewrite (to_unsigned_small (a / k + 1)) by (pow_numerals; lia).
  split; [|reflexivity].
  rewrite andb_true_iff, Z.ltb_lt, Z.eqb_eq. tauto.
Qed.

Lemma lower_right_test :
  ((to_unsigned (a + k + 1) <? k * k)
   && (std_floor (to_unsigned (a + k + 1) / k) =? to_unsigned (std_floor (a / k) + 1)) = true
   <-> a + k + 1 < k * k /\ (a + k + 1) / k = a / k + 1)
  /\ to_unsigned (a + k + 1) = a + k + 1.
Proof.
  pose proof row_bounds as [Hr Hrk]. pose proof index_below_modulus as Hsq.
  unfold std_floor.
  rewrite (to_unsigned_small (a + k + 1)) by (pow_numerals; lia).
  rewrite (to_unsigned_small (a / k + 1)) by (pow_numerals; lia).
  split; [|reflexivity].
  rewrite andb_true_iff, Z.ltb_lt, Z.eqb_eq. tauto.
Qed.

End DiagonalTests.

Lemma grid_eight_edges (net : network) (k : Z) :
  0 <= k < 2 ^ 16 -> num_osc net = k * k ->
  exists E4 Ed,
    create_grid_four_connections net = Ok (add_edges net E4)
    /\ create_grid_eight_connections net = Ok (add_edges net (E4 ∪ Ed))
    /\ (forall a b, (a, b) ∈ E4 <-> 0 <= a < k * k /\ grid_four_step k a b)
    /\ (forall a b, (a, b) ∈ Ed <-> 0 <= a < k * k /\ grid_diagonal_step k a b).
Proof.
  intros Hk Hn. destruct (grid_four_edges net k Hk Hn) as (E4 & Hfour & HE4).
  pose (E := fun index : Z =>
    (if (0 <=? to_unsigned (index - k - 1))
        && (std_floor (to_unsigned (index - k - 1) / k)
            =? to_unsigned (std_floor (index / k) - 1))
     then {[ (index, to_unsigned (index - k - 1)) ]} else ∅)
    ∪ ((if (0 <=? to_unsigned (index - k + 1))
           && (std_floor (to_unsigned (index - k + 1) / k)
               =? to_unsigned (std_floor (index / k) - 1))
        then {[ (index, to_unsigned (index - k + 1)) ]} else ∅)
       ∪ ((if (to_unsigned (index + k - 1) <? k * k)
              && (std_floor (to_unsigned (index + k - 1) / k)
                  =? to_unsigned (std_floor (index / k) + 1))
           then {[ (index, to_unsigned (index + k - 1)) ]} else ∅)
          ∪ (if (to_unsigned (index + k + 1) <? k * k)
                && (std_floor (to_unsigned (index + k + 1) / k)
                    =? to_unsigned (std_floor (index / k) + 1))
             then {[ (index, to_unsigned (index + k + 1)) ]} else ∅)))
    : gset (Z * Z)).
  exists E4, (⋃ (E <$> seqZ 0 (k * k - 0))). split; [exact Hfour|]. split; [|split; [exact HE4|]].
  - unfold create_grid_eight_connections. rewrite Hfour. cbn [bind num_osc add_edges]. rewrite Hn.
    unfold sqrt_truncated. rewrite sqrt_side by lia.
    unfold for_loop. rewrite (for_each_add_edges E).
    + now rewrite add_edges_add_edges.
    + intros i net' Hi Hn'. cbn [bind num_osc add_edges] in Hn'. rewrite Hn in Hn'. apply elem_of_loop_range in Hi.
      assert (0 < k < 2 ^ 16) as Hkpos by (split; [apply (side_positive k i); lia | lia]).
      assert (0 <= i < k * k) as Hi' by lia.
      rewrite guarded_set_connection; cycle 1.
      { lia. }
      { intros Hc. apply (proj1 (upper_left_test k i Hkpos Hi')) in Hc as [Hc _].
        rewrite (proj2 (upper_left_test k i Hkpos Hi')) by exact Hc. lia. }
      cbn [bind num_osc add_edges]. rewrite ?Hn'. rewrite guarded_set_connection; cycle 1.
      { cbn [bind num_osc add_edges]. lia. }
      { cbn [bind num_osc add_edges]. intros Hc.
        apply (proj1 (upper_right_test k i Hkpos Hi')) in Hc as [Hc _].
        rewrite (proj2 (upper_right_test k i Hkpos Hi')) by exact Hc. lia. }
      cbn [bind num_osc add_edges]. rewrite ?Hn'. rewrite guarded_set_connection; cycle 1.
      { cbn [bind num_osc add_edges]. lia. }
      { cbn [bind num_osc add_edges]. intros Hc.
        apply (proj1 (lower_left_test k i Hkpos Hi')) in Hc as [Hc _].
        rewrite (proj2 (lower_left_test k i Hkpos Hi')). lia. }
      cbn [bind num_osc add_edges]. rewrite ?Hn'. rewrite guarded_set_connection; cycle 1.
      { cbn [bind num_osc add_edges]. lia. }
      { cbn [bind num_osc add_edges]. intros Hc.
        apply (proj1 (lower_right_test k i Hkpos Hi')) in Hc as [Hc _].
        rewrite (proj2 (lower_right_test k i Hkpos Hi')). lia. }
      rewrite !add_edges_add_edges. reflexivity.
  - intros a b. rewrite elem_of_edge_union. setoid_rewrite elem_of_loop_range.
    unfold E, grid_diagonal_step. setoid_rewrite elem_of_union. setoid_rewrite elem_of_union.
    setoid_rewrite elem_of_union. setoid_rewrite elem_of_guarded_edge. split.
    + intros (i & Hi & Hcases).
      assert (0 < k < 2 ^ 16) as Hkpos by (split; [apply (side_positive k i); lia | lia]).
      assert (0 <= i < k * k) as Hi' by lia.
      destruct Hcases as [(Hc & -> & ->) | [(Hc & -> & ->) | [(Hc & -> & ->) | (Hc & -> & ->)]]];
        (split; [lia|]).
      * apply (proj1 (upper_left_test k i Hkpos Hi')) in Hc.
        rewrite (proj2 (upper_left_test k i Hkpos Hi')) by tauto. left. tauto.
      * apply (proj1 (upper_right_test k i Hkpos Hi')) in Hc.
        rewrite (proj2 (upper_right_test k i Hkpos Hi')) by tauto. right; left. tauto.
      * apply (proj1 (lower_left_test k i Hkpos Hi')) in Hc.
        rewrite (proj2 (lower_left_test k i Hkpos Hi')). right; right; left. tauto.
      * apply (proj1 (lower_right_test k i Hkpos Hi')) in Hc.
        rewrite (proj2 (lower_right_test k i Hkpos Hi')). right; right; right. tauto.
    + intros (Ha & Hcases).
      assert (0 < k < 2 ^ 16) as Hkpos by (split; [apply (side_positive k a); lia | lia]).
      exists a. split; [lia|].
      destruct Hcases as [(-> & H1) | [(-> & H1) | [(-> & H1) | (-> & H1)]]].
      * left. split; [apply (proj1 (upper_left_test k a Hkpos Ha)); tauto |].
        rewrite (proj2 (upper_left_test k a Hkpos Ha)) by tauto. auto.
      * right; left. split; [apply (proj1 (upper_right_test k a Hkpos Ha)); tauto |].
        rewrite (proj2 (upper_right_test k a Hkpos Ha)) by tauto. auto.
      * right; right; left. split; [apply (proj1 (lower_left_test k a Hkpos Ha)); tauto |].
        rewrite (proj2 (lower_left_test k a Hkpos Ha)). auto.
      * right; right; right. split; [apply (proj1 (lower_right_test k a Hkpos Ha)); tauto |].
        rewrite (proj2 (lower_right_test k a Hkpos Ha)). auto.
Qed.

(** ** The grid in coordinates *)

Lemma coordinates (k a : Z) :
  0 < k -> 0 <= a < k * k ->
  a = k * row_of k a + col_of k a /\ 0 <= row_of k a < k /\ 0 <= col_of k a < k.
Proof.
  intros Hk Ha. unfold row_of, col_of. split; [apply Z.div_mod; lia|]. split.
  - split; [apply Z.div_pos; lia | apply Z.div_lt_upper_bound; lia].
  - apply Z.mod_pos_bound. lia.
Qed.

Lemma coordinates_unique (k r c : Z) :
  0 < k -> 0 <= c < k -> row_of k (k * r + c) = r /\ col_of k (k * r + c) = c.
Proof.
  intros Hk Hc. unfold row_of, col_of.
  assert ((k * r + c) / k = r) as Hr by (apply div_eq_iff; lia).
  split; [exact Hr|]. rewrite Z.mod_eq by lia. rewrite Hr. lia.
Qed.

Lemma grid_four_step_orthogonal (k a b : Z) :
  0 < k -> 0 <= a < k * k -> k * k <= 2 ^ 31 ->
  grid_four_step k a b <-> 0 <= b < k * k /\ orthogonal k a b.
Proof.
  intros Hk Ha Hint. unfold grid_four_step, orthogonal.
  destruct (coordinates k a Hk Ha) as (Ea & Hra & Hca).
  fold (row_of k a). split.
  - intros Hstep.
    assert (0 <= b < k * k) as Hb.
    { destruct Hstep as [H | [H | [H | H]]]; pow_numerals; lia. }
    split; [exact Hb|]. destruct (coordinates k b Hk Hb) as (Eb & Hrb & Hcb).
    destruct Hstep as [(Hv & H1 & H2) | [(Hv & H1) | [(Hv & H1 & H2 & H3) | (Hv & H1 & H3)]]].
    + right. assert (b = k * (row_of k a - 1) + col_of k a) as Hb' by lia.
      destruct (coordinates_unique k (row_of k a - 1) (col_of k a) Hk Hca) as [Hr' Hc'].
      rewrite <- Hb' in Hr', Hc'. lia.
    + right. assert (b = k * (row_of k a + 1) + col_of k a) as Hb' by lia.
      destruct (coordinates_unique k (row_of k a + 1) (col_of k a) Hk Hca) as [Hr' Hc'].
      rewrite <- Hb' in Hr', Hc'. lia.
    + left. rewrite <- Hv in H3. fold (row_of k b) in H3. lia.
    + left. rewrite <- Hv in H3. fold (row_of k b) in H3. lia.
  - intros (Hb & Horth). destruct (coordinates k b Hk Hb) as (Eb & Hrb & Hcb).
    destruct Horth as [[Hrow Hcol] | [Hcol Hrow]].
    + destruct (Z.abs_eq_cases (col_of k a - col_of k b) 1) as [Hd | Hd]; [lia | |].
      * right; right; left. assert (b = a - 1) as -> by lia.
        unfold row_of in *. pow_numerals. lia.
      * right; right; right. assert (b = a + 1) as -> by lia.
        unfold row_of in *. pow_numerals. lia.
    + destruct (Z.abs_eq_cases (row_of k a - row_of k b) 1) as [Hd | Hd]; [lia | |].
      * left. assert (row_of k b = row_of k a - 1) as Hrb' by lia.
        rewrite Hrb' in Eb. pow_numerals. lia.
      * right; left. assert (row_of k b = row_of k a + 1) as Hrb' by lia.
        rewrite Hrb' in Eb. pow_numerals. lia.
Qed.

Lemma grid_diagonal_step_diagonal (k a b : Z) :
  0 < k -> 0 <= a < k * k ->
  grid_diagonal_step k a b <-> 0 <= b < k * k /\ diagonal k a b.
Proof.
  intros Hk Ha. unfold grid_diagonal_step, diagonal.
  destruct (coordinates k a Hk Ha) as (Ea & Hra & Hca). split.
  - intros Hstep.
    assert (0 <= b < k * k) as Hb.
    { destruct Hstep as [H | [H | [H | H]]]; lia. }
    split; [exact Hb|]. destruct (coordinates k b Hk Hb) as (Eb & Hrb & Hcb).
    destruct Hstep as [(Hv & H1 & H3) | [(Hv & H1 & H3) | [(Hv & H1 & H3) | (Hv & H1 & H3)]]];
      rewrite <- Hv in H3; fold (row_of k b) in H3; fold (row_of k a) in H3;
      rewrite H3 in Eb; lia.
  - intros (Hb & Hrow & Hcol). destruct (coordinates k b Hk Hb) as (Eb & Hrb & Hcb).
    destruct (Z.abs_eq_cases (row_of k a - row_of k b) 1) as [Hdr | Hdr]; [lia | |];
      destruct (Z.abs_eq_cases (col_of k a - col_of k b) 1) as [Hdc | Hdc]; try lia.
    + left. assert (row_of k b = row_of k a - 1) as Hrb' by lia.
      assert (b = a - k - 1) as Hv by (rewrite Hrb' in Eb; lia).
      split; [exact Hv|]. split; [lia|]. rewrite <- Hv. exact Hrb'.
    + right; left. assert (row_of k b = row_of k a - 1) as Hrb' by lia.
      assert (b = a - k + 1) as Hv by (rewrite Hrb' in Eb; lia).
      split; [exact Hv|]. split; [lia|]. rewrite <- Hv. exact Hrb'.
    + right; right; left. assert (row_of k b = row_of k a + 1) as Hrb' by lia.
      assert (b = a + k - 1) as Hv by (rewrite Hrb' in Eb; lia).
      split; [exact Hv|]. split; [lia|]. rewrite <- Hv. exact Hrb'.
    + right; right; right. assert (row_of k b = row_of k a + 1) as Hrb' by lia.
      assert (b = a + k + 1) as Hv by (rewrite Hrb' in Eb; lia).
      split; [exact Hv|]. split; [lia|]. rewrite <- Hv. exact Hrb'.
Qed.

Lemma orthogonal_not_diagonal (k a b : Z) : orthogonal k a b -> ~ diagonal k a b.
Proof. unfold orthogonal, diagonal. lia. Qed.

Lemma grid_four_step_not_diagonal (k a b : Z) :
  0 < k -> 0 <= a < k * k -> grid_four_step k a b -> ~ grid_diagonal_step k a b.
Proof.
  intros Hk Ha Hfour Hdiag.
  apply grid_diagonal_step_diagonal in Hdiag as (Hb & Hrow & Hcol); [| lia ..].
  destruct (coordinates k a Hk Ha) as (Ea & Hra & Hca).
  destruct (coordinates k b Hk Hb) as (Eb & Hrb & Hcb).
  unfold grid_four_step in Hfour.
  destruct Hfour as [(Hv & _) | [(Hv & _) | [(Hv & _ & _ & H3) | (Hv & _ & H3)]]].
  - assert (b = k * (row_of k a - 1) + col_of k a) as Hb' by lia.
    destruct (coordinates_unique k (row_of k a - 1) (col_of k a) Hk Hca) as [_ Hc'].
    rewrite <- Hb' in Hc'. lia.
  - assert (b = k * (row_of k a + 1) + col_of k a) as Hb' by lia.
    destruct (coordinates_unique k (row_of k a + 1) (col_of k a) Hk Hca) as [_ Hc'].
    rewrite <- Hb' in Hc'. lia.
  - rewrite <- Hv in H3. fold (row_of k b) in H3. fold (row_of k a) in H3. lia.
  - rewrite <- Hv in H3. fold (row_of k b) in H3. fold (row_of k a) in H3. lia.
Qed.

(** ** The constructor *)

Lemma network_new_allocated (maximum_matrix n : Z) (ct : conn_type) :
  network_new maximum_matrix n ct = create_structure (allocated maximum_matrix n) ct.
Proof.
  unfold network_new, allocated. destruct (select_representation maximum_matrix n); reflexivity.
Qed.

Lemma is_edge_allocated (maximum_matrix n : Z) (E : gset (Z * Z)) (a b : Z) :
  is_edge (add_edges (allocated maximum_matrix n) E) a b <-> (a, b) ∈ E.
Proof.
  rewrite is_edge_add_edges. unfold is_edge, allocated; simpl. split; [|auto].
  intros [H | H]; [exact H | exfalso; revert H; apply not_elem_of_empty].
Qed.

Lemma side_of_square (n : Z) :
  0 <= n < 2 ^ 32 -> sqrt_has_fraction n = false ->
  0 <= Z.sqrt n < 2 ^ 16 /\ n = Z.sqrt n * Z.sqrt n.
Proof.
  intros Hn Hfrac. unfold sqrt_has_fraction in Hfrac.
  rewrite negb_false_iff, Z.eqb_eq in Hfrac. split; [|lia].
  split; [apply Z.sqrt_nonneg|].
  apply Z.sqrt_lt_square; pow_numerals; lia.
Qed.

Lemma network_new_grid (maximum_matrix k : Z) :
  0 <= k < 2 ^ 16 ->
  exists g4 g8,
    network_new maximum_matrix (k * k) GRID_FOUR = Ok g4
    /\ network_new maximum_matrix (k * k) GRID_EIGHT = Ok g8
    /\ num_osc g4 = k * k /\ num_osc g8 = k * k
    /\ (forall a b, is_edge g4 a b <-> 0 <= a < k * k /\ grid_four_step k a b)
    /\ (forall a b, is_edge g8 a b <->
          0 <= a < k * k /\ (grid_four_step k a b \/ grid_diagonal_step k a b)).
Proof.
  intros Hk.
  destruct (grid_eight_edges (allocated maximum_matrix (k * k)) k Hk eq_refl)
    as (E4 & Ed & Hfour & Height & HE4 & HEd).
  exists (add_edges (allocated maximum_matrix (k * k)) E4),
         (add_edges (allocated maximum_matrix (k * k)) (E4 ∪ Ed)).
  rewrite !network_new_allocated. simpl create_structure.
  split; [exact Hfour|]. split; [exact Height|]. split; [reflexivity|]. split; [reflexivity|].
  split; intros a b; rewrite is_edge_allocated.
  - apply HE4.
  - rewrite elem_of_union, HE4, HEd. tauto.
Qed.

Lemma network_new_grid_error (maximum_matrix n : Z) (ct : conn_type) :
  ct = GRID_FOUR \/ ct = GRID_EIGHT -> sqrt_has_fraction n = true ->
  network_new maximum_matrix n ct = Err InvalidGridSize.
Proof.
  intros Hct Hfrac. rewrite network_new_allocated.
  destruct Hct as [-> | ->]; simpl;
    unfold create_grid_eight_connections, create_grid_four_connections; simpl;
    rewrite Hfrac; reflexivity.
Qed.

Lemma grid_four_step_irreflexive (k a : Z) : 0 < k -> ~ grid_four_step k a a.
Proof. intros Hk. unfold grid_four_step. lia. Qed.

Lemma grid_diagonal_step_irreflexive (k a : Z) : 0 < k -> ~ grid_diagonal_step k a a.
Proof.
  intros Hk. unfold grid_diagonal_step.
  intros [H | [(Hv & _ & Hrow) | [(Hv & _ & Hrow) | H]]]; [lia | | | lia].
  - assert (k = 1) as -> by lia. rewrite !Z.div_1_r in Hrow. lia.
  - assert (k = 1) as -> by lia. rewrite !Z.div_1_r in Hrow. lia.
Qed.

Lemma network_new_no_self_loop (maximum_matrix n : Z) (ct : conn_type) (net : network) :
  0 <= n < 2 ^ 32 -> network_new maximum_matrix n ct = Ok net ->
  forall i, get_connection net i i = 0.
Proof.
  intros Hn Hnew i. apply get_connection_no_edge. revert Hnew.
  destruct ct as [ | | | | | v].
  - rewrite network_new_allocated. simpl. intros [= <-].
    unfold is_edge, allocated; simpl. apply not_elem_of_empty.
  - rewrite network_new_allocated. simpl.
    destruct (all_to_all_edges (allocated maximum_matrix n) Hn) as (E & -> & HE).
    intros [= <-]. rewrite is_edge_allocated, HE. lia.
  - destruct (sqrt_has_fraction n) eqn:Hfrac.
    + rewrite network_new_grid_error by auto. discriminate.
    + destruct (side_of_square n Hn Hfrac) as [Hk Hsq]. rewrite Hsq.
      destruct (network_new_grid maximum_matrix (Z.sqrt n) Hk)
        as (g4 & g8 & -> & _ & _ & _ & H4 & _).
      intros [= <-]. rewrite H4. intros [Hi Hstep].
      apply (grid_four_step_irreflexive (Z.sqrt n) i); [|exact Hstep].
      apply (side_positive _ i); lia.
  - destruct (sqrt_has_fraction n) eqn:Hfrac.
    + rewrite network_new_grid_error by auto. discriminate.
    + destruct (side_of_square n Hn Hfrac) as [Hk Hsq]. rewrite Hsq.
      destruct (network_new_grid maximum_matrix (Z.sqrt n) Hk)
        as (g4 & g8 & _ & -> & _ & _ & _ & H8).
      intros [= <-]. rewrite H8. intros [Hi Hstep].
      assert (0 < Z.sqrt n) as Hpos by (apply (side_positive _ i); lia).
      destruct Hstep as [Hstep | Hstep].
      * apply (grid_four_step_irreflexive (Z.sqrt n) i); assumption.
      * apply (grid_diagonal_step_irreflexive (Z.sqrt n) i); assumption.
  - rewrite network_new_allocated. simpl.
    destruct (list_bidir_edges (allocated maximum_matrix n) Hn) as (E & -> & HE).
    intros [= <-]. rewrite is_edge_allocated, HE. lia.
  - rewrite network_new_allocated. simpl. discriminate.
Qed.

(** C8.  Constructing a network with topology GRID_FOUR or GRID_EIGHT
    throws the grid-size error exactly when the oscillator count is not a
    perfect square, and for every perfect-square count the construction
    returns a network. *)
Theorem grid_construction_fails_iff_not_square
    (maximum_matrix n : Z) (ct : conn_type) :
  0 <= n < 2 ^ 32 -> ct = GRID_FOUR \/ ct = GRID_EIGHT ->
  (network_new maximum_matrix n ct = Err InvalidGridSize <-> ~ exists k, n = k * k)
  /\ ((exists k, n = k * k) -> exists net, network_new maximum_matrix n ct = Ok net).
Proof.
  intros Hn Hct. destruct (sqrt_has_fraction n) eqn:Hfrac.
  - assert (~ exists k, n = k * k) as Hnot.
    { intros Hsq. apply perfect_square_iff in Hsq; [congruence | lia]. }
    split; [|contradiction]. split; [auto | intros _].
    apply network_new_grid_error; assumption.
  - destruct (side_of_square n Hn Hfrac) as [Hk Hsq].
    destruct (network_new_grid maximum_matrix (Z.sqrt n) Hk) as (g4 & g8 & H4 & H8 & _).
    rewrite <- Hsq in H4, H8.
    assert (exists net, network_new maximum_matrix n ct = Ok net) as [net Hnet].
    { destruct Hct as [-> | ->]; eauto. }
    split; [|eauto]. rewrite Hnet. split; [discriminate|].
    intros Hnot. exfalso. apply Hnot. eauto.
Qed.

Lemma grid_construction_fails_iff_not_square_witness :
  (network_new 4096 9 GRID_EIGHT = Err InvalidGridSize <-> ~ exists k, 9 = k * k)
  /\ ((exists k, 9 = k * k) -> exists net, network_new 4096 9 GRID_EIGHT = Ok net).
Proof.
  apply (grid_construction_fails_iff_not_square 4096 9 GRID_EIGHT).
  - pow_numerals; lia.
  - right; reflexivity.
Defined.

(** ** Neighbour counts of the four-neighbour grid *)

Lemma row_products (k r : Z) :
  0 < k -> 0 <= r < k ->
  0 <= k * r /\ k * r + k <= k * k /\ (1 <= r -> k <= k * r)
  /\ (r <= k - 2 -> k * r + 2 * k <= k * k).
Proof. intros Hk Hr. repeat split; nia. Qed.

Lemma elem_of_guarded_list (c : bool) (x j : Z) :
  j ∈ (if c then [x] else []) <-> c = true /\ j = x.
Proof.
  destruct c.
  - rewrite list_elem_of_singleton. tauto.
  - split; [intros H; apply elem_of_nil in H; contradiction | intros [[=] _]].
Qed.

Lemma grid_four_step_neighbours (k i j : Z) :
  0 < k -> 0 <= i < k * k -> k * k <= 2 ^ 31 ->
  grid_four_step k i j <-> j ∈ grid_four_neighbours k i.
Proof.
  intros Hk Hi Hint. unfold grid_four_neighbours, grid_four_step.
  rewrite !elem_of_app, !elem_of_guarded_list, !Z.ltb_lt.
  destruct (coordinates k i Hk Hi) as (Ei & Hr & Hc).
  destruct (row_products k (row_of k i) Hk Hr) as (P0 & P1 & P2 & P3).
  assert ((i - 1) / k = i / k <-> 0 < col_of k i) as Hleft.
  { rewrite div_eq_iff by lia. fold (row_of k i). lia. }
  assert ((i + 1) / k = i / k <-> col_of k i < k - 1) as Hright.
  { rewrite div_eq_iff by lia. fold (row_of k i). lia. }
  pow_numerals. split.
  - intros [H | [H | [H | H]]].
    + left. destruct (Z.eq_dec (row_of k i) 0) as [E0 | E0]; [rewrite E0 in Ei|]; lia.
    + right; right; right.
      destruct (Z.eq_dec (row_of k i) (k - 1)) as [E0 | E0]; [rewrite E0 in Ei|]; lia.
    + right; left. tauto.
    + right; right; left. tauto.
  - intros [H | [H | [H | H]]].
    + left. lia.
    + right; right; left. split; [tauto|]. split; [lia|]. split; [lia|]. tauto.
    + right; right; right. split; [tauto|]. split; [lia|]. tauto.
    + right; left. lia.
Qed.

Lemma grid_four_neighbours_NoDup (k i : Z) : 2 <= k -> NoDup (grid_four_neighbours k i).
Proof.
  intros Hk. unfold grid_four_neighbours.
  destruct (0 <? row_of k i), (0 <? col_of k i), (col_of k i <? k - 1),
    (row_of k i <? k - 1); simpl;
    repeat (apply NoDup_cons; split;
            [rewrite ?not_elem_of_cons; repeat split; try lia; apply not_elem_of_nil |]);
    apply NoDup_nil; exact I.
Qed.

Lemma grid_four_neighbours_length (k i : Z) :
  2 <= k -> 0 <= i < k * k ->
  (interior_node k i -> length (grid_four_neighbours k i) = 4%nat)
  /\ (edge_node k i -> length (grid_four_neighbours k i) = 3%nat)
  /\ (corner_node k i -> length (grid_four_neighbours k i) = 2%nat).
Proof.
  intros Hk Hi. destruct (coordinates k i ltac:(lia) Hi) as (_ & Hr & Hc).
  unfold interior_node, edge_node, corner_node, first_or_last_row, first_or_last_col,
    grid_four_neighbours.
  destruct (Z.ltb_spec 0 (row_of k i)), (Z.ltb_spec 0 (col_of k i)),
    (Z.ltb_spec (col_of k i) (k - 1)), (Z.ltb_spec (row_of k i) (k - 1)); simpl;
    repeat split; intros; try reflexivity; exfalso; lia.
Qed.

Lemma elem_of_get_neighbors (net : network) (i j : Z) :
  j ∈ get_neighbors net i <-> is_edge net i j /\ 0 <= j < num_osc net.
Proof.
  unfold get_neighbors. rewrite list_elem_of_filter, elem_of_seqZ.
  rewrite <- get_connection_edge. unfold get_connection.
  destruct (bool_decide ((i, j) ∈ osc_conn net)); lia.
Qed.

Lemma get_neighbors_NoDup (net : network) (i : Z) : NoDup (get_neighbors net i).
Proof. unfold get_neighbors. apply NoDup_filter, NoDup_seqZ. Qed.

Lemma get_neighbors_grid_four (net : network) (k i : Z) :
  2 <= k -> k * k <= 2 ^ 31 -> 0 <= i < k * k -> num_osc net = k * k ->
  (forall a b, is_edge net a b <-> 0 <= a < k * k /\ grid_four_step k a b) ->
  get_neighbors net i ≡ₚ grid_four_neighbours k i.
Proof.
  intros Hk Hint Hi Hn Hedges.
  apply NoDup_Permutation.
  - apply get_neighbors_NoDup.
  - apply grid_four_neighbours_NoDup. exact Hk.
  - intros j. rewrite elem_of_get_neighbors, Hedges, Hn.
    rewrite <- grid_four_step_neighbours by lia. split; [tauto|].
    intros Hstep. split; [tauto|].
    apply grid_four_step_orthogonal in Hstep; [tauto | lia ..].
Qed.

(** C7, as amended.  For every perfect-square oscillator count [k * k]
    with side [k >= 2] that fits [int], GRID_FOUR gives a node exactly 4
    neighbours if it is interior, 3 if it is on a grid edge and 2 if it is
    a corner; every connection joins horizontal or vertical neighbours of
    the grid, and a node of the last column has no connection, in either
    direction, with the first node of the next row. *)
Theorem grid_four_neighbour_counts (maximum_matrix k : Z) :
  2 <= k -> k * k <= INT_MAX ->
  exists net,
    network_new maximum_matrix (k * k) GRID_FOUR = Ok net
    /\ forall i, 0 <= i < k * k ->
         (interior_node k i -> length (get_neighbors net i) = 4%nat)
         /\ (edge_node k i -> length (get_neighbors net i) = 3%nat)
         /\ (corner_node k i -> length (get_neighbors net i) = 2%nat)
         /\ (forall j, get_connection net i j = 1 -> 0 <= j < k * k /\ orthogonal k i j)
         /\ (col_of k i = k - 1 ->
             get_connection net i (i + 1) = 0 /\ get_connection net (i + 1) i = 0).
Proof.
  intros Hk Hint.
  assert (0 <= k < 2 ^ 16) as Hk16.
  { split; [lia|]. apply Z.nle_gt. intros Hbig.
    assert (65536 * 65536 <= k * k) by (apply Z.mul_le_mono_nonneg; pow_numerals; lia).
    pow_numerals. lia. }
  assert (k * k <= 2 ^ 31) as Hint' by (pow_numerals; lia).
  destruct (network_new_grid maximum_matrix k Hk16) as (g4 & _ & Hnew & _ & Hn & _ & H4 & _).
  exists g4. split; [exact Hnew|]. intros i Hi.
  pose proof (get_neighbors_grid_four g4 k i Hk Hint' Hi Hn H4) as Hperm.
  apply Permutation_length in Hperm. rewrite Hperm.
  destruct (grid_four_neighbours_length k i Hk Hi) as (L4 & L3 & L2).
  split; [exact L4|]. split; [exact L3|]. split; [exact L2|].
  assert (forall a b, is_edge g4 a b -> 0 <= a < k * k /\ 0 <= b < k * k /\ orthogonal k a b)
    as Horth.
  { intros a b Hab. apply H4 in Hab as [Ha Hstep].
    apply grid_four_step_orthogonal in Hstep; [tauto | lia ..]. }
  split.
  - intros j Hj. apply get_connection_edge, Horth in Hj. tauto.
  - intros Hcol. destruct (coordinates k i ltac:(lia) Hi) as (Ei & Hr & Hc).
    destruct (coordinates_unique k (row_of k i + 1) 0 ltac:(lia) ltac:(lia)) as [Hr' Hc'].
    replace (k * (row_of k i + 1) + 0) with (i + 1) in Hr', Hc' by lia.
    split; apply get_connection_no_edge; intros Hedge; apply Horth in Hedge;
      unfold orthogonal in Hedge; lia.
Qed.

Lemma grid_four_neighbour_counts_witness :
  exists net,
    network_new 4096 (3 * 3) GRID_FOUR = Ok net
    /\ forall i, 0 <= i < 3 * 3 ->
         (interior_node 3 i -> length (get_neighbors net i) = 4%nat)
         /\ (edge_node 3 i -> length (get_neighbors net i) = 3%nat)
         /\ (corner_node 3 i -> length (get_neighbors net i) = 2%nat)
         /\ (forall j, get_connection net i j = 1 -> 0 <= j < 3 * 3 /\ orthogonal 3 i j)
         /\ (col_of 3 i = 3 - 1 ->
             get_connection net i (i + 1) = 0 /\ get_connection net (i + 1) i = 0).
Proof. apply (grid_four_neighbour_counts 4096 3); pow_numerals; lia. Defined.

(** C7, the claim as stated fails.  The single node of the 1 x 1 grid is a
    corner and has no neighbour at all; and past the range of [int] the
    [int]-typed upper and left indices of the builder are negative, so the
    last corner of the grid of side 46342 has no neighbour either. *)
Lemma grid_four_corner_without_neighbours :
  (exists net, network_new 4096 1 GRID_FOUR = Ok net
     /\ corner_node 1 0 /\ length (get_neighbors net 0) = 0%nat)
  /\ (exists net, network_new 4096 (46342 * 46342) GRID_FOUR = Ok net
        /\ corner_node 46342 (46342 * 46342 - 1)
        /\ length (get_neighbors net (46342 * 46342 - 1)) = 0%nat).
Proof.
  split.
  - eexists. split; [reflexivity|]. split; [vm_compute; auto | vm_compute; reflexivity].
  - destruct (network_new_grid 4096 46342 ltac:(pow_numerals; lia))
      as (g4 & _ & Hnew & _ & Hn & _ & H4 & _).
    exists g4. split; [exact Hnew|]. split; [vm_compute; auto|].
    destruct (get_neighbors g4 (46342 * 46342 - 1)) as [|j l] eqn:Hnb; [reflexivity|].
    exfalso. assert (j ∈ get_neighbors g4 (46342 * 46342 - 1)) as Hj by (rewrite Hnb; left).
    apply elem_of_get_neighbors in Hj as [Hedge _]. apply H4 in Hedge as [_ Hstep].
    unfold grid_four_step in Hstep. pow_numerals. lia.
Qed.

(** ** GRID_EIGHT against GRID_FOUR *)

(** C6, as amended.  For every perfect-square oscillator count [k * k],
    every GRID_FOUR connection is a GRID_EIGHT connection, and the
    GRID_EIGHT connections that GRID_FOUR lacks are exactly the pairs of
    nodes of the grid whose rows differ by one and whose columns differ by
    one (the existing diagonal neighbours, never across a row boundary);
    there is such a pair exactly when the side is at least 2, so the
    extension is strict from [n = 4] on and empty for [n = 0] and
    [n = 1]. *)
Theorem grid_eight_extends_grid_four (maximum_matrix k : Z) :
  0 <= k < 2 ^ 16 ->
  exists g4 g8,
    network_new maximum_matrix (k * k) GRID_FOUR = Ok g4
    /\ network_new maximum_matrix (k * k) GRID_EIGHT = Ok g8
    /\ (forall a b, get_connection g4 a b = 1 -> get_connection g8 a b = 1)
    /\ (forall a b,
          get_connection g8 a b = 1 /\ get_connection g4 a b = 0
          <-> 0 <= a < k * k /\ 0 <= b < k * k /\ diagonal k a b)
    /\ (2 <= k <-> exists a b, get_connection g8 a b = 1 /\ get_connection g4 a b = 0).
Proof.
  intros Hk.
  destruct (network_new_grid maximum_matrix k Hk) as (g4 & g8 & H4new & H8new & _ & _ & H4 & H8).
  exists g4, g8. split; [exact H4new|]. split; [exact H8new|].
  assert (forall a b,
            get_connection g8 a b = 1 /\ get_connection g4 a b = 0
            <-> 0 <= a < k * k /\ 0 <= b < k * k /\ diagonal k a b) as Hdiag.
  { intros a b. rewrite get_connection_edge, get_connection_no_edge, H8, H4. split.
    - intros [[Ha [Hstep | Hstep]] Hnot]; [tauto|].
      assert (0 < k) as Hpos by (apply (side_positive k a); lia).
      apply grid_diagonal_step_diagonal in Hstep; [tauto | lia ..].
    - intros (Ha & Hb & Hd).
      assert (0 < k) as Hpos by (apply (side_positive k a); lia).
      assert (grid_diagonal_step k a b) as Hstep.
      { apply grid_diagonal_step_diagonal; [lia .. | tauto]. }
      split; [tauto|]. intros [_ Hfour].
      apply (grid_four_step_not_diagonal k a b); assumption. }
  split; [|split; [exact Hdiag|]].
  - intros a b. rewrite !get_connection_edge, H8, H4. tauto.
  - split.
    + intros Hk2. exists 0, (k + 1). apply Hdiag.
      destruct (row_products k 1 ltac:(lia) ltac:(lia)) as (_ & P1 & _).
      split; [lia|]. split; [lia|].
      destruct (coordinates_unique k 0 0 ltac:(lia) ltac:(lia)) as [Hr0 Hc0].
      destruct (coordinates_unique k 1 1 ltac:(lia) ltac:(lia)) as [Hr1 Hc1].
      replace (k * 0 + 0) with 0 in Hr0, Hc0 by lia.
      replace (k * 1 + 1) with (k + 1) in Hr1, Hc1 by lia.
      unfold diagonal. rewrite Hr0, Hc0, Hr1, Hc1. lia.
    + intros (a & b & Hab). apply Hdiag in Hab as (Ha & Hb & Hrow & _).
      assert (0 < k) as Hpos by (apply (side_positive k a); lia).
      destruct (coordinates k a Hpos Ha) as (_ & Hra & _).
      destruct (coordinates k b Hpos Hb) as (_ & Hrb & _). lia.
Qed.

Lemma grid_eight_extends_grid_four_witness :
  exists g4 g8,
    network_new 4096 (3 * 3) GRID_FOUR = Ok g4
    /\ network_new 4096 (3 * 3) GRID_EIGHT = Ok g8
    /\ (forall a b, get_connection g4 a b = 1 -> get_connection g8 a b = 1)
    /\ (forall a b,
          get_connection g8 a b = 1 /\ get_connection g4 a b = 0
          <-> 0 <= a < 3 * 3 /\ 0 <= b < 3 * 3 /\ diagonal 3 a b)
    /\ (2 <= 3 <-> exists a b, get_connection g8 a b = 1 /\ get_connection g4 a b = 0).
Proof. apply (grid_eight_extends_grid_four 4096 3). pow_numerals; lia. Defined.

(** C6, the claim as stated fails.  One oscillator is a perfect-square
    count, and on it GRID_EIGHT and GRID_FOUR build the same (empty) set of
    connections: the superset is not strict. *)
Lemma grid_eight_not_strict_on_one_node :
  exists g4 g8,
    network_new 4096 1 GRID_FOUR = Ok g4
    /\ network_new 4096 1 GRID_EIGHT = Ok g8
    /\ osc_conn g8 = osc_conn g4
    /\ osc_conn g8 = ∅.
Proof.
  eexists. eexists. split; [reflexivity|]. split; [reflexivity|].
  split; vm_compute; reflexivity.
Qed.

(** ** LIST_BIDIR *)

Lemma list_bidir_first_edge (maximum_matrix n : Z) :
  2 <= n < 2 ^ 32 ->
  exists net, network_new maximum_matrix n LIST_BIDIR = Ok net
    /\ get_connection net 1 0 = 1 /\ get_connection net 0 1 = 0.
Proof.
  intros Hn. rewrite network_new_allocated. simpl.
  destruct (list_bidir_edges (allocated maximum_matrix n) ltac:(simpl; lia)) as (E & -> & HE).
  eexists. split; [reflexivity|]. simpl in HE. split.
  - apply get_connection_edge, is_edge_allocated, HE. lia.
  - apply get_connection_no_edge. rewrite is_edge_allocated, HE. lia.
Qed.

(** C2, evaluated on three oscillators.  The loop of
    [create_list_bidir_connections] starts at index 1, so node 0 never
    sets its connection to node 1: the path has the connection 1 -> 0 and
    lacks 0 -> 1, while the inner pair 1, 2 is joined both ways. *)
Theorem list_bidir_on_three_nodes :
  exists net, network_new 4096 3 LIST_BIDIR = Ok net
    /\ get_connection net 1 0 = 1 /\ get_connection net 0 1 = 0
    /\ get_connection net 1 2 = 1 /\ get_connection net 2 1 = 1.
Proof. eexists. split; [reflexivity|]. vm_compute. auto. Qed.

(** ** The representation chosen by the constructor *)

Lemma select_representation_matrix (maximum_matrix n : Z) :
  n <= maximum_matrix ->
  select_representation maximum_matrix n = (MATRIX_CONN_REPRESENTATION, n).
Proof.
  intros Hn. unfold select_representation.
  destruct (Z.ltb_spec maximum_matrix n); [lia | reflexivity].
Qed.

Lemma select_representation_bitmap (maximum_matrix n : Z) :
  maximum_matrix < n ->
  select_representation maximum_matrix n
  = (BITMAP_CONN_REPRESENTATION, n / sizeof_unsigned_int).
Proof.
  intros Hn. unfold select_representation.
  destruct (Z.ltb_spec maximum_matrix n); [reflexivity | lia].
Qed.

Lemma bitmap_row_above_spec (n : Z) :
  8 <= n -> spec_bitmap_row_elements n < n / sizeof_unsigned_int.
Proof.
  intros Hn. unfold spec_bitmap_row_elements, word_bits, sizeof_unsigned_int.
  Z.div_mod_to_equations. lia.
Qed.

(** C3, evaluated just above a threshold of 4096.  The row of the bitmap
    representation gets [number_oscillators / sizeof(unsigned int)]
    elements, the integer quotient by the 4 bytes of a word (of which
    [std::ceil] changes nothing): 1024 for 4098 oscillators, where
    ceil(4098 / 32) is 129 and even ceil(4098 / 4) is 1025. *)
Theorem bitmap_row_elements_on_4098 :
  exists net, network_new 4096 4098 NONE = Ok net
    /\ conn_representation net = BITMAP_CONN_REPRESENTATION
    /\ row_elements net = 1024
    /\ spec_bitmap_row_elements 4098 = 129
    /\ (4098 + sizeof_unsigned_int - 1) / sizeof_unsigned_int = 1025.
Proof. eexists. split; [reflexivity|]. vm_compute. auto. Qed.

(** ** Loop invariants *)

Lemma for_each_invariant {S : Type} (Inv : list Z -> S -> Prop)
    (body : Z -> S -> result S) (l : list Z) (s : S) :
  Inv [] s ->
  (forall done i rest s', l = done ++ i :: rest -> Inv done s' ->
     exists s'', body i s' = Ok s'' /\ Inv (done ++ [i]) s'') ->
  exists s', for_each l body s = Ok s' /\ Inv l s'.
Proof.
  intros H0 Hstep.
  assert (forall rest done s', l = done ++ rest -> Inv done s' ->
            exists s'', for_each rest body s' = Ok s'' /\ Inv l s'') as Hgen.
  { induction rest as [|i rest IH]; intros done s' Hl Hinv.
    - rewrite app_nil_r in Hl. subst done. exists s'. split; [reflexivity | exact Hinv].
    - destruct (Hstep done i rest s' Hl Hinv) as (s'' & Hbody & Hinv'').
      simpl. rewrite Hbody. simpl. apply (IH (done ++ [i])); [|exact Hinv''].
      rewrite <- app_assoc. exact Hl. }
  apply (Hgen l [] s); [reflexivity | exact H0].
Qed.

Lemma loop_prefix (first bound : Z) (done rest : list Z) (i : Z) :
  seqZ first (bound - first) = done ++ i :: rest ->
  first <= i < bound /\ (forall j, j ∈ done <-> first <= j < i).
Proof.
  intros Hl.
  assert (i ∈ seqZ first (bound - first)) as Hi.
  { rewrite Hl. apply elem_of_app. right. left. }
  apply elem_of_loop_range in Hi. split; [exact Hi|].
  assert (done = seqZ first (Z.of_nat (length done)) /\ i = first + Z.of_nat (length done))
    as [Hdone Hival].
  { assert (seqZ first (bound - first) !! length done = Some i) as Hlook.
    { rewrite Hl. rewrite lookup_app_r by lia. now rewrite Nat.sub_diag. }
    apply lookup_seqZ in Hlook as [Hival Hlt]. split; [|exact Hival].
    apply list_eq. intros p. destruct (decide (p < length done)%nat) as [Hp | Hp].
    - rewrite lookup_seqZ_lt by lia.
      assert (seqZ first (bound - first) !! p = Some (first + Z.of_nat p)) as Hlk
        by (apply lookup_seqZ_lt; lia).
      rewrite Hl, lookup_app_l in Hlk by lia. exact Hlk.
    - rewrite lookup_seqZ_ge by lia. apply lookup_ge_None. lia. }
  intros j. rewrite Hdone at 1. rewrite elem_of_seqZ. lia.
Qed.

(** ** The weight matrix *)

Section WeightMatrix.

Context {D : Type} `{DoubleOps D}.

Lemma square_matrix_zero (n : nat) :
  square_matrix n (replicate n (replicate n d_zero)).
Proof.
  split; [apply length_replicate|]. apply Forall_replicate, length_replicate.
Qed.

Lemma matrix_get_zero (n : nat) (a b : Z) :
  matrix_get (replicate n (replicate n d_zero)) a b = d_zero.
Proof.
  unfold matrix_get.
  destruct (replicate n (replicate n d_zero) !! Z.to_nat a) as [row|] eqn:Hrow;
    [|reflexivity].
  apply lookup_replicate in Hrow as [-> _]. simpl.
  destruct (replicate n d_zero !! Z.to_nat b) as [x|] eqn:Hx; [|reflexivity].
  apply lookup_replicate in Hx as [-> _]. reflexivity.
Qed.

Lemma square_matrix_set (n : nat) (w : list (list D)) (i j : Z) (v : D) :
  square_matrix n w -> square_matrix n (matrix_set w i j v).
Proof.
  intros [Hlen Hrows]. unfold matrix_set. split.
  - now rewrite length_alter.
  - apply Forall_alter; [exact Hrows|]. intros row _ Hrow. now rewrite length_insert.
Qed.

Lemma matrix_get_set (n : nat) (w : list (list D)) (i j a b : Z) (v : D) :
  square_matrix n w ->
  0 <= i < Z.of_nat n -> 0 <= j < Z.of_nat n -> 0 <= a -> 0 <= b ->
  matrix_get (matrix_set w i j v) a b
  = if decide (a = i /\ b = j) then v else matrix_get w a b.
Proof.
  intros [Hlen Hrows] Hi Hj Ha Hb. unfold matrix_get, matrix_set.
  destruct (decide (a = i)) as [-> | Hai].
  - rewrite list_lookup_alter_eq.
    destruct (lookup_lt_is_Some_2 w (Z.to_nat i) ltac:(lia)) as [row Hrow].
    rewrite Hrow. simpl.
    assert (length row = n) as Hrowlen.
    { rewrite Forall_lookup in Hrows. exact (Hrows _ _ Hrow). }
    destruct (decide (b = j)) as [-> | Hbj].
    + rewrite list_lookup_insert_eq by lia. rewrite decide_True by auto. reflexivity.
    + rewrite list_lookup_insert_ne by lia. rewrite decide_False by tauto. reflexivity.
  - rewrite list_lookup_alter_ne by lia. rewrite decide_False by tauto. reflexivity.
Qed.

(** The two writes [[i][j] = v; [j][i] = v] of the builder. *)
Lemma matrix_get_set_pair (n : nat) (w : list (list D)) (i j a b : Z) (v : D) :
  square_matrix n w ->
  0 <= i < Z.of_nat n -> 0 <= j < Z.of_nat n -> 0 <= a -> 0 <= b ->
  matrix_get (matrix_set (matrix_set w i j v) j i v) a b
  = if decide ((a = i /\ b = j) \/ (a = j /\ b = i)) then v else matrix_get w a b.
Proof.
  intros Hw Hi Hj Ha Hb.
  rewrite (matrix_get_set n) by (auto using square_matrix_set).
  rewrite (matrix_get_set n) by auto.
  repeat case_decide; try reflexivity; exfalso; tauto.
Qed.

End WeightMatrix.

(** The nest [for i in [0, n): for j in [i + 1, n): body i j], with an
    invariant indexed by the set of pairs already visited. *)
Lemma pair_loops_invariant {S : Type} (Inv : (Z -> Z -> Prop) -> S -> Prop)
    (body : Z -> Z -> S -> result S) (n : Z) (s : S) :
  0 <= n < 2 ^ 32 ->
  (forall (P Q : Z -> Z -> Prop) s', (forall i j, P i j <-> Q i j) -> Inv P s' -> Inv Q s') ->
  Inv (fun _ _ => False) s ->
  (forall (P : Z -> Z -> Prop) i j s',
     0 <= i < j /\ j < n -> ~ P i j -> (forall a b, P a b -> 0 <= a < b /\ b < n) ->
     Inv P s' ->
     exists s'', body i j s' = Ok s'' /\ Inv (fun a b => P a b \/ (a = i /\ b = j)) s'') ->
  exists s',
    for_loop 0 n (fun i s' => for_loop (to_unsigned (i + 1)) n (fun j s'' => body i j s'') s') s
    = Ok s'
    /\ Inv (fun i j => 0 <= i < j /\ j < n) s'.
Proof.
  intros Hn Hequiv Hinit Hstep.
  destruct (for_each_invariant
              (fun done s' => Inv (fun i j => i ∈ done /\ i < j /\ j < n) s')
              (fun i s' => for_loop (to_unsigned (i + 1)) n (fun j s'' => body i j s'') s')
              (seqZ 0 (n - 0)) s) as (s' & Hrun & Hfinal).
  - apply (Hequiv (fun _ _ => False)); [|exact Hinit].
    intros i j. split; [contradiction|]. intros [Hi _]. apply elem_of_nil in Hi. exact Hi.
  - intros di i0 rest s' Hl Hinv. apply loop_prefix in Hl as [Hi0 Hdi].
    unfold for_loop. rewrite to_unsigned_small by (pow_numerals; lia).
    destruct (for_each_invariant
                (fun done s'' =>
                   Inv (fun i j => (i ∈ di /\ i < j /\ j < n) \/ (i = i0 /\ j ∈ done)) s'')
                (fun j s'' => body i0 j s'')
                (seqZ (i0 + 1) (n - (i0 + 1))) s') as (s'' & Hrun & Hfinal).
    + apply (Hequiv (fun i j => i ∈ di /\ i < j /\ j < n)); [|exact Hinv].
      intros i j. split; [tauto|]. intros [Hij | [_ Hj]]; [exact Hij|].
      apply elem_of_nil in Hj. contradiction.
    + intros dj j0 rest' s'' Hl' Hinv'. apply loop_prefix in Hl' as [Hj0 Hdj].
      destruct (Hstep (fun i j => (i ∈ di /\ i < j /\ j < n) \/ (i = i0 /\ j ∈ dj)) i0 j0 s'')
        as (s3 & Hbody & Hinv3);
        [lia | rewrite Hdi, Hdj; lia | intros a b; rewrite Hdi, Hdj; lia | exact Hinv' |].
      exists s3. split; [exact Hbody|]. revert Hinv3. apply Hequiv.
      intros i j. rewrite elem_of_app, list_elem_of_singleton. tauto.
    + exists s''. split; [exact Hrun|]. revert Hfinal. apply Hequiv.
      intros i j. rewrite elem_of_app, list_elem_of_singleton, elem_of_loop_range.
      split.
      * intros [Hij | [-> Hj]]; [tauto | split; [now right | lia]].
      * intros [[Hi | ->] Hj]; [left; tauto | right; lia].
  - exists s'. split; [exact Hrun|]. revert Hfinal. apply Hequiv.
    intros i j. rewrite elem_of_loop_range. lia.
Qed.

(** ** The radius-based builder *)

Section RadiusBuilder.

Context {D : Type} `{DoubleOps D}.

(** The object on which [create_connections] is called, and its arguments. *)
Variable s0 : syncnet D.
Variable connectivity_radius : D.
Hypothesis Hn : 0 <= num_osc (base s0) < 2 ^ 32.

#[local] Abbreviation n := (num_osc (base s0)).
#[local] Abbreviation r2 := (d_mul connectivity_radius connectivity_radius).
#[local] Abbreviation pair_distance := (pair_distance s0).
#[local] Abbreviation same_members := (same_members s0).
#[local] Abbreviation all_pairs := (all_pairs s0).
#[local] Abbreviation radius_edges := (radius_edges s0 connectivity_radius).
#[local] Abbreviation weights_of_pairs := (weights_of_pairs s0).
#[local] Abbreviation visited_pairs := (visited_pairs s0 connectivity_radius).
#[local] Abbreviation normalized_pairs := (normalized_pairs s0).

Lemma radius_edges_equiv (P Q : Z -> Z -> Prop) (E : gset (Z * Z)) :
  (forall i j, P i j <-> Q i j) -> radius_edges P E -> radius_edges Q E.
Proof.
  intros HPQ HE a b. rewrite (HE a b). split; intros (i & j & Hp & Hrest);
    exists i, j; (split; [apply HPQ; exact Hp | exact Hrest]).
Qed.

Lemma weights_of_pairs_equiv (P Q : Z -> Z -> Prop) (f g : D -> D) (w : list (list D)) :
  (forall i j, P i j <-> Q i j) -> weights_of_pairs P f g w -> weights_of_pairs Q f g w.
Proof.
  intros HPQ (Hsq & Hpairs & Hdiag). split; [exact Hsq|]. split; [|exact Hdiag].
  intros i j Hij. destruct (Hpairs i j Hij) as [Hin Hout]. split.
  - intros Hq. apply Hin, HPQ, Hq.
  - intros Hq. apply Hout. intros Hp. apply Hq, HPQ, Hp.
Qed.

Lemma weights_of_pairs_store (P : Z -> Z -> Prop) (f g : D -> D) (w : list (list D))
    (i0 j0 : Z) :
  weights_of_pairs P f g w -> 0 <= i0 < j0 /\ j0 < n ->
  weights_of_pairs (fun a b => P a b \/ (a = i0 /\ b = j0)) f g
    (matrix_set (matrix_set w i0 j0 (f (pair_distance i0 j0))) j0 i0
                (f (pair_distance i0 j0))).
Proof.
  intros (Hsq & Hpairs & Hdiag) Hij0. split; [|split].
  - apply square_matrix_set, square_matrix_set, Hsq.
  - intros i j Hij. destruct (Hpairs i j Hij) as [Hin Hout].
    rewrite !(matrix_get_set_pair (Z.to_nat n)) by (auto; lia).
    destruct (decide (i = i0 /\ j = j0)) as [[-> ->] | Hne].
    + rewrite !decide_True by tauto. split; [auto | tauto].
    + rewrite !decide_False by lia. split.
      * intros [Hp | Heq]; [auto | tauto].
      * intros Hnot. apply Hout. tauto.
  - intros i Hi. rewrite (matrix_get_set_pair (Z.to_nat n)) by (auto; lia).
    rewrite decide_False by lia. apply Hdiag, Hi.
Qed.

Lemma visited_pairs_equiv (enable_conn_weight : bool) (P Q : Z -> Z -> Prop)
    (st : syncnet D * D) :
  (forall i j, P i j <-> Q i j) ->
  visited_pairs enable_conn_weight P st -> visited_pairs enable_conn_weight Q st.
Proof.
  intros HPQ (Hmem & (E & Hbase & HE) & Hw). split; [exact Hmem|]. split.
  - exists E. split; [exact Hbase|]. exact (radius_edges_equiv P Q E HPQ HE).
  - destruct enable_conn_weight; [|exact Hw].
    destruct Hw as (w & Hsome & Hw). exists w. split; [exact Hsome|].
    exact (weights_of_pairs_equiv P Q _ _ w HPQ Hw).
Qed.

Lemma location_same (s : syncnet D) (i : Z) :
  same_members s -> location s i = location s0 i.
Proof. intros (_ & _ & Hl). unfold location. now rewrite Hl. Qed.

Lemma visit_pair_step (enable_conn_weight : bool) (P : Z -> Z -> Prop) (i0 j0 : Z)
    (st : syncnet D * D) :
  0 <= i0 < j0 /\ j0 < n -> visited_pairs enable_conn_weight P st ->
  exists st', visit_pair r2 enable_conn_weight i0 j0 st = Ok st'
              /\ visited_pairs enable_conn_weight
                   (fun a b => P a b \/ (a = i0 /\ b = j0)) st'.
Proof.
  intros Hij0 Hinv. destruct st as [s m].
  destruct Hinv as (Hmem & (E & Hbase & HE) & Hw). simpl in Hmem, Hbase, Hw.
  unfold visit_pair. rewrite !(location_same s) by exact Hmem.
  fold (pair_distance i0 j0). set (d := pair_distance i0 j0).
  assert (exists E',
            (if d_leb d r2
             then do net <- set_connection (base s) j0 i0; set_connection net i0 j0
             else Ok (base s)) = Ok (add_edges (base s0) E')
            /\ radius_edges (fun a b => P a b \/ (a = i0 /\ b = j0)) E')
    as (E' & -> & HE').
  { destruct (d_leb d r2) eqn:Hle.
    - exists (E ∪ ({[ (j0, i0) ]} ∪ {[ (i0, j0) ]})). split.
      + rewrite Hbase. rewrite set_connection_ok by (simpl; lia). simpl.
        rewrite set_connection_ok by (simpl; lia).
        now rewrite !add_edges_add_edges.
      + intros a b. rewrite elem_of_union, (HE a b), elem_of_union, !elem_of_singleton.
        split.
        * intros [(i & j & Hp & Hrest) | Hnew].
          -- exists i, j. tauto.
          -- exists i0, j0. split; [tauto|]. split; [exact Hle|].
             destruct Hnew as [[= -> ->] | [= -> ->]]; tauto.
        * intros (i & j & [Hp | [-> ->]] & Hd & Hab).
          -- left. exists i, j. tauto.
          -- right. destruct Hab as [[-> ->] | [-> ->]]; tauto.
    - exists E. split; [now rewrite Hbase|].
      intros a b. rewrite (HE a b). split.
      + intros (i & j & Hp & Hrest). exists i, j. tauto.
      + intros (i & j & [Hp | [-> ->]] & Hd & Hab).
        * exists i, j. tauto.
        * fold d in Hd. congruence. }
  simpl. destruct enable_conn_weight.
  - destruct Hw as (w & Hsome & Hw). eexists. split; [reflexivity|].
    split; [exact Hmem|]. split; [exists E'; split; [reflexivity | exact HE']|].
    simpl. rewrite Hsome. simpl. eexists. split; [reflexivity|].
    exact (weights_of_pairs_store P (fun d => d) (fun _ => d_zero) w i0 j0 Hw Hij0).
  - eexists. split; [reflexivity|].
    split; [exact Hmem|]. split; [exists E'; split; [reflexivity | exact HE']|].
    exact Hw.
Qed.

Lemma normalize_pair_step (multiplier subtractor : D) (E : gset (Z * Z))
    (P : Z -> Z -> Prop) (i0 j0 : Z) (s : syncnet D) :
  0 <= i0 < j0 /\ j0 < n -> ~ P i0 j0 ->
  normalized_pairs (fun d => d_div (d_sub d subtractor) multiplier) E P s ->
  exists s', normalize_pair multiplier subtractor i0 j0 s = Ok s'
             /\ normalized_pairs (fun d => d_div (d_sub d subtractor) multiplier) E
                  (fun a b => P a b \/ (a = i0 /\ b = j0)) s'.
Proof.
  intros Hij0 Hnot (Hmem & Hbase & w & Hsome & Hw).
  unfold normalize_pair. eexists. split; [reflexivity|].
  split; [exact Hmem|]. split; [exact Hbase|].
  unfold store_weight, weight_at. rewrite Hsome. simpl.
  eexists. split; [reflexivity|].
  destruct Hw as (Hsq & Hpairs & Hdiag).
  destruct (Hpairs i0 j0 Hij0) as [_ Hpending]. destruct (Hpending Hnot) as [-> _].
  exact (weights_of_pairs_store P _ (fun d => d) w i0 j0
           (conj Hsq (conj Hpairs Hdiag)) Hij0).
Qed.

Lemma create_connections_spec (enable_conn_weight : bool) :
  exists s E,
    create_connections s0 connectivity_radius enable_conn_weight = Ok s
    /\ same_members s
    /\ base s = add_edges (base s0) E
    /\ radius_edges all_pairs E
    /\ (if enable_conn_weight
        then exists w maximum_distance,
               distance_conn_weights s = Some w
               /\ weights_of_pairs all_pairs (normalized maximum_distance d_max)
                    (fun d => d) w
        else distance_conn_weights s = None).
Proof.
  unfold create_connections.
  set (s1 := set_weights s0
               (if enable_conn_weight
                then Some (replicate (Z.to_nat n) (replicate (Z.to_nat n) d_zero))
                else None)).
  destruct (pair_loops_invariant (visited_pairs enable_conn_weight)
              (visit_pair r2 enable_conn_weight) n (s1, d_zero) Hn)
    as ([s2 maximum_distance] & -> & Hmem & (E & Hbase & HE) & Hw).
  - intros P Q st. apply visited_pairs_equiv.
  - split; [repeat split|]. split.
    + exists ∅. split; [simpl; now rewrite add_edges_empty|].
      intros a b. split; [intros Hab; exfalso; revert Hab; apply not_elem_of_empty|].
      intros (i & j & [] & _).
    + unfold s1. destruct enable_conn_weight; [|reflexivity].
      eexists. split; [reflexivity|]. split; [apply square_matrix_zero|].
      split; intros; rewrite ?matrix_get_zero; tauto.
  - intros P i j st Hij _ _ Hinv. apply visit_pair_step; assumption.
  - simpl in Hmem, Hbase, Hw. simpl. destruct enable_conn_weight.
    + destruct Hw as (w & Hsome & Hw).
      pose (norm := normalized maximum_distance d_max).
      assert (exists s3,
                (let '(multiplier, subtractor) :=
                   if negb (d_eqb maximum_distance d_max)
                   then (d_sub maximum_distance d_max, d_max)
                   else (d_one, d_zero) in
                 for_loop 0 n (fun i s =>
                   for_loop (to_unsigned (i + 1)) n (fun j s' =>
                     normalize_pair multiplier subtractor i j s') s) s2) = Ok s3
                /\ normalized_pairs norm E all_pairs s3) as (s3 & -> & Hfinal).
      { unfold norm, normalized, normalization.
        destruct (negb (d_eqb maximum_distance d_max)); simpl;
          apply (pair_loops_invariant (normalized_pairs _ E)); try exact Hn.
        all: try (intros P Q s' HPQ (Hm & Hb & w' & Hs & Hw');
                  split; [exact Hm|]; split; [exact Hb|]; exists w'; split; [exact Hs|];
                  exact (weights_of_pairs_equiv P Q _ _ w' HPQ Hw')).
        all: try (intros P i j s' Hij Hnot _ Hinv; apply normalize_pair_step; assumption).
        all: split; [exact Hmem|]; split; [exact Hbase|]; exists w; split; [exact Hsome|];
          destruct Hw as (Hsq & Hpairs & Hdiag); split; [exact Hsq|]; split; [|exact Hdiag];
          intros i j Hij; destruct (Hpairs i j Hij) as [Hin _];
          split; [contradiction | intros _; apply Hin, Hij]. }
      destruct Hfinal as (Hmem3 & Hbase3 & w3 & Hsome3 & Hw3).
      exists s3, E. split; [reflexivity|]. split; [exact Hmem3|]. split; [exact Hbase3|].
      split; [exact HE|]. exists w3, maximum_distance. split; [exact Hsome3 | exact Hw3].
    + exists s2, E. split; [reflexivity|]. split; [exact Hmem|]. split; [exact Hbase|].
      split; [exact HE | exact Hw].
Qed.

End RadiusBuilder.

(** ** The constructor of the Sync network *)

Section SyncnetConstructor.

Context {D : Type} `{DoubleOps D}.

Lemma syncnet_new_spec (maximum_matrix : Z) (input_data : list (list D))
    (connectivity_radius : D) (enable_conn_weight : bool) (drawn_phases : list D) :
  exists s,
    syncnet_new maximum_matrix input_data connectivity_radius enable_conn_weight
                drawn_phases = Ok s
    /\ oscillator_locations s = input_data
    /\ oscillators s = mk_oscillator <$> drawn_phases
    /\ weight s = d_one
    /\ num_osc (base s) = to_unsigned (Z.of_nat (length input_data))
    /\ (forall a b, is_edge (base s) a b <->
          exists i j, (0 <= i < j /\ j < num_osc (base s))
                      /\ d_leb (location_distance s i j)
                               (d_mul connectivity_radius connectivity_radius) = true
                      /\ ((a = i /\ b = j) \/ (a = j /\ b = i)))
    /\ (if enable_conn_weight
        then exists w maximum_distance,
               distance_conn_weights s = Some w
               /\ forall i j, 0 <= i < j /\ j < num_osc (base s) ->
                    matrix_get w i j
                    = normalized maximum_distance d_max (location_distance s i j)
                    /\ matrix_get w j i
                       = normalized maximum_distance d_max (location_distance s i j)
        else distance_conn_weights s = None).
Proof.
  unfold syncnet_new. rewrite network_new_allocated. simpl.
  set (n := to_unsigned (Z.of_nat (length input_data))).
  set (s0 := {| base := allocated maximum_matrix n;
                oscillators := mk_oscillator <$> drawn_phases;
                weight := d_one;
                oscillator_locations := input_data;
                distance_conn_weights := None |}).
  assert (0 <= num_osc (base s0) < 2 ^ 32) as Hn by apply to_unsigned_range.
  destruct (create_connections_spec s0 connectivity_radius Hn enable_conn_weight)
    as (s & E & -> & (Hosc & Hweight & Hloc) & Hbase & HE & Hw).
  exists s. split; [reflexivity|]. split; [exact Hloc|]. split; [exact Hosc|].
  split; [exact Hweight|].
  change (base s0) with (allocated maximum_matrix n) in Hbase.
  assert (num_osc (base s) = n) as Hnum by (rewrite Hbase; reflexivity).
  split; [exact Hnum|].
  assert (forall i j, location_distance s i j = pair_distance s0 i j) as Hdist.
  { intros i j. unfold location_distance, pair_distance, location. now rewrite Hloc. }
  split.
  - intros a b. rewrite Hnum, Hbase, is_edge_allocated, (HE a b).
    split; intros (i & j & Hij & Hle & Hab); exists i, j;
      (split; [exact Hij|]; split; [|exact Hab]).
    + now rewrite Hdist.
    + now rewrite <- Hdist.
  - destruct enable_conn_weight; [|exact Hw].
    destruct Hw as (w & maximum_distance & Hsome & _ & Hpairs & _).
    exists w, maximum_distance. split; [exact Hsome|].
    intros i j Hij. rewrite Hnum in Hij. rewrite Hdist.
    destruct (Hpairs i j Hij) as [Hin _]. apply Hin, Hij.
Qed.

End SyncnetConstructor.

(** ** No self-loops *)

Lemma network_new_total_topologies (maximum_matrix n : Z) (ct : conn_type) :
  0 <= n < 2 ^ 32 -> ct = NONE \/ ct = ALL_TO_ALL \/ ct = LIST_BIDIR ->
  exists net, network_new maximum_matrix n ct = Ok net.
Proof.
  intros Hn Hct. rewrite network_new_allocated.
  destruct Hct as [-> | [-> | ->]]; simpl.
  - eexists. reflexivity.
  - destruct (all_to_all_edges (allocated maximum_matrix n) Hn) as (E & -> & _). eauto.
  - destruct (list_bidir_edges (allocated maximum_matrix n) Hn) as (E & -> & _). eauto.
Qed.

(** C9.  No builder creates a self-loop.  For every 32-bit oscillator
    count and every topology, a network the constructor returns has
    [get_connection(i, i)] false for every [i] (NONE, ALL_TO_ALL and
    LIST_BIDIR always return one; the grids do for the perfect squares);
    and the radius-based builder always returns a network, on which
    [get_connection(i, i)] is false for every [i] as well. *)
Theorem builders_create_no_self_loop {D : Type} `{DoubleOps D}
    (maximum_matrix n : Z) (ct : conn_type)
    (input_data : list (list D)) (connectivity_radius : D)
    (enable_conn_weight : bool) (drawn_phases : list D) :
  0 <= n < 2 ^ 32 ->
  (forall net, network_new maximum_matrix n ct = Ok net ->
     forall i, get_connection net i i = 0)
  /\ (ct = NONE \/ ct = ALL_TO_ALL \/ ct = LIST_BIDIR ->
      exists net, network_new maximum_matrix n ct = Ok net)
  /\ (exists s,
        syncnet_new maximum_matrix input_data connectivity_radius enable_conn_weight
                    drawn_phases = Ok s
        /\ forall i, get_connection (base s) i i = 0).
Proof.
  intros Hn. split; [|split].
  - intros net Hnew. exact (network_new_no_self_loop maximum_matrix n ct net Hn Hnew).
  - apply network_new_total_topologies. exact Hn.
  - destruct (syncnet_new_spec maximum_matrix input_data connectivity_radius
                enable_conn_weight drawn_phases) as (s & Hnew & _ & _ & _ & _ & Hedges & _).
    exists s. split; [exact Hnew|]. intros i. apply get_connection_no_edge.
    rewrite Hedges. intros (a & b & Hab & _ & Hi). lia.
Qed.

Lemma builders_create_no_self_loop_witness :
  (forall net, network_new 4096 9 GRID_EIGHT = Ok net ->
     forall i, get_connection net i i = 0)
  /\ (GRID_EIGHT = NONE \/ GRID_EIGHT = ALL_TO_ALL \/ GRID_EIGHT = LIST_BIDIR ->
      exists net, network_new 4096 9 GRID_EIGHT = Ok net)
  /\ (exists s,
        syncnet_new 4096 [[0%float]; [1%float]; [3%float]] 1.5%float true [] = Ok s
        /\ forall i, get_connection (base s) i i = 0).
Proof.
  apply (builders_create_no_self_loop 4096 9 GRID_EIGHT
           [[0%float]; [1%float]; [3%float]] 1.5%float true []).
  pow_numerals; lia.
Defined.

(** ** Weights of the radius-based builder *)

(** C1, evaluated in binary64 on three points of a line.  The points 0, 1
    and 3 are at squared distances 1, 9 and 4.  In [create_connections]
    the second update of the running bounds assigns [maximum_distance]
    where the minimum was meant, so [minimum_distance] stays at the
    largest [double] and the weights are scaled by it: every pair gets
    the weight 1, in both entries, where (d - dmin) / (dmax - dmin) with
    dmin = 1 and dmax = 9 is 0 for the closest pair, 1 for the farthest
    and 0.375 for the third.  On three points at equal squared distances
    2 every weight is 1 as well, not 0. *)
Theorem weighted_builder_on_three_points :
  (exists s,
     syncnet_new 4096 [[0]; [1]; [3]]%float 1.5%float true [] = Ok s
     /\ location_distance s 0 1 = 1%float
     /\ location_distance s 0 2 = 9%float
     /\ location_distance s 1 2 = 4%float
     /\ distance_conn_weights s = Some [[0; 1; 1]; [1; 0; 1]; [1; 1; 0]]%float
     /\ spec_normalized 1%float 9%float (location_distance s 0 1) = 0%float
     /\ spec_normalized 1%float 9%float (location_distance s 0 2) = 1%float
     /\ spec_normalized 1%float 9%float (location_distance s 1 2) = 0.375%float)
  /\ (exists s,
        syncnet_new 4096 [[1; 0; 0]; [0; 1; 0]; [0; 0; 1]]%float 1.5%float true [] = Ok s
        /\ location_distance s 0 1 = 2%float
        /\ location_distance s 0 2 = 2%float
        /\ location_distance s 1 2 = 2%float
        /\ distance_conn_weights s = Some [[0; 1; 1]; [1; 0; 1]; [1; 1; 0]]%float).
Proof.
  split.
  - eexists. split; [vm_compute; reflexivity|].
    repeat split; vm_compute; reflexivity.
  - eexists. split; [vm_compute; reflexivity|].
    repeat split; vm_compute; reflexivity.
Qed.

(** ** The radius test, over the reals *)

Lemma Rleb_le (a b : R) : Rleb a b = true <-> (a <= b)%R.
Proof. unfold Rleb. destruct (Rle_dec a b); split; auto; discriminate. Qed.

Lemma euclidean_distance_sqrt_fold (acc : R) (p q : list R) :
  foldl (fun distance '(a, b) => d_add distance (d_mul (d_sub a b) (d_sub a b))) acc (zip p q)
  = foldl (fun distance '(a, b) => d_add distance (d_mul (d_sub a b) (d_sub a b))) acc (zip q p).
Proof.
  revert acc q. induction p as [|a p IH]; intros acc [|b q]; simpl; try reflexivity.
  rewrite <- IH. f_equal. ring.
Qed.

Lemma euclidean_distance_sqrt_sym (p q : list R) :
  euclidean_distance_sqrt p q = euclidean_distance_sqrt q p.
Proof. unfold euclidean_distance_sqrt. apply euclidean_distance_sqrt_fold. Qed.

Lemma farther_than_radius (r d : R) :
  (0 <= r)%R -> (r < sqrt d)%R -> ~ (d <= r * r)%R.
Proof.
  intros Hr Hfar Hle.
  destruct (Rle_lt_dec d 0) as [Hneg | Hpos].
  - rewrite (sqrt_neg_0 d Hneg) in Hfar. lra.
  - assert (sqrt d * sqrt d = d)%R as Hsq by (apply sqrt_sqrt; lra).
    assert (r * r < sqrt d * sqrt d)%R by (apply Rmult_le_0_lt_compat; lra).
    lra.
Qed.

(** The radius test of the builder, for any arithmetic of [double]. *)
Lemma radius_builder_pair_test {D : Type} `{DoubleOps D}
    (maximum_matrix : Z) (input_data : list (list D)) (connectivity_radius : D)
    (enable_conn_weight : bool) (drawn_phases : list D) :
  exists s,
    syncnet_new maximum_matrix input_data connectivity_radius enable_conn_weight
                drawn_phases = Ok s
    /\ oscillator_locations s = input_data
    /\ num_osc (base s) = to_unsigned (Z.of_nat (length input_data))
    /\ forall i j,
         0 <= i < j /\ j < num_osc (base s) ->
         (get_connection (base s) i j = 1
          <-> d_leb (location_distance s i j)
                    (d_mul connectivity_radius connectivity_radius) = true)
         /\ get_connection (base s) j i = get_connection (base s) i j.
Proof.
  destruct (syncnet_new_spec maximum_matrix input_data connectivity_radius
              enable_conn_weight drawn_phases) as (s & Hnew & Hloc & _ & _ & Hnum & Hedges & _).
  exists s. split; [exact Hnew|]. split; [exact Hloc|]. split; [exact Hnum|].
  intros i j Hij.
  assert (forall a b, (a = i /\ b = j) \/ (a = j /\ b = i) ->
            (get_connection (base s) a b = 1
             <-> d_leb (location_distance s i j)
                       (d_mul connectivity_radius connectivity_radius) = true)) as Hboth.
  { intros a b Hab. rewrite get_connection_edge, Hedges. split.
    - intros (i' & j' & Hij' & Hle & Hab').
      assert (i' = i /\ j' = j) as [-> ->] by lia. exact Hle.
    - intros Hle. exists i, j. auto. }
  split; [apply Hboth; auto|].
  pose proof (Hboth i j ltac:(auto)) as Hfwd. pose proof (Hboth j i ltac:(auto)) as Hbwd.
  unfold get_connection in *.
  destruct (bool_decide ((i, j) ∈ osc_conn (base s))),
    (bool_decide ((j, i) ∈ osc_conn (base s))); try reflexivity; exfalso.
  - assert ((0 : Z) = 1) by (apply Hbwd, Hfwd; reflexivity). discriminate.
  - assert ((0 : Z) = 1) by (apply Hfwd, Hbwd; reflexivity). discriminate.
Qed.

Lemma radius_builder_over_reals
    (maximum_matrix : Z) (input_data : list (list R)) (connectivity_radius : R)
    (enable_conn_weight : bool) (drawn_phases : list R) :
  exists s,
    syncnet_new maximum_matrix input_data connectivity_radius enable_conn_weight
                drawn_phases = Ok s
    /\ oscillator_locations s = input_data
    /\ num_osc (base s) = to_unsigned (Z.of_nat (length input_data))
    /\ forall i j,
         0 <= i < num_osc (base s) -> 0 <= j < num_osc (base s) -> i <> j ->
         (get_connection (base s) i j = 1
          <-> (location_distance s i j <= connectivity_radius * connectivity_radius)%R)
         /\ get_connection (base s) j i = get_connection (base s) i j
         /\ ((connectivity_radius * connectivity_radius < location_distance s i j)%R ->
             get_connection (base s) i j = 0)
         /\ ((0 <= connectivity_radius)%R ->
             (connectivity_radius < sqrt (location_distance s i j))%R ->
             get_connection (base s) i j = 0)
         /\ ((0 < connectivity_radius)%R -> location_distance s i j = 0%R ->
             get_connection (base s) i j = 1).
Proof.
  destruct (syncnet_new_spec maximum_matrix input_data connectivity_radius
              enable_conn_weight drawn_phases) as (s & Hnew & Hloc & _ & _ & Hnum & Hedges & _).
  exists s. split; [exact Hnew|]. split; [exact Hloc|]. split; [exact Hnum|].
  assert (forall i j, 0 <= i < num_osc (base s) -> 0 <= j < num_osc (base s) -> i <> j ->
            (get_connection (base s) i j = 1
             <-> (location_distance s i j <= connectivity_radius * connectivity_radius)%R))
    as Hiff.
  { intros i j Hi Hj Hij. rewrite get_connection_edge, Hedges. simpl. split.
    - intros (a & b & Hab & Hle & [[-> ->] | [-> ->]]); apply Rleb_le in Hle.
      + exact Hle.
      + unfold location_distance in *. rewrite euclidean_distance_sqrt_sym. exact Hle.
    - intros Hle. destruct (Z.lt_total i j) as [Hlt | [Heq | Hgt]]; [|contradiction|].
      + exists i, j. split; [lia|]. split; [apply Rleb_le; exact Hle | tauto].
      + exists j, i. split; [lia|]. split; [|tauto]. apply Rleb_le.
        unfold location_distance in *. rewrite euclidean_distance_sqrt_sym. exact Hle. }
  assert (forall i j, location_distance s i j = location_distance s j i) as Hsym.
  { intros i j. apply euclidean_distance_sqrt_sym. }
  assert (forall i j, get_connection (base s) i j = 1 \/ get_connection (base s) i j = 0)
    as Hbit.
  { intros i j. unfold get_connection. destruct (bool_decide _); auto. }
  intros i j Hi Hj Hij. split; [apply Hiff; assumption|]. split; [|split; [|split]].
  - destruct (Hbit i j) as [Hc | Hc], (Hbit j i) as [Hc' | Hc']; try congruence.
    + apply Hiff in Hc; [|assumption ..]. rewrite Hsym in Hc.
      apply Hiff in Hc; [congruence | auto ..].
    + apply Hiff in Hc'; [|auto ..]. rewrite Hsym in Hc'.
      apply Hiff in Hc'; [congruence | auto ..].
  - intros Hfar. destruct (Hbit i j) as [Hc | Hc]; [|exact Hc].
    apply Hiff in Hc; [|assumption ..]. lra.
  - intros Hr Hfar. destruct (Hbit i j) as [Hc | Hc]; [|exact Hc].
    apply Hiff in Hc; [|assumption ..].
    exfalso. exact (farther_than_radius _ _ Hr Hfar Hc).
  - intros Hr Hzero. apply Hiff; [assumption ..|]. rewrite Hzero. nra.
Qed.

(** ** The radius test, in binary64 *)

Lemma shr_1_nonneg (mrs : shr_record) : 0 <= shr_m mrs -> 0 <= shr_m (shr_1 mrs).
Proof.
  destruct mrs as [m r s]. simpl. intros Hm.
  destruct m as [|p|p]; [simpl; lia | | lia].
  destruct p; simpl; lia.
Qed.

Lemma iter_shr_1_nonneg (p : positive) (mrs : shr_record) :
  0 <= shr_m mrs -> 0 <= shr_m (SpecFloat.iter_pos shr_1 p mrs).
Proof.
  revert mrs. induction p as [p IH | p IH |]; intros mrs Hm; simpl.
  - apply IH, IH, shr_1_nonneg, Hm.
  - apply IH, IH, Hm.
  - apply shr_1_nonneg, Hm.
Qed.

Lemma shr_fexp_nonneg (m e : Z) (l : SpecFloat.location) :
  0 <= m -> 0 <= shr_m (fst (shr_fexp prec emax m e l)).
Proof.
  intros Hm. unfold shr_fexp, shr.
  assert (0 <= shr_m (shr_record_of_loc m l)) as Hrec.
  { destruct l as [|[]]; simpl; exact Hm. }
  destruct (fexp prec emax _ - e) as [|p|p]; simpl;
    [exact Hrec | apply iter_shr_1_nonneg, Hrec | exact Hrec].
Qed.

Lemma round_nearest_even_nonneg (m : Z) (l : SpecFloat.location) :
  0 <= m -> 0 <= round_nearest_even m l.
Proof.
  intros Hm. unfold round_nearest_even.
  destruct l as [|[]]; try destruct (Z.even m); lia.
Qed.

(** Rounding keeps the sign and makes no NaN. *)
Lemma binary_round_aux_sign (sx : bool) (mx ex : Z) (lx : SpecFloat.location) :
  0 <= mx ->
  match binary_round_aux prec emax sx mx ex lx with
  | S754_zero s | S754_infinity s | S754_finite s _ _ => s = sx
  | S754_nan => False
  end.
Proof.
  intros Hm. unfold binary_round_aux.
  pose proof (shr_fexp_nonneg mx ex lx Hm) as H1.
  destruct (shr_fexp prec emax mx ex lx) as [mrs' e'] eqn:E1. simpl in H1.
  pose proof (round_nearest_even_nonneg (shr_m mrs') (loc_of_shr_record mrs') H1) as H2.
  pose proof (shr_fexp_nonneg _ e' loc_Exact H2) as H3.
  destruct (shr_fexp prec emax _ e' loc_Exact) as [mrs'' e''] eqn:E2. simpl in H3.
  destruct (shr_m mrs'') as [|p|p]; [reflexivity | | lia].
  destruct (e'' <=? emax - prec); reflexivity.
Qed.

(** A zero is not above the square of a positive radius, as binary64
    computes it. *)
Lemma binary64_zero_below_square (z r : float) :
  PrimFloat.eqb z 0 = true -> PrimFloat.ltb 0 r = true ->
  PrimFloat.leb z (r * r) = true.
Proof.
  rewrite FloatAxioms.eqb_spec, ltb_spec, leb_spec, mul_spec.
  change (Prim2SF 0) with (S754_zero false).
  destruct (Prim2SF z) as [sz | sz | | sz mz ez]; try destruct sz; try discriminate;
    intros _;
    (destruct (Prim2SF r) as [s | s | | s m e]; try destruct s; try discriminate;
     intros _; [reflexivity|];
     unfold SF64mul, SFmul; cbn [xorb];
     pose proof (binary_round_aux_sign false (Z.pos (m * m)) (e + e) loc_Exact
                   ltac:(lia)) as Hs;
     destruct (binary_round_aux _ _ _ _ _ _) as [s | s | | s m' e']; try subst s;
     [reflexivity | reflexivity | contradiction | reflexivity]).
Qed.

Lemma binary64_sub_diag (a : float) : binary64_finite a -> (a - a)%float = 0%float.
Proof.
  unfold binary64_finite. intros Hfin. apply Prim2SF_inj. rewrite sub_spec.
  change (Prim2SF 0) with (S754_zero false).
  destruct (Prim2SF a) as [s | s | | s m e]; try contradiction.
  - destruct s; reflexivity.
  - unfold SF64sub, SFsub. rewrite Z.sub_diag. reflexivity.
Qed.

(** The squared distance of a point of finite coordinates from itself is
    computed as zero. *)
Lemma binary64_distance_of_equal_points (p : list float) :
  Forall binary64_finite p -> euclidean_distance_sqrt p p = 0%float.
Proof.
  unfold euclidean_distance_sqrt. induction 1 as [|a p Ha _ IH]; simpl.
  - reflexivity.
  - rewrite (binary64_sub_diag a Ha). exact IH.
Qed.

Lemma SFcompare_antisym (x y : spec_float) :
  SFcompare x y = Some Lt -> SFcompare y x = Some Gt.
Proof.
  destruct x as [sx | sx | | sx mx ex], y as [sy | sy | | sy my ey]; simpl;
    try destruct sx; try destruct sy; try discriminate; try reflexivity.
  - rewrite (Z.compare_antisym ex ey).
    pose proof (Pos.compare_cont_antisym mx my Eq) as Hm. simpl in Hm. rewrite <- Hm.
    destruct (ex ?= ey); simpl; [|discriminate|reflexivity].
    destruct (Pos.compare_cont Eq mx my); simpl; try discriminate; reflexivity.
  - rewrite (Z.compare_antisym ex ey).
    pose proof (Pos.compare_cont_antisym mx my Eq) as Hm. simpl in Hm. rewrite <- Hm.
    destruct (ex ?= ey); simpl; [|reflexivity|discriminate].
    destruct (Pos.compare_cont Eq mx my); simpl; try discriminate; reflexivity.
Qed.

Lemma binary64_above_not_below (x y : float) :
  PrimFloat.ltb x y = true -> PrimFloat.leb y x = false.
Proof.
  rewrite ltb_spec, leb_spec. unfold SFltb, SFleb. intros Hlt.
  destruct (SFcompare (Prim2SF x) (Prim2SF y)) as [[]|] eqn:Hc; try discriminate.
  rewrite (SFcompare_antisym _ _ Hc). reflexivity.
Qed.

Lemma radius_builder_in_binary64
    (maximum_matrix : Z) (input_data : list (list float)) (connectivity_radius : float)
    (enable_conn_weight : bool) (drawn_phases : list float) :
  exists s,
    syncnet_new maximum_matrix input_data connectivity_radius enable_conn_weight
                drawn_phases = Ok s
    /\ oscillator_locations s = input_data
    /\ num_osc (base s) = to_unsigned (Z.of_nat (length input_data))
    /\ forall i j,
         0 <= i < j /\ j < num_osc (base s) ->
         (PrimFloat.ltb (connectivity_radius * connectivity_radius)
                        (location_distance s i j) = true ->
          get_connection (base s) i j = 0 /\ get_connection (base s) j i = 0)
         /\ (PrimFloat.ltb 0 connectivity_radius = true ->
             PrimFloat.eqb (location_distance s i j) 0 = true ->
             get_connection (base s) i j = 1 /\ get_connection (base s) j i = 1)
         /\ (PrimFloat.ltb 0 connectivity_radius = true ->
             location s i = location s j -> Forall binary64_finite (location s i) ->
             get_connection (base s) i j = 1 /\ get_connection (base s) j i = 1).
Proof.
  destruct (radius_builder_pair_test maximum_matrix input_data connectivity_radius
              enable_conn_weight drawn_phases) as (s & Hnew & Hloc & Hnum & Hpairs).
  exists s. split; [exact Hnew|]. split; [exact Hloc|]. split; [exact Hnum|].
  intros i j Hij. destruct (Hpairs i j Hij) as (Hiff & Hsym).
  assert (PrimFloat.ltb 0 connectivity_radius = true ->
          PrimFloat.eqb (location_distance s i j) 0 = true ->
          get_connection (base s) i j = 1 /\ get_connection (base s) j i = 1) as Hzero.
  { intros Hr Hd.
    assert (get_connection (base s) i j = 1) as Hyes.
    { apply Hiff. exact (binary64_zero_below_square _ connectivity_radius Hd Hr). }
    rewrite Hsym. split; exact Hyes. }
  split; [|split].
  - intros Hfar. apply binary64_above_not_below in Hfar.
    assert (get_connection (base s) i j = 0) as Hno.
    { unfold get_connection in *. destruct (bool_decide _); [|reflexivity].
      destruct Hiff as (Hfwd & _). specialize (Hfwd eq_refl).
      discriminate (eq_trans (eq_sym Hfar) Hfwd). }
    rewrite Hsym. split; exact Hno.
  - exact Hzero.
  - intros Hr Hsame Hfin. apply Hzero; [exact Hr|].
    unfold location_distance. rewrite <- Hsame.
    rewrite (binary64_distance_of_equal_points _ Hfin). reflexivity.
Qed.

(** C4, as amended.  The radius-based builder always returns a network.
    In any arithmetic of [double], the two oscillators of a pair are
    connected if and only if the squared Euclidean distance of their
    locations, as the builder computes it, is [<=] the squared radius, as
    the builder computes it, and both directions are set alike.  Over the
    reals this is: two distinct oscillators are connected if and only if
    their squared distance is at most the squared radius; so two points
    whose squared distance exceeds the squared radius are not connected,
    which for a radius that is not negative (the radius of the interface
    is a real >= 0) says that two points farther apart than the radius are
    not connected; and two points at distance 0 are connected when the
    radius is positive.  In binary64: two oscillators whose computed
    squared distance is above the computed squared radius are not
    connected; two oscillators whose computed squared distance is zero
    are connected when the radius is positive; and the computed squared
    distance is zero for two oscillators at the same point of finite
    coordinates, which are therefore connected when the radius is
    positive. *)
Theorem radius_builder_connects_within_radius :
  (forall (D : Type) (ops : DoubleOps D)
          (maximum_matrix : Z) (input_data : list (list D)) (connectivity_radius : D)
          (enable_conn_weight : bool) (drawn_phases : list D),
     exists s,
       syncnet_new maximum_matrix input_data connectivity_radius enable_conn_weight
                   drawn_phases = Ok s
       /\ oscillator_locations s = input_data
       /\ num_osc (base s) = to_unsigned (Z.of_nat (length input_data))
       /\ forall i j,
            0 <= i < j /\ j < num_osc (base s) ->
            (get_connection (base s) i j = 1
             <-> d_leb (location_distance s i j)
                       (d_mul connectivity_radius connectivity_radius) = true)
            /\ get_connection (base s) j i = get_connection (base s) i j)
  /\ (forall (maximum_matrix : Z) (input_data : list (list R)) (connectivity_radius : R)
             (enable_conn_weight : bool) (drawn_phases : list R),
        exists s,
          syncnet_new maximum_matrix input_data connectivity_radius enable_conn_weight
                      drawn_phases = Ok s
          /\ oscillator_locations s = input_data
          /\ num_osc (base s) = to_unsigned (Z.of_nat (length input_data))
          /\ forall i j,
               0 <= i < num_osc (base s) -> 0 <= j < num_osc (base s) -> i <> j ->
               (get_connection (base s) i j = 1
                <-> (location_distance s i j
                     <= connectivity_radius * connectivity_radius)%R)
               /\ get_connection (base s) j i = get_connection (base s) i j
               /\ ((connectivity_radius * connectivity_radius
                    < location_distance s i j)%R ->
                   get_connection (base s) i j = 0)
               /\ ((0 <= connectivity_radius)%R ->
                   (connectivity_radius < sqrt (location_distance s i j))%R ->
                   get_connection (base s) i j = 0)
               /\ ((0 < connectivity_radius)%R -> location_distance s i j = 0%R ->
                   get_connection (base s) i j = 1))
  /\ (forall (maximum_matrix : Z) (input_data : list (list float))
             (connectivity_radius : float) (enable_conn_weight : bool)
             (drawn_phases : list float),
        exists s,
          syncnet_new maximum_matrix input_data connectivity_radius enable_conn_weight
                      drawn_phases = Ok s
          /\ oscillator_locations s = input_data
          /\ num_osc (base s) = to_unsigned (Z.of_nat (length input_data))
          /\ forall i j,
               0 <= i < j /\ j < num_osc (base s) ->
               (PrimFloat.ltb (connectivity_radius * connectivity_radius)
                              (location_distance s i j) = true ->
                get_connection (base s) i j = 0 /\ get_connection (base s) j i = 0)
               /\ (PrimFloat.ltb 0 connectivity_radius = true ->
                   PrimFloat.eqb (location_distance s i j) 0 = true ->
                   get_connection (base s) i j = 1 /\ get_connection (base s) j i = 1)
               /\ (PrimFloat.ltb 0 connectivity_radius = true ->
                   location s i = location s j ->
                   Forall binary64_finite (location s i) ->
                   get_connection (base s) i j = 1 /\ get_connection (base s) j i = 1)).
Proof.
  split; [|split].
  - intros D ops. apply radius_builder_pair_test.
  - apply radius_builder_over_reals.
  - apply radius_builder_in_binary64.
Qed.

(** Over the reals, two points at distance 3 and a radius of 1: no
    connection.  In binary64, the points (1.5, -2) twice and a radius of
    0.5: connected both ways. *)
Lemma radius_builder_connects_within_radius_witness :
  (exists s,
     syncnet_new 4096 [[0%R]; [3%R]] 1%R false [] = Ok s
     /\ get_connection (base s) 0 1 = 0)
  /\ (exists s,
        syncnet_new 4096 [[1.5; -2]; [1.5; -2]]%float 0.5%float false [] = Ok s
        /\ get_connection (base s) 0 1 = 1 /\ get_connection (base s) 1 0 = 1).
Proof.
  split.
  - destruct (proj1 (proj2 radius_builder_connects_within_radius)
                4096 [[0%R]; [3%R]] 1%R false [])
      as (s & Hnew & Hloc & Hnum & Hpairs).
    exists s. split; [exact Hnew|].
    assert (num_osc (base s) = 2) as Hn by (rewrite Hnum; reflexivity).
    destruct (Hpairs 0 1) as (_ & _ & _ & Hfar & _); [lia | lia | lia |].
    apply Hfar; [lra|].
    unfold location_distance, location. rewrite Hloc. simpl.
    change (euclidean_distance_sqrt [0%R] [3%R]) with (0 + (0 - 3) * (0 - 3))%R.
    replace (0 + (0 - 3) * (0 - 3))%R with (3 * 3)%R by ring.
    rewrite sqrt_square by lra. lra.
  - destruct (proj2 (proj2 radius_builder_connects_within_radius)
                4096 [[1.5; -2]; [1.5; -2]]%float 0.5%float false [])
      as (s & Hnew & Hloc & Hnum & Hpairs).
    exists s. split; [exact Hnew|].
    assert (num_osc (base s) = 2) as Hn by (rewrite Hnum; reflexivity).
    destruct (Hpairs 0 1) as (_ & _ & Hsame); [lia|].
    apply Hsame.
    + reflexivity.
    + unfold location. rewrite Hloc. reflexivity.
    + unfold location. rewrite Hloc. simpl.
      repeat constructor.
Defined.

(** C4, the claim as stated fails, evaluated in binary64.  The points 1
    and -2^-60 are 1 + 2^-60 apart, farther than the radius 1, and their
    squared distance exceeds the squared radius; the builder computes the
    squared distance as 1, the squared radius as 1, and connects the two
    oscillators in both directions. *)
Lemma radius_builder_connects_beyond_radius :
  binary64_value 1%float = 1%R
  /\ binary64_value (-0x1p-60)%float = (- / IZR (2 ^ 60))%R
  /\ (binary64_value 1%float
      < Rabs (binary64_value 1%float - binary64_value (-0x1p-60)%float))%R
  /\ (binary64_value 1%float * binary64_value 1%float
      < (binary64_value 1%float - binary64_value (-0x1p-60)%float)
        * (binary64_value 1%float - binary64_value (-0x1p-60)%float))%R
  /\ exists s,
       syncnet_new 4096 [[1]; [-0x1p-60]]%float 1%float false [] = Ok s
       /\ location_distance s 0 1 = 1%float
       /\ (1 * 1)%float = 1%float
       /\ get_connection (base s) 0 1 = 1
       /\ get_connection (base s) 1 0 = 1.
Proof.
  assert (binary64_value 1%float = 1%R) as Hone.
  { unfold binary64_value.
    change (Prim2SF 1) with (S754_finite false 4503599627370496 (-52)).
    cbv beta iota.
    change (cond_Zopp false 4503599627370496) with 4503599627370496.
    change (powerRZ 2 (-52)) with (/ powerRZ 2 52)%R.
    rewrite <- (Zpower_pos_powerRZ 2 52).
    change (Z.pow_pos 2 52) with 4503599627370496. field. }
  assert (binary64_value (-0x1p-60)%float = (- / IZR (2 ^ 60))%R) as Hnear.
  { unfold binary64_value.
    change (Prim2SF (-0x1p-60)) with (S754_finite true 4503599627370496 (-112)).
    cbv beta iota.
    change (cond_Zopp true 4503599627370496) with (-4503599627370496).
    change (powerRZ 2 (-112)) with (/ powerRZ 2 112)%R.
    rewrite <- (Zpower_pos_powerRZ 2 112).
    change (Z.pow_pos 2 112) with 5192296858534827628530496329220096.
    change (2 ^ 60) with 1152921504606846976.
    field. }
  assert (0 < / IZR (2 ^ 60))%R as Hpos.
  { apply Rinv_0_lt_compat, IZR_lt. reflexivity. }
  split; [exact Hone|]. split; [exact Hnear|]. rewrite Hone, Hnear.
  split; [|split].
  - rewrite Rabs_pos_eq; lra.
  - nra.
  - eexists. split; [vm_compute; reflexivity|].
    repeat split; vm_compute; reflexivity.
Qed.

(** ** The Kuramoto phase law *)

Lemma st_for_each_reads {S A : Type} (step : S -> Z -> A -> A)
    (body : Z -> A -> state S A) (l : list Z) (acc : A) (s : S) :
  (forall i a s', body i a s' = (step s' i a, s')) ->
  st_for_each l body acc s = (foldl (fun a i => step s i a) acc l, s).
Proof.
  intros Hbody. revert acc. induction l as [|i l IH]; intros acc; simpl.
  - reflexivity.
  - unfold st_bind. rewrite Hbody. apply IH.
Qed.

Lemma count_selected {A : Type} (selected : Z -> Prop) `{!forall k, Decision (selected k)}
    (add : A -> Z -> A) (l : list Z) (acc : A) (count : Z) :
  0 <= count -> count + Z.of_nat (length l) < 2 ^ 32 ->
  foldl (fun (ac : A * Z) k =>
           let '(a, c) := ac in
           if decide (selected k) then (add a k, to_unsigned (c + 1)) else (a, c))
        (acc, count) l
  = (foldl add acc (filter selected l), count + Z.of_nat (length (filter selected l))).
Proof.
  revert acc count. induction l as [|k l IH]; intros acc count Hc Hlen; simpl.
  - f_equal. lia.
  - simpl in Hlen. rewrite filter_cons. destruct (decide (selected k)).
    + rewrite to_unsigned_small by lia. rewrite IH by lia. simpl. f_equal. lia.
    + rewrite IH by lia. reflexivity.
Qed.

Section Kuramoto.

Context {D : Type} `{DoubleOps D}.
Variable d_sin : D -> D.

#[local] Abbreviation kuramoto_term := (kuramoto_term d_sin).

Lemma phase_kuramoto_run (s : syncnet D) (t teta : D) (index : Z) :
  0 <= num_osc (base s) < 2 ^ 32 ->
  phase_kuramoto d_sin t teta index s
  = (d_div (d_mul (foldl (fun phase k => d_add phase (kuramoto_term s teta index k))
                         d_zero (get_neighbors (base s) index))
                  (weight s))
           (d_of_uint (neighbour_divisor s index)),
     s).
Proof.
  intros Hn. unfold phase_kuramoto, st_bind, st_gets, st_for_loop.
  assert (length (seqZ 0 (num_osc (base s) - 0)) = Z.to_nat (num_osc (base s))) as Hlen
    by (rewrite length_seqZ; f_equal; lia).
  unfold kuramoto_term, neighbour_divisor, get_neighbors.
  replace (seqZ 0 (num_osc (base s))) with (seqZ 0 (num_osc (base s) - 0))
    by (f_equal; lia).
  destruct (distance_conn_weights s) as [w|] eqn:Hw.
  - rewrite (st_for_each_reads
               (fun s' k '(phase, num_neighbors) =>
                  if decide (0 < get_connection (base s') index k)
                  then (d_add phase (d_mul (weight_at s' index k)
                                           (d_sin (d_sub (phase_at s' k) teta))),
                        to_unsigned (num_neighbors + 1))
                  else (phase, num_neighbors))).
    + rewrite (count_selected (fun k : Z => 0 < get_connection (base s) index k)
                 (fun phase k => d_add phase (d_mul (weight_at s index k)
                                                    (d_sin (d_sub (phase_at s k) teta)))))
        by (rewrite ?Hlen; lia).
      unfold st_ret. reflexivity.
    + intros k [phase num_neighbors] s'. unfold st_bind, st_gets, st_ret.
      destruct (Z.ltb_spec 0 (get_connection (base s') index k)).
      * rewrite decide_True by assumption. reflexivity.
      * rewrite decide_False by lia. reflexivity.
  - rewrite (st_for_each_reads
               (fun s' k '(phase, num_neighbors) =>
                  if decide (0 < get_connection (base s') index k)
                  then (d_add phase (d_sin (d_sub (phase_at s' k) teta)),
                        to_unsigned (num_neighbors + 1))
                  else (phase, num_neighbors))).
    + rewrite (count_selected (fun k : Z => 0 < get_connection (base s) index k)
                 (fun phase k => d_add phase (d_sin (d_sub (phase_at s k) teta))))
        by (rewrite ?Hlen; lia).
      unfold st_ret. reflexivity.
    + intros k [phase num_neighbors] s'. unfold st_bind, st_gets, st_ret.
      destruct (Z.ltb_spec 0 (get_connection (base s') index k)).
      * rewrite decide_True by assumption. reflexivity.
      * rewrite decide_False by lia. reflexivity.
Qed.

End Kuramoto.

(** C10.  A call of the Kuramoto phase derivative returns a value and
    leaves the whole object as it was: the returned state is the state
    the call started from, with its oscillators, its connections and its
    weight matrix. *)
Theorem phase_kuramoto_leaves_network_unchanged {D : Type} `{DoubleOps D}
    (d_sin : D -> D) (t teta : D) (index : Z) (s : syncnet D) :
  exists value, phase_kuramoto d_sin t teta index s = (value, s).
Proof.
  unfold phase_kuramoto, st_bind, st_gets, st_for_loop.
  destruct (distance_conn_weights s) as [w|].
  - rewrite (st_for_each_reads
               (fun s' k '(phase, num_neighbors) =>
                  if 0 <? get_connection (base s') index k
                  then (d_add phase (d_mul (weight_at s' index k)
                                           (d_sin (d_sub (phase_at s' k) teta))),
                        to_unsigned (num_neighbors + 1))
                  else (phase, num_neighbors))).
    + destruct (foldl _ _ _) as [phase num_neighbors]. unfold st_ret. eauto.
    + intros k [phase num_neighbors] s'. unfold st_bind, st_gets, st_ret.
      destruct (0 <? get_connection (base s') index k); reflexivity.
  - rewrite (st_for_each_reads
               (fun s' k '(phase, num_neighbors) =>
                  if 0 <? get_connection (base s') index k
                  then (d_add phase (d_sin (d_sub (phase_at s' k) teta)),
                        to_unsigned (num_neighbors + 1))
                  else (phase, num_neighbors))).
    + destruct (foldl _ _ _) as [phase num_neighbors]. unfold st_ret. eauto.
    + intros k [phase num_neighbors] s'. unfold st_bind, st_gets, st_ret.
      destruct (0 <? get_connection (base s') index k); reflexivity.
Qed.

(** ** The phase law over the reals *)

Lemma foldl_Rplus (f : Z -> R) (l : list Z) (acc : R) :
  foldl (fun phase k => (phase + f k)%R) acc l = (acc + Rsum (f <$> l))%R.
Proof.
  revert acc. induction l as [|k l IH]; intros acc.
  - simpl. ring.
  - rewrite fmap_cons. cbn [foldl Rsum foldr]. rewrite IH. unfold Rsum. ring.
Qed.

Lemma phase_kuramoto_over_reals (s : syncnet R) (t teta : R) (index : Z) :
  0 <= num_osc (base s) < 2 ^ 32 ->
  let neighbours := get_neighbors (base s) index in
  let num_neighbors :=
    match neighbours with
    | [] => 1
    | _ :: _ => Z.of_nat (length neighbours)
    end in
  fst (phase_kuramoto sin t teta index s)
  = (weight s / IZR num_neighbors
     * Rsum ((fun k => edge_weight s index k * sin (phase_at s k - teta)) <$> neighbours))%R.
Proof.
  intros Hn neighbours num_neighbors.
  rewrite (phase_kuramoto_run sin s t teta index Hn). simpl fst.
  fold neighbours. cbn [d_add d_mul d_div d_zero d_of_uint real_ops].
  rewrite (foldl_Rplus (kuramoto_term sin s teta index)).
  assert (neighbour_divisor s index = num_neighbors) as ->.
  { unfold neighbour_divisor, num_neighbors. fold neighbours.
    destruct neighbours; reflexivity. }
  assert (1 <= num_neighbors) as Hpos.
  { unfold num_neighbors. destruct neighbours; simpl length; lia. }
  assert (IZR num_neighbors <> 0%R) as Hnz.
  { apply not_0_IZR. lia. }
  assert ((kuramoto_term sin s teta index <$> neighbours)
          = ((fun k => edge_weight s index k * sin (phase_at s k - teta))%R <$> neighbours))
    as ->.
  { apply list_fmap_ext. intros _ k _. unfold kuramoto_term, edge_weight, weight_at.
    destruct (distance_conn_weights s); simpl; [reflexivity | ring]. }
  field. exact Hnz.
Qed.

(** C5.  For every oscillator [index] and phase [teta] the Kuramoto
    phase derivative returns, in any arithmetic of [double],
    (sum * weight) / numNeighbors, the sum taken in ascending order over
    the connected neighbours k of edgeWeight(index, k) * sin(phase(k) - teta),
    phase(k) being the phase stored for oscillator k and edgeWeight(index, k)
    the entry [index][k] of the weight matrix when the matrix is present,
    and of sin(phase(k) - teta) alone when it is absent, numNeighbors
    being the number of neighbours, replaced by 1 when there is none.
    Over the reals this is (weight / numNeighbors) * sum of
    edgeWeight(index, k) * sin(phase(k) - teta), edgeWeight being 1 without
    the matrix. *)
Theorem phase_kuramoto_formula :
  (forall (D : Type) (ops : DoubleOps D) (d_sin : D -> D)
          (s : syncnet D) (t teta : D) (index : Z),
     0 <= num_osc (base s) < 2 ^ 32 ->
     let neighbours := get_neighbors (base s) index in
     let num_neighbors :=
       match neighbours with
       | [] => 1
       | _ :: _ => Z.of_nat (length neighbours)
       end in
     let phase_of := fun k : Z =>
       match oscillators s !! Z.to_nat k with
       | Some oscillator => phase oscillator
       | None => d_zero
       end in
     let term := fun k : Z =>
       match distance_conn_weights s with
       | Some w =>
           d_mul (default d_zero (w !! Z.to_nat index ≫= fun row => row !! Z.to_nat k))
                 (d_sin (d_sub (phase_of k) teta))
       | None => d_sin (d_sub (phase_of k) teta)
       end in
     fst (phase_kuramoto d_sin t teta index s)
     = d_div (d_mul (foldl (fun sum k => d_add sum (term k)) d_zero neighbours)
                    (weight s))
             (d_of_uint num_neighbors))
  /\ (forall (s : syncnet R) (t teta : R) (index : Z),
        0 <= num_osc (base s) < 2 ^ 32 ->
        let neighbours := get_neighbors (base s) index in
        let num_neighbors :=
          match neighbours with
          | [] => 1
          | _ :: _ => Z.of_nat (length neighbours)
          end in
        let phase_of := fun k : Z =>
          match oscillators s !! Z.to_nat k with
          | Some oscillator => phase oscillator
          | None => 0%R
          end in
        let edge_weight_of := fun k : Z =>
          match distance_conn_weights s with
          | Some w => default 0%R (w !! Z.to_nat index ≫= fun row => row !! Z.to_nat k)
          | None => 1%R
          end in
        fst (phase_kuramoto sin t teta index s)
        = (weight s / IZR num_neighbors
           * Rsum ((fun k => edge_weight_of k * sin (phase_of k - teta)) <$> neighbours))%R).
Proof.
  split.
  - intros D ops d_sin s t teta index Hn neighbours num_neighbors phase_of term.
    rewrite (phase_kuramoto_run d_sin s t teta index Hn). cbn [fst].
    assert (neighbour_divisor s index = num_neighbors) as ->.
    { unfold neighbour_divisor, num_neighbors. fold neighbours.
      destruct neighbours; reflexivity. }
    unfold term, phase_of, neighbours, kuramoto_term, weight_at, phase_at, matrix_get.
    destruct (distance_conn_weights s); reflexivity.
  - exact phase_kuramoto_over_reals.
Qed.

(** Three oscillators with the phases 0, 1 and 2, the first connected to
    the two others, coupling weight 1.  Over the reals: without weights;
    with the weights 1/4 and 1/2 of the two connections and [teta] 1/2;
    and for the second oscillator, which has no neighbour.  In binary64,
    with the identity in the place of the sine, a coupling weight of 2,
    the weights 0.5 and 0.25 and [teta] 0.5. *)
Lemma phase_kuramoto_formula_witness :
  fst (phase_kuramoto sin 0%R 0%R 0 (three_oscillators [0; 1; 2]%R None))
  = (1 / 2 * (1 * sin (1 - 0) + (1 * sin (2 - 0) + 0)))%R
  /\ fst (phase_kuramoto sin 0%R (1 / 2)%R 0
            (three_oscillators [0; 1; 2]%R
               (Some [[0; 1 / 4; 1 / 2]; [1 / 4; 0; 1]; [1 / 2; 1; 0]]%R)))
     = (1 / 2 * (1 / 4 * sin (1 - 1 / 2) + (1 / 2 * sin (2 - 1 / 2) + 0)))%R
  /\ fst (phase_kuramoto sin 0%R 0%R 1 (three_oscillators [0; 1; 2]%R None))
     = (1 / 1 * 0)%R
  /\ fst (phase_kuramoto (fun x => x) 0%float 0.5%float 0
            {| base := {| num_osc := 3;
                          conn_representation := MATRIX_CONN_REPRESENTATION;
                          row_elements := 3;
                          osc_conn := {[ (0, 1) ]} ∪ {[ (0, 2) ]} |};
               oscillators := [mk_oscillator 0; mk_oscillator 1; mk_oscillator 2]%float;
               weight := 2%float;
               oscillator_locations := [[0]; [1]; [3]]%float;
               distance_conn_weights :=
                 Some [[0; 0.5; 0.25]; [0.5; 0; 1]; [0.25; 1; 0]]%float |})
     = 0.625%float.
Proof.
  assert (0 <= 3 < 2 ^ 32) as Hn by (pow_numerals; lia).
  split; [|split; [|split]].
  - exact (proj2 phase_kuramoto_formula (three_oscillators [0; 1; 2]%R None)
             0%R 0%R 0 Hn).
  - exact (proj2 phase_kuramoto_formula
             (three_oscillators [0; 1; 2]%R
                (Some [[0; 1 / 4; 1 / 2]; [1 / 4; 0; 1]; [1 / 2; 1; 0]]%R))
             0%R (1 / 2)%R 0 Hn).
  - exact (proj2 phase_kuramoto_formula (three_oscillators [0; 1; 2]%R None)
             0%R 0%R 1 Hn).
  - match goal with
    | |- fst (phase_kuramoto _ _ _ _ ?s) = _ =>
        refine (eq_trans (proj1 phase_kuramoto_formula float binary64_ops (fun x => x)
                            s 0%float 0.5%float 0 Hn) _)
    end.
    vm_compute. reflexivity.
Defined.

(** * Further properties of the code *)

(** ** Neighbour lists *)

Lemma ascending_seqZ (m n : Z) : ascending (seqZ m n).
Proof.
  unfold ascending. remember (Z.to_nat n) as len eqn:Hlen. revert m n Hlen.
  induction len as [|len IH]; intros m n Hlen.
  - rewrite seqZ_nil by lia. constructor.
  - rewrite seqZ_cons by lia. constructor.
    + apply IH. lia.
    + apply Forall_seqZ. lia.
Qed.

Lemma ascending_filter (P : Z -> Prop) `{!forall x, Decision (P x)} (l : list Z) :
  ascending l -> ascending (filter P l).
Proof.
  unfold ascending. induction 1 as [|a l Hl IH Ha]; [constructor|].
  rewrite filter_cons. destruct (decide (P a)); [|exact IH].
  constructor; [exact IH|]. rewrite Forall_forall in *.
  intros x Hx. apply list_elem_of_filter in Hx as [_ Hx]. auto.
Qed.

Lemma ascending_app (l1 l2 : list Z) :
  ascending l1 -> ascending l2 -> (forall x y, x ∈ l1 -> y ∈ l2 -> x < y) ->
  ascending (l1 ++ l2).
Proof.
  unfold ascending. intros H1 H2 Hlt. induction H1 as [|a l Hl IH Ha]; [exact H2|].
  simpl. constructor.
  - apply IH. intros x y Hx. apply Hlt. now right.
  - apply Forall_app. split; [exact Ha|]. apply Forall_forall.
    intros y Hy. apply Hlt; [left | exact Hy].
Qed.

Lemma ascending_ext (l1 l2 : list Z) :
  ascending l1 -> ascending l2 -> (forall x, x ∈ l1 <-> x ∈ l2) -> l1 = l2.
Proof.
  unfold ascending. intros H1. revert l2.
  induction H1 as [|a l1 Hl1 IH Ha]; intros l2 H2 Hext.
  - destruct l2 as [|b l2]; [reflexivity|].
    exfalso. apply (not_elem_of_nil b), Hext. left.
  - destruct H2 as [|b l2 Hl2 Hb].
    + exfalso. apply (not_elem_of_nil a), Hext. left.
    + rewrite Forall_forall in Ha, Hb.
      assert (a = b) as ->.
      { assert (a ∈ b :: l2) as Hab by (apply Hext; left).
        assert (b ∈ a :: l1) as Hba by (apply Hext; left).
        apply elem_of_cons in Hab as [-> | Hab]; [reflexivity|].
        apply elem_of_cons in Hba as [-> | Hba]; [reflexivity|].
        apply Ha in Hba. apply Hb in Hab. lia. }
      f_equal. apply IH; [exact Hl2|]. intros x. split; intros Hx.
      * assert (x ∈ b :: l2) as Hx' by (apply Hext; now right).
        apply elem_of_cons in Hx' as [-> | Hx']; [|exact Hx'].
        apply Ha in Hx. lia.
      * assert (x ∈ b :: l1) as Hx' by (apply Hext; now right).
        apply elem_of_cons in Hx' as [-> | Hx']; [|exact Hx'].
        apply Hb in Hx. lia.
Qed.

Lemma get_neighbors_ascending_list (net : network) (i : Z) : ascending (get_neighbors net i).
Proof. unfold get_neighbors. apply ascending_filter, ascending_seqZ. Qed.

Lemma get_neighbors_eq (net : network) (i : Z) (l : list Z) :
  ascending l ->
  (forall j, j ∈ l <-> is_edge net i j /\ 0 <= j < num_osc net) ->
  get_neighbors net i = l.
Proof.
  intros Hl Hmem. apply ascending_ext; [apply get_neighbors_ascending_list | exact Hl |].
  intros j. rewrite elem_of_get_neighbors, Hmem. tauto.
Qed.

(** X1.  [get_neighbors] lists the neighbours of an oscillator in strictly
    ascending order, so none twice: the list holds exactly the indices
    [k] below [num_osc] with [get_connection(index, k) > 0], and it is
    never longer than [num_osc]. *)
Theorem get_neighbors_in_ascending_order (net : network) (index : Z) :
  ascending (get_neighbors net index)
  /\ (forall k, k ∈ get_neighbors net index
                <-> 0 <= k < num_osc net /\ 0 < get_connection net index k)
  /\ Z.of_nat (length (get_neighbors net index)) <= Z.max 0 (num_osc net).
Proof.
  split; [apply get_neighbors_ascending_list|]. split.
  - intros k. unfold get_neighbors. rewrite list_elem_of_filter, elem_of_seqZ. lia.
  - unfold get_neighbors.
    pose proof (length_filter (fun k => 0 < get_connection net index k)
                  (seqZ 0 (num_osc net))) as Hlen.
    rewrite length_seqZ in Hlen. lia.
Qed.

Lemma network_new_all_to_all (maximum_matrix n : Z) :
  0 <= n < 2 ^ 32 ->
  exists net, network_new maximum_matrix n ALL_TO_ALL = Ok net
    /\ num_osc net = n
    /\ forall a b, is_edge net a b <-> 0 <= a < n /\ 0 <= b < n /\ a <> b.
Proof.
  intros Hn. rewrite network_new_allocated. simpl.
  destruct (all_to_all_edges (allocated maximum_matrix n) Hn) as (E & -> & HE).
  eexists. split; [reflexivity|]. split; [reflexivity|].
  intros a b. rewrite is_edge_allocated. apply HE.
Qed.

Lemma network_new_list_bidir (maximum_matrix n : Z) :
  0 <= n < 2 ^ 32 ->
  exists net, network_new maximum_matrix n LIST_BIDIR = Ok net
    /\ num_osc net = n
    /\ forall a b, is_edge net a b <->
         1 <= a < n /\ (b = a - 1 \/ (b = a + 1 /\ a + 1 < n)).
Proof.
  intros Hn. rewrite network_new_allocated. simpl.
  destruct (list_bidir_edges (allocated maximum_matrix n) Hn) as (E & -> & HE).
  eexists. split; [reflexivity|]. split; [reflexivity|].
  intros a b. rewrite is_edge_allocated. apply HE.
Qed.

Lemma get_connection_bit (net : network) (a b : Z) :
  get_connection net a b = 1 \/ get_connection net a b = 0.
Proof. unfold get_connection. destruct (bool_decide _); auto. Qed.

Lemma get_connection_sym (net : network) :
  (forall a b, is_edge net a b -> is_edge net b a) ->
  forall a b, get_connection net a b = get_connection net b a.
Proof.
  intros Hsym a b.
  destruct (get_connection_bit net a b) as [Hab | Hab],
    (get_connection_bit net b a) as [Hba | Hba]; try congruence; exfalso.
  - apply get_connection_edge, Hsym, get_connection_edge in Hab. congruence.
  - apply get_connection_edge, Hsym, get_connection_edge in Hba. congruence.
Qed.

(** X2.  ALL_TO_ALL builds the complete graph on every 32-bit oscillator
    count: two indices are connected exactly when they are two distinct
    oscillators of the network, and [get_neighbors] of an oscillator lists
    all the others in order, [n - 1] of them. *)
Theorem all_to_all_is_complete_graph (maximum_matrix n : Z) :
  0 <= n < 2 ^ 32 ->
  exists net,
    network_new maximum_matrix n ALL_TO_ALL = Ok net
    /\ (forall a b, get_connection net a b = 1 <-> 0 <= a < n /\ 0 <= b < n /\ a <> b)
    /\ (forall i, 0 <= i < n ->
          get_neighbors net i = seqZ 0 i ++ seqZ (i + 1) (n - (i + 1))
          /\ Z.of_nat (length (get_neighbors net i)) = n - 1).
Proof.
  intros Hn. destruct (network_new_all_to_all maximum_matrix n Hn) as (net & Hnew & Hnum & HE).
  exists net. split; [exact Hnew|]. split.
  - intros a b. rewrite get_connection_edge. apply HE.
  - intros i Hi.
    assert (get_neighbors net i = seqZ 0 i ++ seqZ (i + 1) (n - (i + 1))) as ->.
    { apply get_neighbors_eq.
      - apply ascending_app; [apply ascending_seqZ ..|].
        intros x y. rewrite !elem_of_seqZ. lia.
      - intros j. rewrite elem_of_app, !elem_of_seqZ, HE, Hnum. lia. }
    split; [reflexivity|]. rewrite length_app, !length_seqZ. lia.
Qed.

Lemma all_to_all_is_complete_graph_witness :
  exists net,
    network_new 4096 5 ALL_TO_ALL = Ok net
    /\ (forall a b, get_connection net a b = 1 <-> 0 <= a < 5 /\ 0 <= b < 5 /\ a <> b)
    /\ (forall i, 0 <= i < 5 ->
          get_neighbors net i = seqZ 0 i ++ seqZ (i + 1) (5 - (i + 1))
          /\ Z.of_nat (length (get_neighbors net i)) = 5 - 1).
Proof. apply (all_to_all_is_complete_graph 4096 5). pow_numerals; lia. Defined.

(** X3.  LIST_BIDIR, on every 32-bit oscillator count, connects every
    index from 1 on to its predecessor and every index from 1 on that has
    a successor to it, and nothing else: oscillator 0 starts no
    connection, and the only connection without its reverse is 1 -> 0
    (there is one as soon as the network has two oscillators). *)
Theorem list_bidir_connections (maximum_matrix n : Z) :
  0 <= n < 2 ^ 32 ->
  exists net,
    network_new maximum_matrix n LIST_BIDIR = Ok net
    /\ (forall a b, get_connection net a b = 1
                    <-> 1 <= a < n /\ (b = a - 1 \/ (b = a + 1 /\ a + 1 < n)))
    /\ (forall a b, get_connection net a b = 1 /\ get_connection net b a = 0
                    <-> 2 <= n /\ a = 1 /\ b = 0).
Proof.
  intros Hn. destruct (network_new_list_bidir maximum_matrix n Hn) as (net & Hnew & Hnum & HE).
  exists net. split; [exact Hnew|]. split.
  - intros a b. rewrite get_connection_edge. apply HE.
  - intros a b. rewrite get_connection_edge, get_connection_no_edge, !HE. lia.
Qed.

Lemma list_bidir_connections_witness :
  exists net,
    network_new 4096 4 LIST_BIDIR = Ok net
    /\ (forall a b, get_connection net a b = 1
                    <-> 1 <= a < 4 /\ (b = a - 1 \/ (b = a + 1 /\ a + 1 < 4)))
    /\ (forall a b, get_connection net a b = 1 /\ get_connection net b a = 0
                    <-> 2 <= 4 /\ a = 1 /\ b = 0).
Proof. apply (list_bidir_connections 4096 4). pow_numerals; lia. Defined.

(** X4.  The neighbour lists of LIST_BIDIR: oscillator 0 has no
    neighbour, an oscillator with a successor (other than 0) has its
    predecessor and its successor, and the last one has its predecessor. *)
Theorem list_bidir_neighbour_lists (maximum_matrix n : Z) :
  0 <= n < 2 ^ 32 ->
  exists net,
    network_new maximum_matrix n LIST_BIDIR = Ok net
    /\ forall i, 0 <= i < n ->
         get_neighbors net i
         = if i =? 0 then [] else if i + 1 <? n then [i - 1; i + 1] else [i - 1].
Proof.
  intros Hn. destruct (network_new_list_bidir maximum_matrix n Hn) as (net & Hnew & Hnum & HE).
  exists net. split; [exact Hnew|]. intros i Hi. apply get_neighbors_eq.
  - unfold ascending. destruct (i =? 0), (i + 1 <? n); repeat constructor; lia.
  - intros j. rewrite HE, Hnum.
    destruct (Z.eqb_spec i 0), (Z.ltb_spec (i + 1) n);
      rewrite ?elem_of_cons, ?elem_of_nil; lia.
Qed.

Lemma list_bidir_neighbour_lists_witness :
  exists net,
    network_new 4096 4 LIST_BIDIR = Ok net
    /\ forall i, 0 <= i < 4 ->
         get_neighbors net i
         = if i =? 0 then [] else if i + 1 <? 4 then [i - 1; i + 1] else [i - 1].
Proof. apply (list_bidir_neighbour_lists 4096 4). pow_numerals; lia. Defined.

(** ** The grids in coordinates *)

Lemma grid_four_step_cutoff (k a b : Z) :
  0 < k -> 0 <= a < k * k ->
  grid_four_step k a b
  <-> 0 <= b < k * k /\ orthogonal k a b /\ (b < a -> b <= INT_MAX).
Proof.
  intros Hk Ha. unfold grid_four_step, orthogonal.
  destruct (coordinates k a Hk Ha) as (Ea & Hra & Hca).
  fold (row_of k a). split.
  - intros Hstep.
    assert (0 <= b < k * k) as Hb.
    { destruct Hstep as [H | [H | [H | H]]]; lia. }
    split; [exact Hb|]. destruct (coordinates k b Hk Hb) as (Eb & Hrb & Hcb).
    destruct Hstep as [(Hv & H1 & H2) | [(Hv & H1) | [(Hv & H1 & H2 & H3) | (Hv & H1 & H3)]]].
    + split; [|lia]. right. assert (b = k * (row_of k a - 1) + col_of k a) as Hb' by lia.
      destruct (coordinates_unique k (row_of k a - 1) (col_of k a) Hk Hca) as [Hr' Hc'].
      rewrite <- Hb' in Hr', Hc'. lia.
    + split; [|lia]. right. assert (b = k * (row_of k a + 1) + col_of k a) as Hb' by lia.
      destruct (coordinates_unique k (row_of k a + 1) (col_of k a) Hk Hca) as [Hr' Hc'].
      rewrite <- Hb' in Hr', Hc'. lia.
    + split; [|lia]. left. rewrite <- Hv in H3. fold (row_of k b) in H3. lia.
    + split; [|lia]. left. rewrite <- Hv in H3. fold (row_of k b) in H3. lia.
  - intros (Hb & Horth & Hcut). destruct (coordinates k b Hk Hb) as (Eb & Hrb & Hcb).
    destruct Horth as [[Hrow Hcol] | [Hcol Hrow]].
    + destruct (Z.abs_eq_cases (col_of k a - col_of k b) 1) as [Hd | Hd]; [lia | |].
      * right; right; left. assert (b = a - 1) as Hv by lia. rewrite Hv in *.
        unfold row_of in *. lia.
      * right; right; right. assert (b = a + 1) as Hv by lia. rewrite Hv in *.
        unfold row_of in *. lia.
    + destruct (Z.abs_eq_cases (row_of k a - row_of k b) 1) as [Hd | Hd]; [lia | |].
      * left. assert (row_of k b = row_of k a - 1) as Hrb' by lia.
        rewrite Hrb' in Eb. lia.
      * right; left. assert (row_of k b = row_of k a + 1) as Hrb' by lia.
        rewrite Hrb' in Eb. lia.
Qed.

Lemma orthogonal_sym (k a b : Z) : orthogonal k a b -> orthogonal k b a.
Proof. unfold orthogonal. lia. Qed.

Lemma diagonal_sym (k a b : Z) : diagonal k a b -> diagonal k b a.
Proof. unfold diagonal. lia. Qed.

Lemma side_fits_int (k : Z) : 0 <= k -> k * k <= INT_MAX -> k < 2 ^ 16.
Proof.
  intros Hk Hint. apply Z.nle_gt. intros Hbig.
  assert (65536 * 65536 <= k * k) by (apply Z.mul_le_mono_nonneg; pow_numerals; lia).
  pow_numerals. lia.
Qed.

(** The connections of the two grids, in coordinates. *)
Lemma network_new_grid_coordinates (maximum_matrix k : Z) :
  0 <= k < 2 ^ 16 ->
  exists g4 g8,
    network_new maximum_matrix (k * k) GRID_FOUR = Ok g4
    /\ network_new maximum_matrix (k * k) GRID_EIGHT = Ok g8
    /\ num_osc g4 = k * k /\ num_osc g8 = k * k
    /\ (forall a b, is_edge g4 a b <->
          0 <= a < k * k /\ 0 <= b < k * k
          /\ orthogonal k a b /\ (b < a -> b <= INT_MAX))
    /\ (forall a b, is_edge g8 a b <->
          0 <= a < k * k /\ 0 <= b < k * k
          /\ ((orthogonal k a b /\ (b < a -> b <= INT_MAX)) \/ diagonal k a b)).
Proof.
  intros Hk.
  destruct (network_new_grid maximum_matrix k Hk)
    as (g4 & g8 & H4new & H8new & Hn4 & Hn8 & H4 & H8).
  exists g4, g8. split; [exact H4new|]. split; [exact H8new|].
  split; [exact Hn4|]. split; [exact Hn8|]. split; intros a b.
  - rewrite H4. split.
    + intros [Ha Hstep]. apply grid_four_step_cutoff in Hstep; [tauto | | exact Ha].
      apply (side_positive k a); lia.
    + intros (Ha & Hrest). split; [exact Ha|]. apply grid_four_step_cutoff; [| exact Ha | tauto].
      apply (side_positive k a); lia.
  - rewrite H8. split.
    + intros [Ha Hstep]. assert (0 < k) as Hpos by (apply (side_positive k a); lia).
      destruct Hstep as [Hstep | Hstep].
      * apply grid_four_step_cutoff in Hstep; [tauto | lia | exact Ha].
      * apply grid_diagonal_step_diagonal in Hstep; [tauto | lia | exact Ha].
    + intros (Ha & Hb & Hcases). assert (0 < k) as Hpos by (apply (side_positive k a); lia).
      split; [exact Ha|]. destruct Hcases as [Hfour | Hdiag].
      * left. apply grid_four_step_cutoff; [lia | exact Ha | tauto].
      * right. apply grid_diagonal_step_diagonal; [lia | exact Ha | tauto].
Qed.

(** X5.  For every side [k] whose square fits [int], GRID_FOUR connects
    exactly the pairs of grid nodes that are horizontal or vertical
    neighbours, GRID_EIGHT exactly the pairs that are horizontal, vertical
    or diagonal neighbours, and both graphs are symmetric. *)
Theorem grids_connect_lattice_neighbours (maximum_matrix k : Z) :
  0 <= k -> k * k <= INT_MAX ->
  exists g4 g8,
    network_new maximum_matrix (k * k) GRID_FOUR = Ok g4
    /\ network_new maximum_matrix (k * k) GRID_EIGHT = Ok g8
    /\ (forall a b, get_connection g4 a b = 1
                    <-> 0 <= a < k * k /\ 0 <= b < k * k /\ orthogonal k a b)
    /\ (forall a b, get_connection g8 a b = 1
                    <-> 0 <= a < k * k /\ 0 <= b < k * k
                        /\ (orthogonal k a b \/ diagonal k a b))
    /\ (forall a b, get_connection g4 a b = get_connection g4 b a)
    /\ (forall a b, get_connection g8 a b = get_connection g8 b a).
Proof.
  intros Hk Hint. pose proof (side_fits_int k Hk Hint) as Hk16.
  destruct (network_new_grid_coordinates maximum_matrix k ltac:(lia))
    as (g4 & g8 & H4new & H8new & _ & _ & H4 & H8).
  exists g4, g8. split; [exact H4new|]. split; [exact H8new|].
  assert (forall a b, is_edge g4 a b
                      <-> 0 <= a < k * k /\ 0 <= b < k * k /\ orthogonal k a b) as H4'.
  { intros a b. rewrite H4. split; [tauto|]. intros (Ha & Hb & Horth).
    repeat split; try tauto; lia. }
  assert (forall a b, is_edge g8 a b
                      <-> 0 <= a < k * k /\ 0 <= b < k * k
                          /\ (orthogonal k a b \/ diagonal k a b)) as H8'.
  { intros a b. rewrite H8. split; [tauto|]. intros (Ha & Hb & [Horth | Hdiag]).
    - split; [exact Ha|]. split; [exact Hb|]. left. split; [exact Horth | lia].
    - tauto. }
  split; [intros a b; rewrite get_connection_edge; apply H4'|].
  split; [intros a b; rewrite get_connection_edge; apply H8'|]. split.
  - apply get_connection_sym. intros a b. rewrite !H4'.
    intros (Ha & Hb & Horth). auto using orthogonal_sym.
  - apply get_connection_sym. intros a b. rewrite !H8'.
    intros (Ha & Hb & [Horth | Hdiag]); auto using orthogonal_sym, diagonal_sym.
Qed.

Lemma grids_connect_lattice_neighbours_witness :
  exists g4 g8,
    network_new 4096 (3 * 3) GRID_FOUR = Ok g4
    /\ network_new 4096 (3 * 3) GRID_EIGHT = Ok g8
    /\ (forall a b, get_connection g4 a b = 1
                    <-> 0 <= a < 3 * 3 /\ 0 <= b < 3 * 3 /\ orthogonal 3 a b)
    /\ (forall a b, get_connection g8 a b = 1
                    <-> 0 <= a < 3 * 3 /\ 0 <= b < 3 * 3
                        /\ (orthogonal 3 a b \/ diagonal 3 a b))
    /\ (forall a b, get_connection g4 a b = get_connection g4 b a)
    /\ (forall a b, get_connection g8 a b = get_connection g8 b a).
Proof. apply (grids_connect_lattice_neighbours 4096 3); pow_numerals; lia. Defined.

(** ** The four-neighbour grid past the range of [int] *)

Lemma square_past_int_range (k : Z) :
  0 <= k -> INT_MAX < k * k -> 2 <= k /\ INT_MAX < k * k - 2.
Proof.
  intros Hk Hbig. assert (46341 <= k) as Hk'.
  { apply Z.nlt_ge. intros Hsmall.
    assert (k * k <= 46340 * 46340) by (apply Z.mul_le_mono_nonneg; lia).
    pow_numerals. lia. }
  assert (46341 * 46341 <= k * k) by (apply Z.mul_le_mono_nonneg; lia).
  pow_numerals. lia.
Qed.

(** X6.  For every 32-bit perfect-square count, GRID_FOUR connects a node
    to a horizontal or vertical neighbour unless that neighbour precedes
    the node and its index is above [INT_MAX] (the [int]-typed upper or
    left index is then negative and the connection is skipped); so the
    graph is symmetric exactly when the count fits [int]. *)
Theorem grid_four_past_the_range_of_int (maximum_matrix k : Z) :
  0 <= k < 2 ^ 16 ->
  exists g4,
    network_new maximum_matrix (k * k) GRID_FOUR = Ok g4
    /\ (forall a b, get_connection g4 a b = 1
                    <-> 0 <= a < k * k /\ 0 <= b < k * k /\ orthogonal k a b
                        /\ (b < a -> b <= INT_MAX))
    /\ ((forall a b, get_connection g4 a b = get_connection g4 b a) <-> k * k <= INT_MAX).
Proof.
  intros Hk.
  destruct (network_new_grid_coordinates maximum_matrix k Hk)
    as (g4 & _ & H4new & _ & _ & _ & H4 & _).
  exists g4. split; [exact H4new|].
  split; [intros a b; rewrite get_connection_edge; apply H4|]. split.
  - intros Hsym. apply Z.nlt_ge. intros Hbig.
    destruct (square_past_int_range k ltac:(lia) Hbig) as [Hk2 Hpast].
    destruct (coordinates_unique k (k - 1) (k - 2) ltac:(lia) ltac:(lia)) as [Hra Hca].
    destruct (coordinates_unique k (k - 1) (k - 1) ltac:(lia) ltac:(lia)) as [Hrb Hcb].
    replace (k * (k - 1) + (k - 2)) with (k * k - 2) in Hra, Hca by lia.
    replace (k * (k - 1) + (k - 1)) with (k * k - 1) in Hrb, Hcb by lia.
    assert (get_connection g4 (k * k - 2) (k * k - 1) = 1) as Hfwd.
    { apply get_connection_edge, H4. unfold orthogonal. rewrite Hra, Hca, Hrb, Hcb. lia. }
    assert (get_connection g4 (k * k - 1) (k * k - 2) = 0) as Hbwd.
    { apply get_connection_no_edge. rewrite H4. lia. }
    rewrite Hsym in Hfwd. congruence.
  - intros Hint. apply get_connection_sym. intros a b. rewrite !H4.
    intros (Ha & Hb & Horth & _). split; [exact Hb|]. split; [exact Ha|].
    split; [apply orthogonal_sym; exact Horth | lia].
Qed.

Lemma grid_four_past_the_range_of_int_witness :
  exists g4,
    network_new 4096 (46341 * 46341) GRID_FOUR = Ok g4
    /\ (forall a b, get_connection g4 a b = 1
                    <-> 0 <= a < 46341 * 46341 /\ 0 <= b < 46341 * 46341
                        /\ orthogonal 46341 a b /\ (b < a -> b <= INT_MAX))
    /\ ((forall a b, get_connection g4 a b = get_connection g4 b a)
        <-> 46341 * 46341 <= INT_MAX).
Proof. apply (grid_four_past_the_range_of_int 4096 46341). pow_numerals; lia. Defined.

(** ** Neighbour counts of the eight-neighbour grid *)

Lemma grid_diagonal_step_neighbours (k i j : Z) :
  0 < k -> 0 <= i < k * k ->
  grid_diagonal_step k i j
  <-> (0 < row_of k i /\ 0 < col_of k i /\ j = i - k - 1)
      \/ (0 < row_of k i /\ col_of k i < k - 1 /\ j = i - k + 1)
      \/ (row_of k i < k - 1 /\ 0 < col_of k i /\ j = i + k - 1)
      \/ (row_of k i < k - 1 /\ col_of k i < k - 1 /\ j = i + k + 1).
Proof.
  intros Hk Hi. unfold grid_diagonal_step.
  destruct (coordinates k i Hk Hi) as (Ei & Hr & Hc).
  destruct (row_products k (row_of k i) Hk Hr) as (P0 & P1 & P2 & P3).
  assert ((i - k - 1) / k = i / k - 1 <-> 0 < col_of k i) as Hul.
  { rewrite div_eq_iff by lia. fold (row_of k i). lia. }
  assert ((i - k + 1) / k = i / k - 1 <-> col_of k i < k - 1) as Hur.
  { rewrite div_eq_iff by lia. fold (row_of k i). lia. }
  assert ((i + k - 1) / k = i / k + 1 <-> 0 < col_of k i) as Hll.
  { rewrite div_eq_iff by lia. fold (row_of k i). lia. }
  assert ((i + k + 1) / k = i / k + 1 <-> col_of k i < k - 1) as Hlr.
  { rewrite div_eq_iff by lia. fold (row_of k i). lia. }
  assert (0 < row_of k i <-> k <= i) as Hup.
  { destruct (Z.eq_dec (row_of k i) 0) as [E0 | E0]; [rewrite E0 in Ei|]; lia. }
  assert (row_of k i < k - 1 <-> i + k < k * k + col_of k i) as Hdown.
  { destruct (Z.eq_dec (row_of k i) (k - 1)) as [E0 | E0]; [rewrite E0 in Ei|]; lia. }
  split.
  - intros [(-> & H1 & H2) | [(-> & H1 & H2) | [(-> & H1 & H2) | (-> & H1 & H2)]]].
    + left. lia.
    + right; left. lia.
    + right; right; left. lia.
    + right; right; right. lia.
  - intros [(H1 & H2 & ->) | [(H1 & H2 & ->) | [(H1 & H2 & ->) | (H1 & H2 & ->)]]].
    + left. lia.
    + right; left. lia.
    + right; right; left. lia.
    + right; right; right. lia.
Qed.

Lemma elem_of_grid_eight_neighbours (k i j : Z) :
  0 < k -> 0 <= i < k * k -> k * k <= 2 ^ 31 ->
  j ∈ grid_eight_neighbours k i <-> grid_four_step k i j \/ grid_diagonal_step k i j.
Proof.
  intros Hk Hi Hint.
  rewrite grid_four_step_neighbours, grid_diagonal_step_neighbours by assumption.
  unfold grid_eight_neighbours, grid_four_neighbours. cbv zeta.
  rewrite !elem_of_app, !elem_of_guarded_list, !andb_true_iff, !Z.ltb_lt. tauto.
Qed.

Lemma grid_eight_neighbours_ascending (k i : Z) :
  2 <= k -> ascending (grid_eight_neighbours k i).
Proof.
  intros Hk. unfold grid_eight_neighbours, ascending. cbv zeta.
  destruct (Z.ltb_spec 0 (row_of k i)), (Z.ltb_spec 0 (col_of k i)),
    (Z.ltb_spec (col_of k i) (k - 1)), (Z.ltb_spec (row_of k i) (k - 1)); simpl;
    repeat constructor; lia.
Qed.

Lemma grid_eight_neighbours_length (k i : Z) :
  2 <= k -> 0 <= i < k * k ->
  (interior_node k i -> length (grid_eight_neighbours k i) = 8%nat)
  /\ (edge_node k i -> length (grid_eight_neighbours k i) = 5%nat)
  /\ (corner_node k i -> length (grid_eight_neighbours k i) = 3%nat).
Proof.
  intros Hk Hi. destruct (coordinates k i ltac:(lia) Hi) as (_ & Hr & Hc).
  unfold interior_node, edge_node, corner_node, first_or_last_row, first_or_last_col,
    grid_eight_neighbours. cbv zeta.
  destruct (Z.ltb_spec 0 (row_of k i)), (Z.ltb_spec 0 (col_of k i)),
    (Z.ltb_spec (col_of k i) (k - 1)), (Z.ltb_spec (row_of k i) (k - 1)); simpl;
    repeat split; intros; try reflexivity; exfalso; lia.
Qed.

(** X7.  For every side [k >= 2] whose square fits [int], the neighbours
    GRID_EIGHT gives a node are its existing upper-left, upper,
    upper-right, left, right, lower-left, lower and lower-right nodes, in
    this order: 8 for an interior node, 5 for a node on a grid edge and 3
    for a corner. *)
Theorem grid_eight_neighbour_counts (maximum_matrix k : Z) :
  2 <= k -> k * k <= INT_MAX ->
  exists net,
    network_new maximum_matrix (k * k) GRID_EIGHT = Ok net
    /\ forall i, 0 <= i < k * k ->
         get_neighbors net i = grid_eight_neighbours k i
         /\ (interior_node k i -> length (get_neighbors net i) = 8%nat)
         /\ (edge_node k i -> length (get_neighbors net i) = 5%nat)
         /\ (corner_node k i -> length (get_neighbors net i) = 3%nat).
Proof.
  intros Hk Hint. pose proof (side_fits_int k ltac:(lia) Hint) as Hk16.
  assert (k * k <= 2 ^ 31) as Hint' by (pow_numerals; lia).
  destruct (network_new_grid maximum_matrix k ltac:(lia))
    as (_ & g8 & _ & Hnew & _ & Hn & _ & H8).
  exists g8. split; [exact Hnew|]. intros i Hi.
  assert (get_neighbors g8 i = grid_eight_neighbours k i) as ->.
  { apply get_neighbors_eq; [apply grid_eight_neighbours_ascending; exact Hk|].
    intros j. rewrite elem_of_grid_eight_neighbours by lia. rewrite H8, Hn.
    split; [|tauto]. intros Hstep. split; [tauto|]. destruct Hstep as [Hstep | Hstep].
    - apply grid_four_step_cutoff in Hstep; [tauto | lia | exact Hi].
    - apply grid_diagonal_step_diagonal in Hstep; [tauto | lia | exact Hi]. }
  split; [reflexivity|]. apply grid_eight_neighbours_length; assumption.
Qed.

Lemma grid_eight_neighbour_counts_witness :
  exists net,
    network_new 4096 (3 * 3) GRID_EIGHT = Ok net
    /\ forall i, 0 <= i < 3 * 3 ->
         get_neighbors net i = grid_eight_neighbours 3 i
         /\ (interior_node 3 i -> length (get_neighbors net i) = 8%nat)
         /\ (edge_node 3 i -> length (get_neighbors net i) = 5%nat)
         /\ (corner_node 3 i -> length (get_neighbors net i) = 3%nat).
Proof. apply (grid_eight_neighbour_counts 4096 3); pow_numerals; lia. Defined.

(** ** The ways the constructor ends *)

(** What the constructor returns: the allocated object with connections
    added, each between two oscillators of the network. *)
Lemma network_new_connections (maximum_matrix n : Z) (ct : conn_type) (net : network) :
  0 <= n < 2 ^ 32 -> network_new maximum_matrix n ct = Ok net ->
  exists E, net = add_edges (allocated maximum_matrix n) E
    /\ forall a b, (a, b) ∈ E -> 0 <= a < n /\ 0 <= b < n.
Proof.
  intros Hn. rewrite network_new_allocated. destruct ct as [ | | | | | v]; simpl.
  - intros [= <-]. exists ∅. split; [now rewrite add_edges_empty|].
    intros a b Hab. exfalso. revert Hab. apply not_elem_of_empty.
  - destruct (all_to_all_edges (allocated maximum_matrix n) Hn) as (E & -> & HE).
    intros [= <-]. exists E. split; [reflexivity|]. intros a b Hab. apply HE in Hab.
    simpl in Hab. lia.
  - destruct (sqrt_has_fraction n) eqn:Hfrac.
    + unfold create_grid_four_connections. simpl. rewrite Hfrac. discriminate.
    + destruct (side_of_square n Hn Hfrac) as [Hk Hsq].
      destruct (grid_eight_edges (allocated maximum_matrix n) (Z.sqrt n) Hk Hsq)
        as (E4 & Ed & -> & _ & HE4 & _).
      intros [= <-]. exists E4. split; [reflexivity|]. intros a b Hab.
      apply HE4 in Hab as [Ha Hstep].
      apply grid_four_step_cutoff in Hstep; [lia | | exact Ha].
      apply (side_positive _ a); lia.
  - destruct (sqrt_has_fraction n) eqn:Hfrac.
    + unfold create_grid_eight_connections, create_grid_four_connections. simpl.
      rewrite Hfrac. discriminate.
    + destruct (side_of_square n Hn Hfrac) as [Hk Hsq].
      destruct (grid_eight_edges (allocated maximum_matrix n) (Z.sqrt n) Hk Hsq)
        as (E4 & Ed & _ & -> & HE4 & HEd).
      intros [= <-]. exists (E4 ∪ Ed). split; [reflexivity|]. intros a b Hab.
      apply elem_of_union in Hab as [Hab | Hab].
      * apply HE4 in Hab as [Ha Hstep].
        apply grid_four_step_cutoff in Hstep; [lia | | exact Ha].
        apply (side_positive _ a); lia.
      * apply HEd in Hab as [Ha Hstep].
        apply grid_diagonal_step_diagonal in Hstep; [lia | | exact Ha].
        apply (side_positive _ a); lia.
  - destruct (list_bidir_edges (allocated maximum_matrix n) Hn) as (E & -> & HE).
    intros [= <-]. exists E. split; [reflexivity|]. intros a b Hab. apply HE in Hab.
    simpl in Hab. lia.
  - discriminate.
Qed.

Lemma network_new_cases (maximum_matrix n : Z) (ct : conn_type) :
  0 <= n < 2 ^ 32 ->
  ((exists v, ct = conn_other v) /\ network_new maximum_matrix n ct = Err InvalidTopology)
  \/ (((ct = GRID_FOUR \/ ct = GRID_EIGHT) /\ ~ exists k, n = k * k)
      /\ network_new maximum_matrix n ct = Err InvalidGridSize)
  \/ ((ct = NONE \/ ct = ALL_TO_ALL \/ ct = LIST_BIDIR
       \/ ((ct = GRID_FOUR \/ ct = GRID_EIGHT) /\ exists k, n = k * k))
      /\ exists net, network_new maximum_matrix n ct = Ok net).
Proof.
  intros Hn.
  assert (ct = GRID_FOUR \/ ct = GRID_EIGHT ->
          ((~ exists k, n = k * k) /\ network_new maximum_matrix n ct = Err InvalidGridSize)
          \/ ((exists k, n = k * k) /\ exists net, network_new maximum_matrix n ct = Ok net))
    as Hgrid.
  { intros Hct. destruct (sqrt_has_fraction n) eqn:Hfrac.
    - left. split; [|apply network_new_grid_error; assumption].
      intros Hsq. apply perfect_square_iff in Hsq; [congruence | lia].
    - right. destruct (side_of_square n Hn Hfrac) as [Hk Hsq].
      split; [eauto|].
      destruct (network_new_grid maximum_matrix (Z.sqrt n) Hk) as (g4 & g8 & H4 & H8 & _).
      rewrite <- Hsq in H4, H8. destruct Hct as [-> | ->]; eauto. }
  destruct ct as [ | | | | | v].
  - right; right. split; [auto|]. apply network_new_total_topologies; auto.
  - right; right. split; [auto|]. apply network_new_total_topologies; auto.
  - destruct (Hgrid ltac:(auto)) as [[Hsq Hres] | [Hsq Hres]]; [right; left | right; right];
      (split; [tauto | exact Hres]).
  - destruct (Hgrid ltac:(auto)) as [[Hsq Hres] | [Hsq Hres]]; [right; left | right; right];
      (split; [tauto | exact Hres]).
  - right; right. split; [auto|]. apply network_new_total_topologies; auto.
  - left. split; [eauto|]. rewrite network_new_allocated. reflexivity.
Qed.

(** X8.  The ways the constructor ends, for every 32-bit oscillator
    count.  It never fails with an index out of range (no builder
    addresses an oscillator outside the network); it fails with the
    unknown-topology error exactly for an enumerator outside the five
    cases of the switch, with the grid-size error exactly for a grid
    topology on a count that is not a perfect square, and returns a
    network in every other case. *)
Theorem constructor_failures (maximum_matrix n : Z) (ct : conn_type) :
  0 <= n < 2 ^ 32 ->
  network_new maximum_matrix n ct <> Err IndexOutOfRange
  /\ (network_new maximum_matrix n ct = Err InvalidTopology <-> exists v, ct = conn_other v)
  /\ (network_new maximum_matrix n ct = Err InvalidGridSize
      <-> (ct = GRID_FOUR \/ ct = GRID_EIGHT) /\ ~ exists k, n = k * k)
  /\ ((exists net, network_new maximum_matrix n ct = Ok net)
      <-> ct = NONE \/ ct = ALL_TO_ALL \/ ct = LIST_BIDIR
          \/ ((ct = GRID_FOUR \/ ct = GRID_EIGHT) /\ exists k, n = k * k)).
Proof.
  intros Hn.
  destruct (network_new_cases maximum_matrix n ct Hn)
    as [[Hct Hres] | [[Hct Hres] | [Hct [net Hres]]]]; rewrite Hres.
  - split; [discriminate|]. split; [tauto|]. split.
    + split; [discriminate|]. intros [[-> | ->] _]; destruct Hct as [v [=]].
    + split; [intros [net [=]]|].
      intros [-> | [-> | [-> | [[-> | ->] _]]]]; destruct Hct as [v [=]].
  - split; [discriminate|]. split.
    + split; [discriminate|]. intros [v ->]. destruct Hct as [[[=] | [=]] _].
    + split; [tauto|]. split; [intros [net [=]]|].
      intros [-> | [-> | [-> | [_ Hsq]]]]; [destruct Hct as [[[=] | [=]] _] .. | tauto].
  - split; [discriminate|]. split.
    + split; [discriminate|]. intros [v ->].
      destruct Hct as [[=] | [[=] | [[=] | [[[=] | [=]] _]]]].
    + split; [|split; eauto]. split; [discriminate|].
      intros [[-> | ->] Hnsq];
        destruct Hct as [[=] | [[=] | [[=] | [_ Hsq]]]]; tauto.
Qed.

Lemma constructor_failures_witness :
  network_new 4096 8 GRID_FOUR <> Err IndexOutOfRange
  /\ (network_new 4096 8 GRID_FOUR = Err InvalidTopology <-> exists v, GRID_FOUR = conn_other v)
  /\ (network_new 4096 8 GRID_FOUR = Err InvalidGridSize
      <-> (GRID_FOUR = GRID_FOUR \/ GRID_FOUR = GRID_EIGHT) /\ ~ exists k, 8 = k * k)
  /\ ((exists net, network_new 4096 8 GRID_FOUR = Ok net)
      <-> GRID_FOUR = NONE \/ GRID_FOUR = ALL_TO_ALL \/ GRID_FOUR = LIST_BIDIR
          \/ ((GRID_FOUR = GRID_FOUR \/ GRID_FOUR = GRID_EIGHT) /\ exists k, 8 = k * k)).
Proof. apply (constructor_failures 4096 8 GRID_FOUR). pow_numerals; lia. Defined.

(** X9.  A network the constructor returns has the oscillator count it
    was asked for, the representation chosen from the count alone (dense
    with rows of [n] entries up to the threshold, bitmap with rows of
    [n / sizeof(unsigned int)] elements above it) whatever the topology,
    and only connections between two oscillators of the network. *)
Theorem constructor_keeps_the_allocation (maximum_matrix n : Z) (ct : conn_type)
    (net : network) :
  0 <= n < 2 ^ 32 -> network_new maximum_matrix n ct = Ok net ->
  num_osc net = n
  /\ (n <= maximum_matrix ->
      conn_representation net = MATRIX_CONN_REPRESENTATION /\ row_elements net = n)
  /\ (maximum_matrix < n ->
      conn_representation net = BITMAP_CONN_REPRESENTATION
      /\ row_elements net = n / sizeof_unsigned_int)
  /\ (forall a b, get_connection net a b = 1 -> 0 <= a < n /\ 0 <= b < n).
Proof.
  intros Hn Hnew.
  destruct (network_new_connections maximum_matrix n ct net Hn Hnew) as (E & -> & HE).
  split; [reflexivity|]. unfold add_edges, allocated; simpl. split; [|split].
  - intros Hsmall. rewrite select_representation_matrix by exact Hsmall. auto.
  - intros Hbig. rewrite select_representation_bitmap by exact Hbig. auto.
  - intros a b Hab. apply get_connection_edge in Hab.
    apply (is_edge_allocated maximum_matrix n E a b) in Hab. auto.
Qed.

Lemma constructor_keeps_the_allocation_witness :
  exists net,
    network_new 4096 5000 LIST_BIDIR = Ok net
    /\ num_osc net = 5000
    /\ (5000 <= 4096 ->
        conn_representation net = MATRIX_CONN_REPRESENTATION /\ row_elements net = 5000)
    /\ (4096 < 5000 ->
        conn_representation net = BITMAP_CONN_REPRESENTATION
        /\ row_elements net = 5000 / sizeof_unsigned_int)
    /\ (forall a b, get_connection net a b = 1 -> 0 <= a < 5000 /\ 0 <= b < 5000).
Proof.
  destruct (network_new_total_topologies 4096 5000 LIST_BIDIR) as [net Hnew];
    [pow_numerals; lia | auto |].
  exists net. split; [exact Hnew|].
  apply (constructor_keeps_the_allocation 4096 5000 LIST_BIDIR net); [pow_numerals; lia|].
  exact Hnew.
Defined.

(** X10.  With no oscillator or a single one, every topology of the
    switch (the grids included: 0 and 1 are perfect squares) builds a
    network without any connection. *)
Theorem networks_of_at_most_one_oscillator (maximum_matrix n : Z) (ct : conn_type) :
  0 <= n <= 1 -> known_topology ct ->
  exists net,
    network_new maximum_matrix n ct = Ok net
    /\ (forall a b, get_connection net a b = 0)
    /\ (forall i, get_neighbors net i = []).
Proof.
  intros Hn Hct. assert (0 <= n < 2 ^ 32) as Hn32 by (pow_numerals; lia).
  assert (exists net, network_new maximum_matrix n ct = Ok net) as [net Hnew].
  { destruct (network_new_cases maximum_matrix n ct Hn32)
      as [[[v ->] _] | [[[_ Hnsq] _] | [_ Hres]]]; [| | exact Hres].
    - destruct Hct as [[=] | [[=] | [[=] | [[=] | [=]]]]].
    - exfalso. apply Hnsq. exists n. nia. }
  exists net. split; [exact Hnew|].
  assert (forall a b, get_connection net a b = 0) as Hnone.
  { intros a b. destruct (get_connection_bit net a b) as [Hab | Hab]; [|exact Hab].
    destruct (network_new_connections maximum_matrix n ct net Hn32 Hnew) as (E & Hnet & HE).
    pose proof (network_new_no_self_loop maximum_matrix n ct net Hn32 Hnew a) as Hloop.
    assert (0 <= a < n /\ 0 <= b < n) as Hrange.
    { apply HE. apply get_connection_edge in Hab. rewrite Hnet in Hab.
      apply is_edge_allocated in Hab. exact Hab. }
    assert (b = a) as -> by lia. congruence. }
  split; [exact Hnone|]. intros i. apply get_neighbors_eq; [constructor|].
  intros j. rewrite <- get_connection_edge, Hnone. split.
  - intros Hj. apply elem_of_nil in Hj. contradiction.
  - intros [[=] _].
Qed.

Lemma networks_of_at_most_one_oscillator_witness :
  exists net,
    network_new 4096 1 GRID_EIGHT = Ok net
    /\ (forall a b, get_connection net a b = 0)
    /\ (forall i, get_neighbors net i = []).
Proof.
  apply (networks_of_at_most_one_oscillator 4096 1 GRID_EIGHT); [lia|].
  unfold known_topology. auto.
Defined.

(** ** The running bound of the radius-based builder *)

(** The nest of [pair_loops_invariant], with the order of the visits:
    every pair visited before [(i, j)] precedes it. *)
Lemma pair_loops_invariant_ordered {S : Type} (Inv : (Z -> Z -> Prop) -> S -> Prop)
    (body : Z -> Z -> S -> result S) (n : Z) (s : S) :
  0 <= n < 2 ^ 32 ->
  (forall (P Q : Z -> Z -> Prop) s', (forall i j, P i j <-> Q i j) -> Inv P s' -> Inv Q s') ->
  Inv (fun _ _ => False) s ->
  (forall (P : Z -> Z -> Prop) i j s',
     0 <= i < j /\ j < n ->
     (forall a b, P a b -> (0 <= a < b /\ b < n) /\ (a < i \/ (a = i /\ b < j))) ->
     Inv P s' ->
     exists s'', body i j s' = Ok s'' /\ Inv (fun a b => P a b \/ (a = i /\ b = j)) s'') ->
  exists s',
    for_loop 0 n (fun i s' => for_loop (to_unsigned (i + 1)) n (fun j s'' => body i j s'') s') s
    = Ok s'
    /\ Inv (fun i j => 0 <= i < j /\ j < n) s'.
Proof.
  intros Hn Hequiv Hinit Hstep.
  destruct (for_each_invariant
              (fun done s' => Inv (fun i j => i ∈ done /\ i < j /\ j < n) s')
              (fun i s' => for_loop (to_unsigned (i + 1)) n (fun j s'' => body i j s'') s')
              (seqZ 0 (n - 0)) s) as (s' & Hrun & Hfinal).
  - apply (Hequiv (fun _ _ => False)); [|exact Hinit].
    intros i j. split; [contradiction|]. intros [Hi _]. apply elem_of_nil in Hi. exact Hi.
  - intros di i0 rest s' Hl Hinv. apply loop_prefix in Hl as [Hi0 Hdi].
    unfold for_loop. rewrite to_unsigned_small by (pow_numerals; lia).
    destruct (for_each_invariant
                (fun done s'' =>
                   Inv (fun i j => (i ∈ di /\ i < j /\ j < n) \/ (i = i0 /\ j ∈ done)) s'')
                (fun j s'' => body i0 j s'')
                (seqZ (i0 + 1) (n - (i0 + 1))) s') as (s'' & Hrun & Hfinal).
    + apply (Hequiv (fun i j => i ∈ di /\ i < j /\ j < n)); [|exact Hinv].
      intros i j. split; [tauto|]. intros [Hij | [_ Hj]]; [exact Hij|].
      apply elem_of_nil in Hj. contradiction.
    + intros dj j0 rest' s'' Hl' Hinv'. apply loop_prefix in Hl' as [Hj0 Hdj].
      destruct (Hstep (fun i j => (i ∈ di /\ i < j /\ j < n) \/ (i = i0 /\ j ∈ dj)) i0 j0 s'')
        as (s3 & Hbody & Hinv3);
        [lia | intros a b; rewrite Hdi, Hdj; lia | exact Hinv' |].
      exists s3. split; [exact Hbody|]. revert Hinv3. apply Hequiv.
      intros i j. rewrite elem_of_app, list_elem_of_singleton. tauto.
    + exists s''. split; [exact Hrun|]. revert Hfinal. apply Hequiv.
      intros i j. rewrite elem_of_app, list_elem_of_singleton, elem_of_loop_range.
      split.
      * intros [Hij | [-> Hj]]; [tauto | split; [now right | lia]].
      * intros [[Hi | ->] Hj]; [left; tauto | right; lia].
  - exists s'. split; [exact Hrun|]. revert Hfinal. apply Hequiv.
    intros i j. rewrite elem_of_loop_range. lia.
Qed.

Lemma syncnet_new_initial {D : Type} `{DoubleOps D} (maximum_matrix : Z)
    (input_data : list (list D)) (connectivity_radius : D) (enable_conn_weight : bool)
    (drawn_phases : list D) :
  syncnet_new maximum_matrix input_data connectivity_radius enable_conn_weight drawn_phases
  = create_connections (initial_syncnet maximum_matrix input_data drawn_phases)
      connectivity_radius enable_conn_weight.
Proof. unfold syncnet_new. rewrite network_new_allocated. reflexivity. Qed.

Lemma initial_syncnet_range {D : Type} `{DoubleOps D} (maximum_matrix : Z)
    (input_data : list (list D)) (drawn_phases : list D) :
  0 <= num_osc (base (initial_syncnet maximum_matrix input_data drawn_phases)) < 2 ^ 32.
Proof. apply to_unsigned_range. Qed.

Lemma distances_ordered_over_reals (s0 : syncnet R) : distances_ordered s0.
Proof.
  intros x y _ _. simpl. unfold Rltb. split.
  - destruct (Rlt_dec y y); [lra | reflexivity].
  - destruct (Rlt_dec x y); [auto|]. destruct (Rlt_dec y x); [auto|].
    right; right. lra.
Qed.

Section FirstPass.

Context {D : Type} `{DoubleOps D}.
Variable s0 : syncnet D.
Variable connectivity_radius : D.
Hypothesis Hn : 0 <= num_osc (base s0) < 2 ^ 32.
Hypothesis Hordered : distances_ordered s0.

(** The two updates of the running bound leave the distance of the pair. *)
Lemma visit_pair_bound (sqrt_connectivity_radius : D) (i j : Z) (s s' : syncnet D)
    (maximum_distance maximum_distance' : D) :
  0 <= i < j /\ j < num_osc (base s0) ->
  location s i = location s0 i -> location s j = location s0 j ->
  maximum_distance = d_zero \/ visited_distance s0 maximum_distance ->
  visit_pair sqrt_connectivity_radius true i j (s, maximum_distance)
  = Ok (s', maximum_distance') ->
  maximum_distance' = pair_distance s0 i j.
Proof.
  intros Hij Hi Hj Hm. unfold visit_pair. rewrite Hi, Hj. fold (pair_distance s0 i j).
  destruct (Hordered maximum_distance (pair_distance s0 i j) Hm) as [Hirr Htri].
  { exists i, j. auto. }
  set (d := pair_distance s0 i j) in *.
  destruct (if d_leb d sqrt_connectivity_radius
            then do net <- set_connection (base s) j i; set_connection net i j
            else Ok (base s)) as [net | e]; simpl; [|discriminate].
  intros [= _ <-].
  destruct (d_ltb maximum_distance d) eqn:Hlt.
  - rewrite Hirr. reflexivity.
  - destruct (d_ltb d maximum_distance) eqn:Hgt; [reflexivity|].
    destruct Htri as [Htri | [Htri | Htri]]; congruence.
Qed.

Lemma first_pass_bound :
  exists s maximum_distance,
    for_loop 0 (num_osc (base s0)) (fun i st =>
      for_loop (to_unsigned (i + 1)) (num_osc (base s0)) (fun j st =>
        visit_pair (d_mul connectivity_radius connectivity_radius) true i j st) st)
      (set_weights s0
         (Some (replicate (Z.to_nat (num_osc (base s0)))
                  (replicate (Z.to_nat (num_osc (base s0))) d_zero))), d_zero)
    = Ok (s, maximum_distance)
    /\ visited_pairs s0 connectivity_radius true (all_pairs s0) (s, maximum_distance)
    /\ bound_after_pairs s0 (all_pairs s0) maximum_distance.
Proof.
  destruct (pair_loops_invariant_ordered
              (fun P st => visited_pairs s0 connectivity_radius true P st
                           /\ bound_after_pairs s0 P (snd st))
              (visit_pair (d_mul connectivity_radius connectivity_radius) true)
              (num_osc (base s0))
              (set_weights s0
                 (Some (replicate (Z.to_nat (num_osc (base s0)))
                          (replicate (Z.to_nat (num_osc (base s0))) d_zero))), d_zero) Hn)
    as ([s m] & Hrun & Hvisited & Hbound).
  - intros P Q st HPQ [Hvisited (Hvalue & Hnone & Hlast)]. split.
    + exact (visited_pairs_equiv s0 connectivity_radius true P Q st HPQ Hvisited).
    + split; [exact Hvalue|]. split.
      * intros HQ. apply Hnone. intros i j Hp. apply (HQ i j), HPQ, Hp.
      * intros i j Hq Hmax. apply Hlast; [apply HPQ, Hq|].
        intros a b Hp. apply Hmax, HPQ, Hp.
  - split.
    + split; [repeat split|]. split.
      * exists ∅. split; [simpl; now rewrite add_edges_empty|].
        intros a b. split; [intros Hab; exfalso; revert Hab; apply not_elem_of_empty|].
        intros (i & j & [] & _).
      * eexists. split; [reflexivity|]. split; [apply square_matrix_zero|].
        split; intros; rewrite ?matrix_get_zero; tauto.
    + split; [left; reflexivity|]. split; [reflexivity | intros i j []].
  - intros P i j [s m] Hij Hord [Hvisited (Hvalue & _)].
    destruct (visit_pair_step s0 connectivity_radius Hn true P i j (s, m) Hij Hvisited)
      as ([s' m'] & Hrun & Hvisited').
    exists (s', m'). split; [exact Hrun|]. split; [exact Hvisited'|].
    assert (same_members s0 s) as Hmem by apply Hvisited.
    apply visit_pair_bound in Hrun;
      [| exact Hij | apply location_same, Hmem | apply location_same, Hmem | exact Hvalue].
    simpl. subst m'. split; [right; exists i, j; auto|]. split.
    + intros Hnone. exfalso. apply (Hnone i j). right. auto.
    + intros a b Hab Hmax.
      assert (a = i /\ b = j) as [-> ->]; [|reflexivity].
      destruct Hab as [Hab | Hab]; [|exact Hab].
      apply Hord in Hab as [_ Hbefore].
      destruct (Hmax i j ltac:(right; auto)) as [Hlt | [Heq Hle]]; lia.
  - exists s, m. split; [exact Hrun|]. split; [exact Hvisited | exact Hbound].
Qed.

End FirstPass.

(** ** The weights the two passes leave *)

Section SecondPass.

Context {D : Type} `{DoubleOps D}.
Variable s0 : syncnet D.
Hypothesis Hn : 0 <= num_osc (base s0) < 2 ^ 32.

(** The normalizing loops, from the state the first pass leaves. *)
Lemma second_pass_weights (multiplier subtractor : D) (E : gset (Z * Z)) (s : syncnet D)
    (w : list (list D)) :
  same_members s0 s -> base s = add_edges (base s0) E ->
  distance_conn_weights s = Some w ->
  weights_of_pairs s0 (all_pairs s0) (fun d => d) (fun _ => d_zero) w ->
  exists s',
    for_loop 0 (num_osc (base s0)) (fun i s =>
      for_loop (to_unsigned (i + 1)) (num_osc (base s0)) (fun j s =>
        normalize_pair multiplier subtractor i j s) s) s = Ok s'
    /\ normalized_pairs s0 (fun d => d_div (d_sub d subtractor) multiplier) E
         (all_pairs s0) s'.
Proof.
  intros Hmem Hbase Hsome (Hsq & Hpairs & Hdiag).
  apply (pair_loops_invariant (normalized_pairs s0 _ E)); [exact Hn | | |].
  - intros P Q s' HPQ (Hm & Hb & w' & Hs & Hw').
    split; [exact Hm|]. split; [exact Hb|]. exists w'. split; [exact Hs|].
    exact (weights_of_pairs_equiv s0 P Q _ _ w' HPQ Hw').
  - split; [exact Hmem|]. split; [exact Hbase|]. exists w. split; [exact Hsome|].
    split; [exact Hsq|]. split; [|exact Hdiag].
    intros i j Hij. destruct (Hpairs i j Hij) as [Hin _].
    split; [contradiction | intros _; apply Hin, Hij].
  - intros P i j s' Hij Hnot _ Hinv. apply normalize_pair_step; assumption.
Qed.

(** The weights [create_connections] leaves when [<] orders the distances. *)
Lemma create_connections_weights (connectivity_radius : D) :
  distances_ordered s0 ->
  exists s w,
    create_connections s0 connectivity_radius true = Ok s
    /\ same_members s0 s
    /\ num_osc (base s) = num_osc (base s0)
    /\ distance_conn_weights s = Some w
    /\ weights_of_pairs s0 (all_pairs s0)
         (normalized (last_pair_distance s0) d_max) (fun d => d) w.
Proof.
  intros Hordered. unfold create_connections.
  destruct (first_pass_bound s0 connectivity_radius Hn Hordered)
    as (s2 & m & -> & (Hmem & (E & Hbase & HE) & w & Hsome & Hw) & _ & Hnone & Hlast).
  cbn [fst] in Hmem, Hbase, Hsome. cbn [bind].
  assert (m = last_pair_distance s0) as ->.
  { unfold last_pair_distance. cbv zeta. destruct (Z.leb_spec 2 (num_osc (base s0))).
    - apply Hlast; unfold all_pairs; [lia|]. intros a b Hab. lia.
    - apply Hnone. unfold all_pairs. intros i j Hij. lia. }
  set (m := last_pair_distance s0).
  destruct (if negb (d_eqb m d_max) then (d_sub m d_max, d_max) else (d_one, d_zero))
    as [multiplier subtractor] eqn:Hnorm.
  destruct (second_pass_weights multiplier subtractor E s2 w Hmem Hbase Hsome Hw)
    as (s3 & -> & Hmem3 & Hbase3 & w3 & Hsome3 & Hw3).
  exists s3, w3. split; [reflexivity|]. split; [exact Hmem3|].
  split; [rewrite Hbase3; reflexivity|]. split; [exact Hsome3|].
  unfold normalized, normalization. rewrite Hnorm. exact Hw3.
Qed.

End SecondPass.

Lemma normalized_over_reals (maximum_distance minimum_distance distance : R) :
  (maximum_distance <> minimum_distance ->
   normalized maximum_distance minimum_distance distance
   = ((distance - minimum_distance) / (maximum_distance - minimum_distance))%R)
  /\ (maximum_distance = minimum_distance ->
      normalized maximum_distance minimum_distance distance = distance).
Proof.
  unfold normalized, normalization. simpl. unfold Reqb.
  destruct (Req_dec_T maximum_distance minimum_distance) as [Heq | Hne]; simpl.
  - split; [contradiction|]. intros _. field.
  - split; [reflexivity | contradiction].
Qed.

(** The weights of [syncnet::syncnet] when [<] orders the distances. *)
Lemma syncnet_new_weights {D : Type} `{DoubleOps D} (maximum_matrix : Z)
    (input_data : list (list D)) (connectivity_radius : D) (drawn_phases : list D) :
  distances_ordered (initial_syncnet maximum_matrix input_data drawn_phases) ->
  exists s w,
    syncnet_new maximum_matrix input_data connectivity_radius true drawn_phases = Ok s
    /\ num_osc (base s) = to_unsigned (Z.of_nat (length input_data))
    /\ distance_conn_weights s = Some w
    /\ forall i j, 0 <= i < j /\ j < num_osc (base s) ->
         matrix_get w i j
         = normalized (last_pair_distance s) d_max (location_distance s i j)
         /\ matrix_get w j i = matrix_get w i j.
Proof.
  intros Hordered. rewrite syncnet_new_initial.
  set (s0 := initial_syncnet maximum_matrix input_data drawn_phases) in *.
  destruct (create_connections_weights s0 (initial_syncnet_range _ _ _) connectivity_radius
              Hordered)
    as (s & w & -> & (_ & _ & Hloc) & Hnum & Hsome & _ & Hpairs & _).
  exists s, w. split; [reflexivity|]. split; [exact Hnum|]. split; [exact Hsome|].
  assert (forall i j, pair_distance s i j = pair_distance s0 i j) as Hdist.
  { intros i j. unfold pair_distance, location. now rewrite Hloc. }
  assert (last_pair_distance s = last_pair_distance s0) as ->.
  { unfold last_pair_distance. cbv zeta. rewrite Hnum, !Hdist. reflexivity. }
  intros i j Hij. rewrite Hnum in Hij. destruct (Hpairs i j Hij) as [Hin _].
  destruct (Hin Hij) as [Hw Hw']. rewrite Hw, Hw'. split; [|reflexivity].
  f_equal. symmetry. apply Hdist.
Qed.

(** X11.  What the weights are.  In any arithmetic of [double] in which
    [<] orders the computed distances (as it does over the reals), the
    running bound the builder calls [maximum_distance] holds after the
    first pass the squared distance of the pair visited last, the two
    last points, while [minimum_distance] is still DBL_MAX; every weight
    is the recorded distance normalized with these two bounds, in both
    entries of the pair.  Over the reals
    and for at least two points, with [last] the squared distance of the
    last pair: the weight of a pair at squared distance [d] is
    [(d - DBL_MAX) / (last - DBL_MAX)], or [d] itself when [last] is
    DBL_MAX; the last pair has weight 1, and for [last < DBL_MAX] a weight
    is at most 1 exactly when the pair is at least as far apart as the
    last pair, and at least 0 exactly when its squared distance is at most
    DBL_MAX. *)
Theorem weights_are_scaled_by_the_last_pair :
  (forall (D : Type) (ops : DoubleOps D) (maximum_matrix : Z) (input_data : list (list D))
          (connectivity_radius : D) (drawn_phases : list D),
     distances_ordered (initial_syncnet maximum_matrix input_data drawn_phases) ->
     exists s w,
       syncnet_new maximum_matrix input_data connectivity_radius true drawn_phases = Ok s
       /\ distance_conn_weights s = Some w
       /\ forall i j, 0 <= i < j /\ j < num_osc (base s) ->
            matrix_get w i j
            = normalized (last_pair_distance s) d_max (location_distance s i j)
            /\ matrix_get w j i = matrix_get w i j)
  /\ (forall (maximum_matrix : Z) (input_data : list (list R)) (connectivity_radius : R)
             (drawn_phases : list R),
        2 <= Z.of_nat (length input_data) < 2 ^ 32 ->
        exists s w,
          syncnet_new maximum_matrix input_data connectivity_radius true drawn_phases = Ok s
          /\ distance_conn_weights s = Some w
          /\ let n := Z.of_nat (length input_data) in
             let last := location_distance s (n - 2) (n - 1) in
             (forall i j, 0 <= i < j /\ j < n ->
                (last <> d_max ->
                 matrix_get w i j
                 = ((location_distance s i j - d_max) / (last - d_max))%R)
                /\ (last = d_max -> matrix_get w i j = location_distance s i j)
                /\ matrix_get w j i = matrix_get w i j
                /\ ((last < d_max)%R ->
                    ((0 <= matrix_get w i j)%R <-> (location_distance s i j <= d_max)%R)
                    /\ ((matrix_get w i j <= 1)%R
                        <-> (last <= location_distance s i j)%R)))
             /\ (last <> d_max -> matrix_get w (n - 2) (n - 1) = 1%R)).
Proof.
  split.
  - intros D ops maximum_matrix input_data connectivity_radius drawn_phases Hordered.
    destruct (syncnet_new_weights maximum_matrix input_data connectivity_radius drawn_phases
                Hordered) as (s & w & Hnew & _ & Hsome & Hpairs).
    exists s, w. auto.
  - intros maximum_matrix input_data connectivity_radius drawn_phases Hlen.
    destruct (syncnet_new_weights maximum_matrix input_data connectivity_radius drawn_phases
                (distances_ordered_over_reals _)) as (s & w & Hnew & Hnum & Hsome & Hpairs).
    rewrite to_unsigned_small in Hnum by lia.
    exists s, w. split; [exact Hnew|]. split; [exact Hsome|]. cbv zeta.
    set (n := Z.of_nat (length input_data)) in *.
    assert (last_pair_distance s = location_distance s (n - 2) (n - 1)) as Hlast.
    { unfold last_pair_distance. cbv zeta. rewrite Hnum.
      destruct (Z.leb_spec 2 n); [reflexivity | lia]. }
    rewrite Hlast, Hnum in Hpairs. set (last := location_distance s (n - 2) (n - 1)) in *.
    assert (forall i j, 0 <= i < j /\ j < n ->
              (last <> d_max ->
               matrix_get w i j = ((location_distance s i j - d_max) / (last - d_max))%R)
              /\ (last = d_max -> matrix_get w i j = location_distance s i j)
              /\ matrix_get w j i = matrix_get w i j
              /\ ((last < d_max)%R ->
                  ((0 <= matrix_get w i j)%R <-> (location_distance s i j <= d_max)%R)
                  /\ ((matrix_get w i j <= 1)%R <-> (last <= location_distance s i j)%R)))
      as Hall.
    { intros i j Hij. destruct (Hpairs i j Hij) as [Hw Hw']. rewrite Hw', Hw.
      destruct (normalized_over_reals last d_max (location_distance s i j)) as [Hne Heq].
      split; [exact Hne|]. split; [exact Heq|]. split; [reflexivity|].
      intros Hlt. rewrite Hne by lra.
      set (d := location_distance s i j).
      set (weight_of_pair := ((d - d_max) / (last - d_max))%R).
      assert (weight_of_pair * (d_max - last) = d_max - d)%R as Hscaled.
      { unfold weight_of_pair. field. lra. }
      split; split; intros Hle; nra. }
    split; [exact Hall|]. intros Hne.
    destruct (Hall (n - 2) (n - 1) ltac:(lia)) as (Hw & _). rewrite (Hw Hne).
    fold last. field. lra.
Qed.

Lemma three_points_ordered :
  distances_ordered (initial_syncnet 4096 [[0]; [1]; [3]]%float []).
Proof.
  assert (forall y, visited_distance (initial_syncnet 4096 [[0]; [1]; [3]]%float []) y ->
            y = 1%float \/ y = 9%float \/ y = 4%float) as Hvalues.
  { intros y (i & j & Hij & ->).
    change (num_osc (base (initial_syncnet 4096 [[0]; [1]; [3]]%float []))) with 3 in Hij.
    assert ((i = 0 /\ j = 1) \/ (i = 0 /\ j = 2) \/ (i = 1 /\ j = 2)) as Hcases by lia.
    destruct Hcases as [[-> ->] | [[-> ->] | [-> ->]]]; vm_compute; auto. }
  intros x y Hx Hy. apply Hvalues in Hy.
  assert (x = 0%float \/ x = 1%float \/ x = 9%float \/ x = 4%float) as Hx'.
  { destruct Hx as [-> | Hx]; [left; reflexivity | right; apply Hvalues, Hx]. }
  destruct Hx' as [-> | [-> | [-> | ->]]], Hy as [-> | [-> | ->]]; vm_compute; auto.
Qed.

(** In binary64 and over the reals, on three points of a line. *)
Lemma weights_are_scaled_by_the_last_pair_witness :
  (exists s w,
     syncnet_new 4096 [[0]; [1]; [3]]%float 1.5%float true [] = Ok s
     /\ distance_conn_weights s = Some w
     /\ forall i j, 0 <= i < j /\ j < num_osc (base s) ->
          matrix_get w i j
          = normalized (last_pair_distance s) d_max (location_distance s i j)
          /\ matrix_get w j i = matrix_get w i j)
  /\ (exists s w,
        syncnet_new 4096 [[0]; [1]; [3]]%R (3 / 2)%R true [] = Ok s
        /\ distance_conn_weights s = Some w
        /\ let n := Z.of_nat (length [[0]; [1]; [3]]%R) in
           let last := location_distance s (n - 2) (n - 1) in
           (forall i j, 0 <= i < j /\ j < n ->
              (last <> d_max ->
               matrix_get w i j = ((location_distance s i j - d_max) / (last - d_max))%R)
              /\ (last = d_max -> matrix_get w i j = location_distance s i j)
              /\ matrix_get w j i = matrix_get w i j
              /\ ((last < d_max)%R ->
                  ((0 <= matrix_get w i j)%R <-> (location_distance s i j <= d_max)%R)
                  /\ ((matrix_get w i j <= 1)%R <-> (last <= location_distance s i j)%R)))
           /\ (last <> d_max -> matrix_get w (n - 2) (n - 1) = 1%R)).
Proof.
  split.
  - apply (proj1 weights_are_scaled_by_the_last_pair float binary64_ops 4096
             [[0]; [1]; [3]]%float 1.5%float []).
    exact three_points_ordered.
  - apply (proj2 weights_are_scaled_by_the_last_pair 4096 [[0]; [1]; [3]]%R (3 / 2)%R []).
    simpl. pow_numerals. lia.
Defined.

(** ** The network of the radius-based builder *)

(** What [syncnet::syncnet] returns, with the shape of the weight matrix. *)
Lemma syncnet_new_members {D : Type} `{DoubleOps D} (maximum_matrix : Z)
    (input_data : list (list D)) (connectivity_radius : D) (enable_conn_weight : bool)
    (drawn_phases : list D) :
  let s0 := initial_syncnet maximum_matrix input_data drawn_phases in
  exists s E,
    syncnet_new maximum_matrix input_data connectivity_radius enable_conn_weight
                drawn_phases = Ok s
    /\ same_members s0 s
    /\ base s = add_edges (base s0) E
    /\ radius_edges s0 connectivity_radius (all_pairs s0) E
    /\ (if enable_conn_weight
        then exists w maximum_distance,
               distance_conn_weights s = Some w
               /\ weights_of_pairs s0 (all_pairs s0) (normalized maximum_distance d_max)
                    (fun d => d) w
        else distance_conn_weights s = None).
Proof.
  intros s0. rewrite syncnet_new_initial. fold s0.
  apply create_connections_spec. apply initial_syncnet_range.
Qed.

(** X12.  With weighting enabled, in any arithmetic of [double], the
    weight matrix the builder leaves has one row per oscillator, each with
    one entry per oscillator; it is symmetric and its diagonal is zero. *)
Theorem weight_matrix_is_square_and_symmetric {D : Type} `{DoubleOps D}
    (maximum_matrix : Z) (input_data : list (list D)) (connectivity_radius : D)
    (drawn_phases : list D) :
  exists s w,
    syncnet_new maximum_matrix input_data connectivity_radius true drawn_phases = Ok s
    /\ distance_conn_weights s = Some w
    /\ length w = Z.to_nat (num_osc (base s))
    /\ Forall (fun row => length row = Z.to_nat (num_osc (base s))) w
    /\ (forall i j, 0 <= i < num_osc (base s) -> 0 <= j < num_osc (base s) ->
          matrix_get w i j = matrix_get w j i)
    /\ (forall i, 0 <= i < num_osc (base s) -> matrix_get w i i = d_zero).
Proof.
  destruct (syncnet_new_members maximum_matrix input_data connectivity_radius true
              drawn_phases)
    as (s & E & Hnew & _ & Hbase & _ & w & m & Hsome & [Hlen Hrows] & Hpairs & Hdiag).
  exists s, w. split; [exact Hnew|]. split; [exact Hsome|].
  assert (num_osc (base s)
          = num_osc (base (initial_syncnet maximum_matrix input_data drawn_phases)))
    as -> by (rewrite Hbase; reflexivity).
  split; [exact Hlen|]. split; [exact Hrows|]. split.
  - intros i j Hi Hj. destruct (Z.lt_total i j) as [Hlt | [-> | Hgt]]; [|reflexivity|].
    + destruct (Hpairs i j ltac:(lia)) as [Hin _].
      destruct (Hin ltac:(unfold all_pairs; lia)) as [-> ->]. reflexivity.
    + destruct (Hpairs j i ltac:(lia)) as [Hin _].
      destruct (Hin ltac:(unfold all_pairs; lia)) as [-> ->]. reflexivity.
  - intros i Hi. apply Hdiag. lia.
Qed.

(** X13.  Weighting changes nothing but the weight matrix: built from
    the same points, radius and phases, the weighted and the unweighted
    network have the same connections, oscillators, coupling weight and
    locations, and the unweighted one has no weight matrix. *)
Theorem weighting_leaves_the_connections {D : Type} `{DoubleOps D}
    (maximum_matrix : Z) (input_data : list (list D)) (connectivity_radius : D)
    (drawn_phases : list D) :
  exists weighted unweighted,
    syncnet_new maximum_matrix input_data connectivity_radius true drawn_phases = Ok weighted
    /\ syncnet_new maximum_matrix input_data connectivity_radius false drawn_phases
       = Ok unweighted
    /\ distance_conn_weights unweighted = None
    /\ base weighted = base unweighted
    /\ oscillators weighted = oscillators unweighted
    /\ weight weighted = weight unweighted
    /\ oscillator_locations weighted = oscillator_locations unweighted.
Proof.
  destruct (syncnet_new_members maximum_matrix input_data connectivity_radius true
              drawn_phases)
    as (sw & Ew & Hneww & (Hoscw & Hweightw & Hlocw) & Hbasew & HEw & _).
  destruct (syncnet_new_members maximum_matrix input_data connectivity_radius false
              drawn_phases)
    as (su & Eu & Hnewu & (Hoscu & Hweightu & Hlocu) & Hbaseu & HEu & Hnone).
  exists sw, su. split; [exact Hneww|]. split; [exact Hnewu|]. split; [exact Hnone|].
  split; [|split; [congruence | split; congruence]].
  rewrite Hbasew, Hbaseu. f_equal. apply set_eq. intros [a b].
  rewrite (HEw a b), (HEu a b). reflexivity.
Qed.

(** X14.  From no point or a single point the radius-based builder makes
    a network without connections, whatever the radius; the weight matrix,
    when asked for, is all zero (empty, or the single entry 0). *)
Theorem fewer_than_two_points {D : Type} `{DoubleOps D}
    (maximum_matrix : Z) (input_data : list (list D)) (connectivity_radius : D)
    (enable_conn_weight : bool) (drawn_phases : list D) :
  (length input_data <= 1)%nat ->
  exists s,
    syncnet_new maximum_matrix input_data connectivity_radius enable_conn_weight
                drawn_phases = Ok s
    /\ (forall a b, get_connection (base s) a b = 0)
    /\ distance_conn_weights s
       = if enable_conn_weight
         then Some (replicate (length input_data) (replicate (length input_data) d_zero))
         else None.
Proof.
  intros Hlen.
  destruct (syncnet_new_members maximum_matrix input_data connectivity_radius
              enable_conn_weight drawn_phases) as (s & E & Hnew & _ & Hbase & HE & Hw).
  set (s0 := initial_syncnet maximum_matrix input_data drawn_phases) in *.
  assert (num_osc (base s0) = Z.of_nat (length input_data)) as Hnum.
  { apply to_unsigned_small. pow_numerals. lia. }
  exists s. split; [exact Hnew|]. split.
  - intros a b. apply get_connection_no_edge. rewrite Hbase.
    unfold s0, initial_syncnet; simpl. rewrite is_edge_allocated, (HE a b).
    intros (i & j & Hij & _). unfold all_pairs in Hij. lia.
  - destruct enable_conn_weight; [|exact Hw].
    destruct Hw as (w & m & -> & [Hwlen Hrows] & _ & Hdiag). f_equal.
    rewrite Hnum, Nat2Z.id in Hwlen, Hrows.
    destruct input_data as [|p [|q input_data]]; simpl in *; [| |lia].
    + destruct w; [reflexivity | discriminate].
    + destruct w as [|row [|row' w]]; try discriminate.
      apply Forall_cons in Hrows as [Hrow _].
      destruct row as [|x [|y row]]; try discriminate.
      specialize (Hdiag 0 ltac:(lia)). unfold matrix_get in Hdiag. simpl in Hdiag.
      now rewrite Hdiag.
Qed.

Lemma fewer_than_two_points_witness :
  exists s,
    syncnet_new 4096 [[2; 5]]%float 1.5%float true [0%float] = Ok s
    /\ (forall a b, get_connection (base s) a b = 0)
    /\ distance_conn_weights s
       = if true
         then Some (replicate (length [[2; 5]]%float) (replicate (length [[2; 5]]%float) d_zero))
         else None.
Proof.
  apply (fewer_than_two_points 4096 [[2; 5]]%float 1.5%float true [0%float]).
  simpl. lia.
Defined.

(** X15.  The radius enters the builder only through its square: two
    radii with the same computed square build the same network, and over
    the reals a negative radius builds what its absolute value builds. *)
Theorem radius_enters_through_its_square :
  (forall (D : Type) (ops : DoubleOps D) (maximum_matrix : Z) (input_data : list (list D))
          (radius radius' : D) (enable_conn_weight : bool) (drawn_phases : list D),
     d_mul radius radius = d_mul radius' radius' ->
     syncnet_new maximum_matrix input_data radius enable_conn_weight drawn_phases
     = syncnet_new maximum_matrix input_data radius' enable_conn_weight drawn_phases)
  /\ (forall (maximum_matrix : Z) (input_data : list (list R)) (radius : R)
             (enable_conn_weight : bool) (drawn_phases : list R),
        syncnet_new maximum_matrix input_data (- radius)%R enable_conn_weight drawn_phases
        = syncnet_new maximum_matrix input_data radius enable_conn_weight drawn_phases).
Proof.
  assert (forall (D : Type) (ops : DoubleOps D) (maximum_matrix : Z)
            (input_data : list (list D)) (radius radius' : D) (enable_conn_weight : bool)
            (drawn_phases : list D),
            d_mul radius radius = d_mul radius' radius' ->
            syncnet_new maximum_matrix input_data radius enable_conn_weight drawn_phases
            = syncnet_new maximum_matrix input_data radius' enable_conn_weight drawn_phases)
    as Hsquare.
  { intros D ops maximum_matrix input_data radius radius' enable_conn_weight drawn_phases Hsq.
    rewrite !syncnet_new_initial. unfold create_connections. cbv zeta.
    rewrite Hsq. reflexivity. }
  split; [exact Hsquare|]. intros. apply Hsquare. simpl. ring.
Qed.

Lemma radius_enters_through_its_square_witness :
  syncnet_new 4096 [[0]; [1]; [3]]%R (- (3 / 2))%R true []
  = syncnet_new 4096 [[0]; [1]; [3]]%R (3 / 2)%R true [].
Proof.
  exact (proj2 radius_enters_through_its_square 4096 [[0]; [1]; [3]]%R (3 / 2)%R true []).
Defined.

Lemma larger_test_keeps_the_connections {D : Type} `{DoubleOps D} (maximum_matrix : Z)
    (input_data : list (list D)) (radius radius' : D) (enable_conn_weight : bool)
    (drawn_phases : list D) :
  (forall d, d_leb d (d_mul radius radius) = true ->
             d_leb d (d_mul radius' radius') = true) ->
  exists s s',
    syncnet_new maximum_matrix input_data radius enable_conn_weight drawn_phases = Ok s
    /\ syncnet_new maximum_matrix input_data radius' enable_conn_weight drawn_phases = Ok s'
    /\ forall a b, get_connection (base s) a b = 1 -> get_connection (base s') a b = 1.
Proof.
  intros Hle.
  destruct (syncnet_new_spec maximum_matrix input_data radius enable_conn_weight drawn_phases)
    as (s & Hnew & Hloc & _ & _ & Hnum & Hedges & _).
  destruct (syncnet_new_spec maximum_matrix input_data radius' enable_conn_weight drawn_phases)
    as (s' & Hnew' & Hloc' & _ & _ & Hnum' & Hedges' & _).
  exists s, s'. split; [exact Hnew|]. split; [exact Hnew'|].
  intros a b. rewrite !get_connection_edge, Hedges, Hedges'.
  intros (i & j & Hij & Hd & Hab). exists i, j. rewrite Hnum', <- Hnum.
  split; [exact Hij|]. split; [|exact Hab].
  unfold location_distance, location in *. rewrite Hloc', <- Hloc. apply Hle, Hd.
Qed.

(** X16.  Enlarging the radius keeps every connection.  In any
    arithmetic of [double] with a transitive [<=], what is connected for
    [radius] is connected for every [radius'] whose computed square is not
    below that of [radius]; over the reals this holds for every
    [radius' >= radius >= 0]. *)
Theorem larger_radius_keeps_the_connections :
  (forall (D : Type) (ops : DoubleOps D) (maximum_matrix : Z) (input_data : list (list D))
          (radius radius' : D) (enable_conn_weight : bool) (drawn_phases : list D),
     (forall x y z, d_leb x y = true -> d_leb y z = true -> d_leb x z = true) ->
     d_leb (d_mul radius radius) (d_mul radius' radius') = true ->
     exists s s',
       syncnet_new maximum_matrix input_data radius enable_conn_weight drawn_phases = Ok s
       /\ syncnet_new maximum_matrix input_data radius' enable_conn_weight drawn_phases
          = Ok s'
       /\ forall a b, get_connection (base s) a b = 1 -> get_connection (base s') a b = 1)
  /\ (forall (maximum_matrix : Z) (input_data : list (list R)) (radius radius' : R)
             (enable_conn_weight : bool) (drawn_phases : list R),
        (0 <= radius <= radius')%R ->
        exists s s',
          syncnet_new maximum_matrix input_data radius enable_conn_weight drawn_phases = Ok s
          /\ syncnet_new maximum_matrix input_data radius' enable_conn_weight drawn_phases
             = Ok s'
          /\ forall a b, get_connection (base s) a b = 1 -> get_connection (base s') a b = 1).
Proof.
  split.
  - intros D ops maximum_matrix input_data radius radius' enable_conn_weight drawn_phases
      Htrans Hle.
    apply larger_test_keeps_the_connections. intros d Hd. exact (Htrans _ _ _ Hd Hle).
  - intros maximum_matrix input_data radius radius' enable_conn_weight drawn_phases Hr.
    apply larger_test_keeps_the_connections. intros d Hd.
    apply Rleb_le. apply Rleb_le in Hd. simpl in *. nra.
Qed.

Lemma larger_radius_keeps_the_connections_witness :
  exists s s',
    syncnet_new 4096 [[0]; [1]; [3]]%R 1%R true [] = Ok s
    /\ syncnet_new 4096 [[0]; [1]; [3]]%R 2%R true [] = Ok s'
    /\ forall a b, get_connection (base s) a b = 1 -> get_connection (base s') a b = 1.
Proof.
  apply (proj2 larger_radius_keeps_the_connections 4096 [[0]; [1]; [3]]%R 1%R 2%R true []).
  lra.
Defined.

(** ** The phase law at rest and its bound *)

Lemma Rsum_ext (f g : Z -> R) (l : list Z) :
  (forall k, k ∈ l -> f k = g k) -> Rsum (f <$> l) = Rsum (g <$> l).
Proof.
  induction l as [|k l IH]; intros Hfg; [reflexivity|].
  rewrite !fmap_cons. unfold Rsum in *. simpl. rewrite IH.
  - rewrite (Hfg k) by left. reflexivity.
  - intros k' Hk'. apply Hfg. now right.
Qed.

Lemma Rsum_zero (l : list Z) : Rsum ((fun _ => 0%R) <$> l) = 0%R.
Proof.
  induction l as [|k l IH]; [reflexivity|].
  rewrite fmap_cons. unfold Rsum in *. simpl. rewrite IH. ring.
Qed.

Lemma Rsum_bound (f : Z -> R) (l : list Z) :
  (forall k, k ∈ l -> (Rabs (f k) <= 1)%R) ->
  (Rabs (Rsum (f <$> l)) <= IZR (Z.of_nat (length l)))%R.
Proof.
  induction l as [|k l IH]; intros Hf.
  - change (Rabs 0 <= 0)%R. rewrite Rabs_R0. lra.
  - rewrite fmap_cons. unfold Rsum in *. cbn [foldr length].
    rewrite Nat2Z.inj_succ, succ_IZR.
    pose proof (Rabs_triang (f k) (foldr Rplus 0%R (f <$> l))) as Htri.
    pose proof (Hf k ltac:(left)) as Hk.
    pose proof (IH ltac:(intros k' Hk'; apply Hf; now right)) as Hl.
    lra.
Qed.

Lemma neighbour_count_positive (l : list Z) :
  1 <= match l with [] => 1 | _ :: _ => Z.of_nat (length l) end
  /\ Z.of_nat (length l) <= match l with [] => 1 | _ :: _ => Z.of_nat (length l) end.
Proof. destruct l; simpl length; lia. Qed.

Lemma three_oscillators_neighbors (phases : list R) (weights : option (list (list R))) :
  get_neighbors (base (three_oscillators phases weights)) 0 = [1; 2].
Proof. reflexivity. Qed.

(** X17.  The phase derivative at rest.  For an oscillator without
    neighbours the function returns [(0 * weight) / 1] in any arithmetic
    of [double]; over the reals it returns zero whenever every neighbour
    has the phase [teta] of the oscillator. *)
Theorem phase_kuramoto_at_rest :
  (forall (D : Type) (ops : DoubleOps D) (d_sin : D -> D) (s : syncnet D) (t teta : D)
          (index : Z),
     0 <= num_osc (base s) < 2 ^ 32 ->
     get_neighbors (base s) index = [] ->
     fst (phase_kuramoto d_sin t teta index s)
     = d_div (d_mul d_zero (weight s)) (d_of_uint 1))
  /\ (forall (s : syncnet R) (t teta : R) (index : Z),
        0 <= num_osc (base s) < 2 ^ 32 ->
        (forall k, k ∈ get_neighbors (base s) index -> phase_at s k = teta) ->
        fst (phase_kuramoto sin t teta index s) = 0%R).
Proof.
  split.
  - intros D ops d_sin s t teta index Hn Hnone.
    rewrite (phase_kuramoto_run d_sin s t teta index Hn).
    unfold neighbour_divisor. rewrite Hnone. reflexivity.
  - intros s t teta index Hn Hsync.
    rewrite (phase_kuramoto_over_reals s t teta index Hn). cbv zeta.
    rewrite (Rsum_ext _ (fun _ => 0%R)).
    + rewrite Rsum_zero. ring.
    + intros k Hk. rewrite (Hsync k Hk), Rminus_diag, sin_0. ring.
Qed.

Lemma phase_kuramoto_at_rest_witness :
  fst (phase_kuramoto (fun x => x) 0%float 2%float 1
         (initial_syncnet 4096 [[0]; [1]; [3]]%float [5; 2; 2]%float))
  = d_div (d_mul d_zero 1%float) (d_of_uint 1)
  /\ fst (phase_kuramoto sin 0%R 2%R 0 (three_oscillators [5; 2; 2]%R None)) = 0%R.
Proof.
  split.
  - refine (proj1 phase_kuramoto_at_rest float binary64_ops (fun x => x)
              (initial_syncnet 4096 [[0]; [1]; [3]]%float [5; 2; 2]%float) 0%float 2%float 1
              _ _).
    + apply initial_syncnet_range.
    + reflexivity.
  - apply (proj2 phase_kuramoto_at_rest (three_oscillators [5; 2; 2]%R None) 0%R 2%R 0).
    + simpl. pow_numerals. lia.
    + intros k Hk. rewrite three_oscillators_neighbors in Hk.
      apply elem_of_cons in Hk as [-> | Hk]; [reflexivity|].
      apply elem_of_cons in Hk as [-> | Hk]; [reflexivity|].
      apply elem_of_nil in Hk. contradiction.
Defined.

(** X18.  Over the reals, when no neighbour's connection weight exceeds
    1 in absolute value (as in the unweighted mode, where it is 1), the
    phase derivative is at most the coupling weight in absolute value. *)
Theorem phase_kuramoto_is_bounded_by_the_weight (s : syncnet R) (t teta : R) (index : Z) :
  0 <= num_osc (base s) < 2 ^ 32 ->
  (forall k, k ∈ get_neighbors (base s) index -> (Rabs (edge_weight s index k) <= 1)%R) ->
  (Rabs (fst (phase_kuramoto sin t teta index s)) <= Rabs (weight s))%R.
Proof.
  intros Hn Hweights. rewrite (phase_kuramoto_over_reals s t teta index Hn). cbv zeta.
  set (neighbours := get_neighbors (base s) index) in *.
  destruct (neighbour_count_positive neighbours) as [Hpos Hlen].
  set (num_neighbors := match neighbours with
                        | [] => 1
                        | _ :: _ => Z.of_nat (length neighbours)
                        end) in *.
  set (f := fun k => (edge_weight s index k * sin (phase_at s k - teta))%R).
  assert (Rabs (Rsum (f <$> neighbours)) <= IZR num_neighbors)%R as Hsum.
  { apply Rle_trans with (IZR (Z.of_nat (length neighbours))); [|apply IZR_le; exact Hlen].
    apply Rsum_bound. intros k Hk. unfold f. rewrite Rabs_mult.
    pose proof (Hweights k Hk) as Hw. pose proof (Rabs_pos (edge_weight s index k)) as Hw0.
    pose proof (SIN_bound (phase_at s k - teta)) as [Hs1 Hs2].
    assert (Rabs (sin (phase_at s k - teta)) <= 1)%R as Hsin by (apply Rabs_le; lra).
    pose proof (Rabs_pos (sin (phase_at s k - teta))) as Hsin0. nra. }
  assert (0 < IZR num_neighbors)%R as Hnum by (apply IZR_lt; lia).
  replace (weight s / IZR num_neighbors * Rsum (f <$> neighbours))%R
    with (weight s * (Rsum (f <$> neighbours) / IZR num_neighbors))%R by (field; lra).
  rewrite Rabs_mult. unfold Rdiv at 1. rewrite Rabs_mult, Rabs_inv.
  rewrite (Rabs_pos_eq (IZR num_neighbors)) by lra.
  pose proof (Rabs_pos (weight s)) as Hw0.
  assert (Rabs (Rsum (f <$> neighbours)) * / IZR num_neighbors <= 1)%R as Hratio.
  { apply (Rmult_le_reg_r (IZR num_neighbors)); [exact Hnum|].
    rewrite Rmult_assoc, Rinv_l by lra. lra. }
  pose proof (Rabs_pos (Rsum (f <$> neighbours))) as Hs0.
  assert (0 <= Rabs (Rsum (f <$> neighbours)) * / IZR num_neighbors)%R as Hratio0.
  { apply Rmult_le_pos; [exact Hs0|]. apply Rlt_le, Rinv_0_lt_compat, Hnum. }
  nra.
Qed.

Lemma phase_kuramoto_is_bounded_by_the_weight_witness :
  (Rabs (fst (phase_kuramoto sin 0%R 2%R 0 (three_oscillators [5; 1; 4]%R None)))
   <= Rabs (weight (three_oscillators [5; 1; 4]%R None)))%R.
Proof.
  apply phase_kuramoto_is_bounded_by_the_weight.
  - simpl. pow_numerals. lia.
  - intros k _. unfold edge_weight. simpl. rewrite Rabs_R1. lra.
Defined.





(** ** NaN in binary64 *)

Lemma float_nan_absorbs (x : float) :
  (x + nan = nan /\ nan + x = nan /\ x - nan = nan /\ nan - x = nan
   /\ x * nan = nan /\ nan * x = nan)%float.
Proof.
  repeat split; apply Prim2SF_inj;
    rewrite ?add_spec, ?sub_spec, ?mul_spec;
    change (Prim2SF nan) with S754_nan; destruct (Prim2SF x) as [[|] | [|] | | [|] m e];
    reflexivity.
Qed.

Lemma float_nan_unordered (x : float) :
  PrimFloat.leb x nan = false /\ PrimFloat.leb nan x = false.
Proof.
  split; rewrite leb_spec; change (Prim2SF nan) with S754_nan; destruct (Prim2SF x);
    reflexivity.
Qed.

Lemma euclidean_distance_sqrt_from_nan (l : list (float * float)) :
  foldl (fun distance '(a, b) =>
           let difference := d_sub a b in d_add distance (d_mul difference difference))
        nan l = nan.
Proof.
  induction l as [|[a b] l IH]; [reflexivity|]. simpl.
  destruct (float_nan_absorbs ((a - b) * (a - b))) as (_ & -> & _). exact IH.
Qed.

Lemma euclidean_distance_sqrt_nan_coordinate (p q : list float) (c : nat) :
  p !! c = Some nan \/ q !! c = Some nan -> (c < length p)%nat -> (c < length q)%nat ->
  euclidean_distance_sqrt p q = nan.
Proof.
  unfold euclidean_distance_sqrt. generalize (@d_zero float binary64_ops) as acc.
  revert p q. induction c as [|c IH]; intros [|a p] [|b q] acc Hnan Hp Hq;
    simpl in Hp, Hq; try lia.
  - simpl in *.
    assert (acc + (a - b) * (a - b) = nan)%float as ->;
      [|apply euclidean_distance_sqrt_from_nan].
    assert (a - b = nan)%float as ->.
    { destruct Hnan as [[= ->] | [= ->]].
      - destruct (float_nan_absorbs b) as (_ & _ & _ & -> & _). reflexivity.
      - destruct (float_nan_absorbs a) as (_ & _ & -> & _). reflexivity. }
    destruct (float_nan_absorbs nan) as (_ & _ & _ & _ & -> & _).
    destruct (float_nan_absorbs acc) as (-> & _). reflexivity.
  - simpl. apply IH; [exact Hnan | lia | lia].
Qed.

(** X20.  In binary64, a radius that is NaN raises no error and builds a
    network without any connection, whatever the points. *)
Theorem nan_radius_connects_nothing (maximum_matrix : Z) (input_data : list (list float))
    (enable_conn_weight : bool) (drawn_phases : list float) :
  exists s,
    syncnet_new maximum_matrix input_data nan enable_conn_weight drawn_phases = Ok s
    /\ forall a b, get_connection (base s) a b = 0.
Proof.
  destruct (syncnet_new_spec maximum_matrix input_data nan enable_conn_weight drawn_phases)
    as (s & Hnew & _ & _ & _ & _ & Hedges & _).
  exists s. split; [exact Hnew|]. intros a b. apply get_connection_no_edge.
  rewrite Hedges. intros (i & j & _ & Hle & _).
  destruct (float_nan_unordered (location_distance s i j)) as [Hno _].
  discriminate (eq_trans (eq_sym Hno) Hle).
Qed.

(** X21.  In binary64, for points that all have the same number of
    coordinates, a point with a NaN coordinate gets no connection, in
    either direction, whatever the radius: its distance to every other
    point is NaN and fails the radius test. *)
Theorem nan_coordinate_isolates_the_point (maximum_matrix : Z)
    (input_data : list (list float)) (connectivity_radius : float)
    (enable_conn_weight : bool) (drawn_phases : list float)
    (dimension coordinate : nat) (index : Z) (point : list float) :
  Forall (fun p => length p = dimension) input_data ->
  0 <= index -> input_data !! Z.to_nat index = Some point ->
  point !! coordinate = Some nan ->
  exists s,
    syncnet_new maximum_matrix input_data connectivity_radius enable_conn_weight drawn_phases
    = Ok s
    /\ forall k, get_connection (base s) index k = 0 /\ get_connection (base s) k index = 0.
Proof.
  intros Hdim Hindex Hpoint Hnan.
  destruct (syncnet_new_spec maximum_matrix input_data connectivity_radius enable_conn_weight
              drawn_phases) as (s & Hnew & Hloc & _ & _ & Hnum & Hedges & _).
  exists s. split; [exact Hnew|].
  assert (num_osc (base s) <= Z.of_nat (length input_data)) as Hbound.
  { rewrite Hnum. unfold to_unsigned, UINT_MODULUS. apply Z.mod_le; lia. }
  assert (length point = dimension) as Hlen.
  { rewrite Forall_lookup in Hdim. exact (Hdim _ _ Hpoint). }
  assert (coordinate < dimension)%nat as Hcoord.
  { rewrite <- Hlen. apply lookup_lt_is_Some. eauto. }
  assert (forall i j, 0 <= i < j /\ j < num_osc (base s) -> i = index \/ j = index ->
            location_distance s i j = nan) as Hdist.
  { intros i j Hij Hcase. unfold location_distance, location. rewrite Hloc.
    destruct (lookup_lt_is_Some_2 input_data (Z.to_nat i) ltac:(lia)) as [p Hp].
    destruct (lookup_lt_is_Some_2 input_data (Z.to_nat j) ltac:(lia)) as [q Hq].
    rewrite Hp, Hq. simpl.
    assert (length p = dimension /\ length q = dimension) as [Hlp Hlq].
    { rewrite Forall_lookup in Hdim. split; eapply Hdim; eassumption. }
    apply (euclidean_distance_sqrt_nan_coordinate p q coordinate); [|lia|lia].
    destruct Hcase as [-> | ->]; [left | right]; congruence. }
  assert (forall a b, a = index \/ b = index -> ~ is_edge (base s) a b) as Hnone.
  { intros a b Hcase. rewrite Hedges. intros (i & j & Hij & Hle & Hab).
    rewrite Hdist in Hle by (try exact Hij; lia).
    destruct (float_nan_unordered (d_mul connectivity_radius connectivity_radius))
      as [_ Hno]. discriminate (eq_trans (eq_sym Hno) Hle). }
  intros k. split; apply get_connection_no_edge, Hnone; auto.
Qed.

Lemma nan_coordinate_isolates_the_point_witness :
  exists s,
    syncnet_new 4096 [[0; 0]; [1; nan]; [0; 1]]%float 5%float true [] = Ok s
    /\ forall k, get_connection (base s) 1 k = 0 /\ get_connection (base s) k 1 = 0.
Proof.
  apply (nan_coordinate_isolates_the_point 4096 [[0; 0]; [1; nan]; [0; 1]]%float 5%float
           true [] 2%nat 1%nat 1 [1; nan]%float).
  - repeat constructor.
  - lia.
  - reflexivity.
  - reflexivity.
Defined.

(** ** A radius of zero *)

Lemma sum_of_squares_zero (acc : R) (l : list (R * R)) :
  (0 <= acc)%R ->
  (0 <= foldl (fun distance '(a, b) =>
                 let difference := d_sub a b in
                 d_add distance (d_mul difference difference)) acc l)%R
  /\ (foldl (fun distance '(a, b) =>
               let difference := d_sub a b in
               d_add distance (d_mul difference difference)) acc l = 0%R
      <-> acc = 0%R /\ Forall (fun ab => fst ab = snd ab) l).
Proof.
  revert acc. induction l as [|[a b] l IH]; intros acc Hacc; simpl.
  - split; [exact Hacc|]. split; [auto | tauto].
  - pose proof (Rle_0_sqr (a - b)) as Hsquare. unfold Rsqr in Hsquare.
    assert (0 <= acc + (a - b) * (a - b))%R as Hstep by lra.
    destruct (IH _ Hstep) as [Hpos Hzero]. split; [exact Hpos|].
    rewrite Hzero, Forall_cons. simpl. split.
    + intros [Hsum Hl]. assert ((a - b) * (a - b) = 0)%R as Hdiff by lra.
      apply Rmult_integral in Hdiff.
      split; [lra|]. split; [destruct Hdiff; lra | exact Hl].
    + intros (-> & -> & Hl). split; [ring | exact Hl].
Qed.

Lemma euclidean_distance_sqrt_zero (p q : list R) :
  length p = length q -> (euclidean_distance_sqrt p q = 0%R <-> p = q).
Proof.
  intros Hlen. unfold euclidean_distance_sqrt.
  destruct (sum_of_squares_zero 0%R (zip p q) ltac:(simpl; lra)) as [_ ->].
  split.
  - intros [_ Hall]. revert q Hlen Hall.
    induction p as [|a p IH]; intros [|b q] Hlen Hall; simpl in *; try discriminate.
    + reflexivity.
    + apply Forall_cons in Hall as [Hab Hall]. simpl in Hab. subst b.
      f_equal. apply IH; [congruence | exact Hall].
  - intros <-. split; [reflexivity|]. clear Hlen.
    induction p as [|a p IH]; simpl; constructor; auto.
Qed.

Lemma euclidean_distance_sqrt_nonneg (p q : list R) : (0 <= euclidean_distance_sqrt p q)%R.
Proof.
  unfold euclidean_distance_sqrt.
  apply (sum_of_squares_zero 0%R (zip p q)). simpl. lra.
Qed.

(** X22.  Over the reals, for points that all have the same number of
    coordinates, a radius of zero connects two oscillators exactly when
    their points coincide. *)
Theorem zero_radius_connects_coincident_points (maximum_matrix : Z)
    (input_data : list (list R)) (enable_conn_weight : bool) (drawn_phases : list R)
    (dimension : nat) :
  Z.of_nat (length input_data) < 2 ^ 32 ->
  Forall (fun p => length p = dimension) input_data ->
  exists s,
    syncnet_new maximum_matrix input_data 0%R enable_conn_weight drawn_phases = Ok s
    /\ forall i j p q,
         i <> j ->
         input_data !! Z.to_nat i = Some p -> 0 <= i ->
         input_data !! Z.to_nat j = Some q -> 0 <= j ->
         (get_connection (base s) i j = 1 <-> p = q).
Proof.
  intros Hlen Hdim.
  destruct (radius_builder_over_reals maximum_matrix input_data 0%R enable_conn_weight
              drawn_phases) as (s & Hnew & Hloc & Hnum & Hpairs).
  rewrite to_unsigned_small in Hnum by lia.
  exists s. split; [exact Hnew|]. intros i j p q Hij Hp Hi Hq Hj.
  assert (0 <= i < num_osc (base s)) as Hi'.
  { rewrite Hnum. apply lookup_lt_Some in Hp. lia. }
  assert (0 <= j < num_osc (base s)) as Hj'.
  { rewrite Hnum. apply lookup_lt_Some in Hq. lia. }
  destruct (Hpairs i j Hi' Hj' Hij) as (-> & _).
  unfold location_distance, location. rewrite Hloc, Hp, Hq. simpl.
  assert (length p = length q) as Hpq.
  { rewrite Forall_lookup in Hdim. rewrite (Hdim _ _ Hp), (Hdim _ _ Hq). reflexivity. }
  rewrite <- (euclidean_distance_sqrt_zero p q Hpq).
  pose proof (euclidean_distance_sqrt_nonneg p q). split; intros; lra.
Qed.

Lemma zero_radius_connects_coincident_points_witness :
  exists s,
    syncnet_new 4096 [[0; 1]; [2; 3]; [0; 1]]%R 0%R false [] = Ok s
    /\ forall i j p q,
         i <> j ->
         [[0; 1]; [2; 3]; [0; 1]]%R !! Z.to_nat i = Some p -> 0 <= i ->
         [[0; 1]; [2; 3]; [0; 1]]%R !! Z.to_nat j = Some q -> 0 <= j ->
         (get_connection (base s) i j = 1 <-> p = q).
Proof.
  apply (zero_radius_connects_coincident_points 4096 [[0; 1]; [2; 3]; [0; 1]]%R false []
           2%nat).
  - simpl. pow_numerals. lia.
  - repeat constructor.
Defined.
